(** * Label fusion of the global segment map: LabelTsdfIntegrator

    A shallow embedding of
    [global_segment_map/include/global_segment_map/label_tsdf_integrator.h]
    and the properties of its label bookkeeping: the voxel update rule, label
    minting, the candidate scan of a segment, the greedy assignment of labels
    to segments, the pairwise confidence ledger, label merging and the
    fold-back of staged blocks.

    The integrator is modelled sequentially: the mutexes of the source
    serialise the voxel updates, and every function below is one such
    serialised step. *)

From stdpp Require Import gmap list.
From Stdlib Require Import ZArith Lia.

Local Open Scope Z_scope.

(** ** Outcomes of a call

    A call returns, aborts on a failed glog [CHECK] (fatal), or runs into
    behaviour that C++ leaves undefined.  [OutOfFuel] is the exhausted bound of
    a loop that the model runs on a counter; the loops below are given a bound
    they never exhaust. *)

Inductive outcome (A : Type) : Type :=
| Returns (a : A)
| Fatal
| Undefined
| OutOfFuel.

Arguments Returns {A} a.
Arguments Fatal {A}.
Arguments Undefined {A}.
Arguments OutOfFuel {A}.

Definition bind {A B : Type} (m : outcome A) (k : A -> outcome B) : outcome B :=
  match m with
  | Returns a => k a
  | Fatal => Fatal
  | Undefined => Undefined
  | OutOfFuel => OutOfFuel
  end.

Notation "'do' x <- m ; k" := (bind m (fun x => k))
  (at level 10, x pattern, m at level 100, k at level 200).

(** ** [std::map] with integer keys

    An ordered map is the list of its entries in increasing key order, which
    is the order in which the source iterates over it. *)

Module SMap.

Definition t (V : Type) : Type := list (Z * V).

Fixpoint find {V : Type} (k : Z) (m : t V) : option V :=
  match m with
  | [] => None
  | (k', v) :: m' => if k' =? k then Some v else find k m'
  end.

(** [it->second = v] through an iterator to the entry of [k]. *)
Fixpoint assign {V : Type} (k : Z) (v : V) (m : t V) : t V :=
  match m with
  | [] => []
  | (k', v') :: m' =>
      if k' =? k then (k', v) :: m' else (k', v') :: assign k v m'
  end.

(** Position of a new key in the order. *)
Fixpoint place {V : Type} (k : Z) (v : V) (m : t V) : t V :=
  match m with
  | [] => [(k, v)]
  | (k', v') :: m' =>
      if k <? k' then (k, v) :: (k', v') :: m' else (k', v') :: place k v m'
  end.

(** [emplace] and [insert]: nothing happens when the key is present. *)
Definition emplace {V : Type} (k : Z) (v : V) (m : t V) : t V :=
  match find k m with
  | Some _ => m
  | None => place k v m
  end.

(** [erase(key)]. *)
Fixpoint erase {V : Type} (k : Z) (m : t V) : t V :=
  match m with
  | [] => []
  | (k', v') :: m' =>
      if k' =? k then erase k m' else (k', v') :: erase k m'
  end.

End SMap.

(** ** The platform: types and functions declared outside this header

    [Label] and [LabelConfidence] are typedefs of [label_voxel.h]: unsigned
    integers, whose widths are taken as parameters.  Points, transformations,
    colours and the addressing of blocks and voxels belong to voxblox; the
    overlap ratio is computed in [float]. *)

Definition BlockIndex : Type := Z * Z * Z.

Class Platform : Type := {
  label_bits : Z;
  confidence_bits : Z;
  (** a C++ integer type has at least the eight bits of a [char] *)
  label_bits_min : 8 <= label_bits;
  confidence_bits_min : 8 <= confidence_bits;
  Point : Type;
  Transformation : Type;
  Color : Type;
  Float : Type;
  TsdfBlock : Type;
  VoxelIndex : Type;
  (** [T_G_C * point_C] *)
  transform : Transformation -> Point -> Point;
  (** the block of [Layer::getBlockPtrByCoordinates] *)
  block_of_point : Point -> BlockIndex;
  (** the voxel of [Block::getVoxelByCoordinates], as a linear index *)
  voxel_of_point : Point -> nat;
  (** [getBlockIndexFromGlobalVoxelIndex] *)
  block_of_voxel : VoxelIndex -> BlockIndex;
  (** [getLocalFromGlobalVoxelIndex], as a linear index *)
  local_of_voxel : VoxelIndex -> nat;
  (** [voxels_per_side_] *)
  voxels_per_side_ : nat;
  (** [static_cast<float>(n) / static_cast<float>(d) > threshold] *)
  ratio_gt : Z -> Z -> Float -> bool
}.

(** Unsigned arithmetic of a given width wraps around. *)
Definition wrap (bits z : Z) : Z := z mod 2 ^ bits.

(** [std::numeric_limits<unsigned int>::max()] and [int], 32 bits wide;
    [size_t], 64 bits wide. *)
Definition uint_max : Z := 2 ^ 32 - 1.
Definition int_max : Z := 2 ^ 31 - 1.
Definition size_t_bits : Z := 64.

(** Conversion of a [size_t] to [int]. *)
Definition int_of_size_t (n : Z) : Z := (n + 2 ^ 31) mod 2 ^ 32 - 2 ^ 31.

Section Integrator.

Context {P : Platform}.

Definition label_max : Z := 2 ^ label_bits - 1.
Definition confidence_max : Z := 2 ^ confidence_bits - 1.

(** *** Voxels, blocks, segments *)

Record LabelVoxel : Type := mkLabelVoxel {
  label : Z;
  label_confidence : Z
}.

(** A default-constructed voxel: unobserved. *)
Definition unobserved : LabelVoxel := mkLabelVoxel 0 0.

(** A block is its array of voxels, in linear index order, and its
    [updated] flag. *)
Record Block : Type := mkBlock {
  voxels : list LabelVoxel;
  updated : bool
}.

Record Segment : Type := mkSegment {
  points_C_ : list Point;
  T_G_C_ : Transformation;
  colors_ : list Color;
  labels_ : list Z
}.

Record LabelTsdfConfig : Type := mkLabelTsdfConfig {
  enable_pairwise_confidence_merging : bool;
  pairwise_confidence_ratio_threshold : Float;
  pairwise_confidence_threshold : Z;
  cap_confidence : bool;
  confidence_cap_value : Z
}.

(** *** The integrator

    [temp_block_map_] is the staging map of the TSDF layer, inherited from
    [MergedTsdfIntegrator]; [highest_label_] is the counter the constructor
    receives a pointer to. *)
Record LabelTsdfIntegrator : Type := mkLabelTsdfIntegrator {
  label_tsdf_config_ : LabelTsdfConfig;
  label_layer_ : gmap BlockIndex Block;
  temp_block_map_ : gmap BlockIndex TsdfBlock;
  temp_label_block_map_ : gmap BlockIndex Block;
  highest_label_ : Z;
  labels_count_map_ : SMap.t Z;
  pairwise_confidence_ : SMap.t (SMap.t Z)
}.

Definition set_label_layer (l : gmap BlockIndex Block)
    (s : LabelTsdfIntegrator) : LabelTsdfIntegrator :=
  mkLabelTsdfIntegrator (label_tsdf_config_ s) l (temp_block_map_ s)
    (temp_label_block_map_ s) (highest_label_ s) (labels_count_map_ s)
    (pairwise_confidence_ s).

Definition set_temp_block_map (m : gmap BlockIndex TsdfBlock)
    (s : LabelTsdfIntegrator) : LabelTsdfIntegrator :=
  mkLabelTsdfIntegrator (label_tsdf_config_ s) (label_layer_ s) m
    (temp_label_block_map_ s) (highest_label_ s) (labels_count_map_ s)
    (pairwise_confidence_ s).

Definition set_temp_label_block_map (m : gmap BlockIndex Block)
    (s : LabelTsdfIntegrator) : LabelTsdfIntegrator :=
  mkLabelTsdfIntegrator (label_tsdf_config_ s) (label_layer_ s)
    (temp_block_map_ s) m (highest_label_ s) (labels_count_map_ s)
    (pairwise_confidence_ s).

Definition set_highest_label (h : Z)
    (s : LabelTsdfIntegrator) : LabelTsdfIntegrator :=
  mkLabelTsdfIntegrator (label_tsdf_config_ s) (label_layer_ s)
    (temp_block_map_ s) (temp_label_block_map_ s) h (labels_count_map_ s)
    (pairwise_confidence_ s).

Definition set_pairwise_confidence (pc : SMap.t (SMap.t Z))
    (s : LabelTsdfIntegrator) : LabelTsdfIntegrator :=
  mkLabelTsdfIntegrator (label_tsdf_config_ s) (label_layer_ s)
    (temp_block_map_ s) (temp_label_block_map_ s) (highest_label_ s)
    (labels_count_map_ s) pc.

(** The state the constructor leaves: the maps of the integrator are
    default-constructed, the layer and the counter are the caller's. *)
Definition construct (cfg : LabelTsdfConfig) (layer : gmap BlockIndex Block)
    (highest : Z) : LabelTsdfIntegrator :=
  mkLabelTsdfIntegrator cfg layer ∅ ∅ highest [] [].

(** *** [getFreshLabel] *)
Definition getFreshLabel (s : LabelTsdfIntegrator)
    : outcome (Z * LabelTsdfIntegrator) :=
  if highest_label_ s <? uint_max then
    let fresh := wrap label_bits (highest_label_ s + 1) in
    Returns (fresh, set_highest_label fresh s)
  else Fatal.

(** *** [updateLabelVoxel]

    [confidence_exceeds c cap] is [c > cap] between a [LabelConfidence] and
    an [int]: a type narrower than [int] is promoted to [int], otherwise the
    [int] is converted to the unsigned type. *)
Definition confidence_exceeds (c cap : Z) : bool :=
  if confidence_bits <? 32 then cap <? c
  else wrap confidence_bits cap <? c.

Definition updateLabelVoxel (cfg : LabelTsdfConfig) (lbl confidence : Z)
    (label_voxel : LabelVoxel) (highest : Z) : LabelVoxel * Z :=
  if label label_voxel =? lbl then
    let c := wrap confidence_bits (label_confidence label_voxel + confidence) in
    let c :=
      if cap_confidence cfg then
        if confidence_exceeds c (confidence_cap_value cfg)
        then wrap confidence_bits (confidence_cap_value cfg)
        else c
      else c in
    (mkLabelVoxel (label label_voxel) c, highest)
  else if label_confidence label_voxel =? 0 then
    (mkLabelVoxel lbl confidence, if highest <? lbl then lbl else highest)
  else
    (mkLabelVoxel (label label_voxel)
       (wrap confidence_bits (label_confidence label_voxel - confidence)),
     highest).

(** *** Voxel storage: [allocateStorageAndGetLabelVoxelPtr]

    A pointer to a voxel names the map that holds its block (the staging map
    or the layer), the block and the linear index of the voxel.  The index
    functions of voxblox truncate into the block, so reading and writing at
    an index are total. *)
Record VoxelPtr : Type := mkVoxelPtr {
  staged : bool;
  block_idx : BlockIndex;
  voxel_idx : nat
}.

Definition getVoxelByLinearIndex (b : Block) (i : nat) : LabelVoxel :=
  default unobserved (voxels b !! i).

Definition setVoxelByLinearIndex (b : Block) (i : nat) (v : LabelVoxel)
    : Block :=
  mkBlock (<[i := v]> (voxels b)) (updated b).

Definition set_updated (b : Block) : Block := mkBlock (voxels b) true.

(** [std::make_shared<Block<LabelVoxel>>(voxels_per_side_, ...)] *)
Definition new_block : Block :=
  mkBlock (replicate (voxels_per_side_ * voxels_per_side_ * voxels_per_side_)%nat
             unobserved) false.

Definition block_at (p : VoxelPtr) (s : LabelTsdfIntegrator) : option Block :=
  if staged p then temp_label_block_map_ s !! block_idx p
  else label_layer_ s !! block_idx p.

Definition store_block (p : VoxelPtr) (b : Block) (s : LabelTsdfIntegrator)
    : LabelTsdfIntegrator :=
  if staged p
  then set_temp_label_block_map (<[block_idx p := b]> (temp_label_block_map_ s)) s
  else set_label_layer (<[block_idx p := b]> (label_layer_ s)) s.

(** [integrateVoxel] calls it with [*last_block == nullptr], so the layer is
    always consulted. *)
Definition allocateStorageAndGetLabelVoxelPtr (global_voxel_idx : VoxelIndex)
    (s : LabelTsdfIntegrator) : VoxelPtr * LabelTsdfIntegrator :=
  let idx := block_of_voxel global_voxel_idx in
  let local := local_of_voxel global_voxel_idx in
  match label_layer_ s !! idx with
  | Some b =>
      (mkVoxelPtr false idx local,
       set_label_layer (<[idx := set_updated b]> (label_layer_ s)) s)
  | None =>
      match temp_label_block_map_ s !! idx with
      | Some b =>
          (mkVoxelPtr true idx local,
           set_temp_label_block_map
             (<[idx := set_updated b]> (temp_label_block_map_ s)) s)
      | None =>
          (mkVoxelPtr true idx local,
           set_temp_label_block_map
             (<[idx := set_updated new_block]> (temp_label_block_map_ s)) s)
      end
  end.

(** [updateLabelVoxel] through a voxel pointer; a pointer into no block is
    dangling. *)
Definition updateLabelVoxelAt (lbl confidence : Z) (p : VoxelPtr)
    (s : LabelTsdfIntegrator) : outcome LabelTsdfIntegrator :=
  match block_at p s with
  | None => Undefined
  | Some b =>
      let '(v, h) :=
        updateLabelVoxel (label_tsdf_config_ s) lbl confidence
          (getVoxelByLinearIndex b (voxel_idx p)) (highest_label_ s) in
      Returns (set_highest_label h
                 (store_block p (setVoxelByLinearIndex b (voxel_idx p) v) s))
  end.

(** The label write of [integrateVoxel] for one voxel of the ray. *)
Definition integrateLabelVoxel (global_voxel_idx : VoxelIndex) (merged_label : Z)
    (s : LabelTsdfIntegrator) : outcome LabelTsdfIntegrator :=
  let '(p, s) := allocateStorageAndGetLabelVoxelPtr global_voxel_idx s in
  updateLabelVoxelAt merged_label 1 p s.

(** *** [updateLabelLayerWithStoredBlocks]

    [Layer::insertBlock] inserts into the block map of the layer, which
    keeps the block it already has at a coordinate. *)
Definition insertBlock (idx : BlockIndex) (b : Block)
    (layer : gmap BlockIndex Block) : gmap BlockIndex Block :=
  match layer !! idx with
  | Some _ => layer
  | None => <[idx := b]> layer
  end.

Definition updateLabelLayerWithStoredBlocks (s : LabelTsdfIntegrator)
    : LabelTsdfIntegrator :=
  let layer := map_fold insertBlock (label_layer_ s) (temp_label_block_map_ s) in
  set_temp_block_map ∅ (set_label_layer layer s).

(** *** [swapLabels] *)
Definition swapLabels_voxel (old_label new_label : Z) (v : LabelVoxel)
    : LabelVoxel :=
  if label v =? old_label then mkLabelVoxel new_label (label_confidence v)
  else v.

Definition swapLabels_block (old_label new_label : Z) (b : Block) : Block :=
  mkBlock (swapLabels_voxel old_label new_label <$> voxels b)
    (if existsb (fun v => label v =? old_label) (voxels b) then true
     else updated b).

Definition swapLabels (old_label new_label : Z) (s : LabelTsdfIntegrator)
    : LabelTsdfIntegrator :=
  set_label_layer (swapLabels_block old_label new_label <$> label_layer_ s) s.

(** *** [mergeLabels]

    The body of the [if]: the swap, then the erasure of the entry from the
    map under iteration. *)
Definition merge_pair (first second : Z) (s : LabelTsdfIntegrator)
    : LabelTsdfIntegrator :=
  let s := swapLabels first second s in
  match SMap.find first (pairwise_confidence_ s) with
  | Some pairs =>
      set_pairwise_confidence
        (SMap.assign first (SMap.erase second pairs) (pairwise_confidence_ s)) s
  | None => s
  end.

(** The inner loop from the iterator [confidence_pair_it] on.  Erasing the
    entry by its key invalidates the iterator that the loop then
    increments. *)
Fixpoint mergeLabels_pairs (first : Z) (entries : list (Z * Z))
    (s : LabelTsdfIntegrator) : outcome LabelTsdfIntegrator :=
  match entries with
  | [] => Returns s
  | (second, count) :: entries =>
      if pairwise_confidence_threshold (label_tsdf_config_ s) <? count then
        let s := merge_pair first second s in
        Undefined
      else mergeLabels_pairs first entries s
  end.

Fixpoint mergeLabels_maps (maps : list (Z * SMap.t Z))
    (s : LabelTsdfIntegrator) : outcome LabelTsdfIntegrator :=
  match maps with
  | [] => Returns s
  | (first, pairs) :: maps =>
      do s <- mergeLabels_pairs first pairs s;
      mergeLabels_maps maps s
  end.

Definition mergeLabels (s : LabelTsdfIntegrator) : outcome LabelTsdfIntegrator :=
  if enable_pairwise_confidence_merging (label_tsdf_config_ s)
  then mergeLabels_maps (pairwise_confidence_ s) s
  else Returns s.

(** *** [getLabelsList] *)
Definition getLabelsList (s : LabelTsdfIntegrator) : list Z :=
  fst <$> filter (fun kv => 0 < snd kv) (labels_count_map_ s).

(** *** The candidate scan

    The overlap table [candidates] maps a label to the segments it overlaps
    (segments are pointers, ordered as addresses) and their point counts.
    [merge_candidate_labels] is a [std::unordered_set]: a finite set, read
    out in some order without repetition. *)
Definition checkForSegmentLabelMergeCandidate (cfg : LabelTsdfConfig)
    (lbl label_points_count segment_points_count : Z)
    (merge_candidate_labels : gset Z) : gset Z :=
  if ratio_gt label_points_count segment_points_count
       (pairwise_confidence_ratio_threshold cfg)
  then {[lbl]} ∪ merge_candidate_labels
  else merge_candidate_labels.

Definition increaseLabelCountForSegment (cfg : LabelTsdfConfig)
    (segment lbl segment_points_count : Z)
    (candidates : SMap.t (SMap.t Z)) (merge_candidate_labels : gset Z)
    : SMap.t (SMap.t Z) * gset Z :=
  match SMap.find lbl candidates with
  | Some segments =>
      match SMap.find segment segments with
      | Some count =>
          let count := wrap size_t_bits (count + 1) in
          (SMap.assign lbl (SMap.assign segment count segments) candidates,
           if enable_pairwise_confidence_merging cfg
           then checkForSegmentLabelMergeCandidate cfg lbl
                  (int_of_size_t count) segment_points_count
                  merge_candidate_labels
           else merge_candidate_labels)
      | None =>
          (SMap.assign lbl (SMap.emplace segment 1 segments) candidates,
           merge_candidate_labels)
      end
  | None =>
      (SMap.emplace lbl (SMap.emplace segment 1 []) candidates,
       merge_candidate_labels)
  end.

(** The body of [increasePairwiseConfidenceCount] for one pair [(i, j)],
    once [label1 < label2]; the count is an [int], whose overflow is
    undefined. *)
Definition increasePairwiseConfidence_ordered (label1 label2 : Z)
    (pc : SMap.t (SMap.t Z)) : outcome (SMap.t (SMap.t Z)) :=
  match SMap.find label1 pc with
  | Some pairs =>
      match SMap.find label2 pairs with
      | Some confidence =>
          if confidence <? int_max
          then Returns (SMap.assign label1
                          (SMap.assign label2 (confidence + 1) pairs) pc)
          else Undefined
      | None =>
          Returns (SMap.assign label1 (SMap.emplace label2 1 pairs) pc)
      end
  | None => Returns (SMap.emplace label1 (SMap.emplace label2 1 []) pc)
  end.

Definition increasePairwiseConfidence_pair (label1 label2 : Z)
    (pc : SMap.t (SMap.t Z)) : outcome (SMap.t (SMap.t Z)) :=
  if label1 =? label2 then Returns pc
  else if label2 <? label1
  then increasePairwiseConfidence_ordered label2 label1 pc
  else increasePairwiseConfidence_ordered label1 label2 pc.

(** The loop over [j] for one [i], on the candidates after position [i]. *)
Fixpoint increasePairwiseConfidence_from (label1 : Z) (rest : list Z)
    (pc : SMap.t (SMap.t Z)) : outcome (SMap.t (SMap.t Z)) :=
  match rest with
  | [] => Returns pc
  | label2 :: rest =>
      do pc <- increasePairwiseConfidence_pair label1 label2 pc;
      increasePairwiseConfidence_from label1 rest pc
  end.

Fixpoint increasePairwiseConfidenceCount (merge_candidates : list Z)
    (pc : SMap.t (SMap.t Z)) : outcome (SMap.t (SMap.t Z)) :=
  match merge_candidates with
  | [] => Returns pc
  | label1 :: rest =>
      do pc <- increasePairwiseConfidence_from label1 rest pc;
      increasePairwiseConfidenceCount rest pc
  end.

(** The state of the scan: [candidate_label_exists], the overlap table and
    the merge candidates. *)
Definition scan_state : Type := bool * SMap.t (SMap.t Z) * gset Z.

Definition scan_point (cfg : LabelTsdfConfig) (layer : gmap BlockIndex Block)
    (segment : Z) (T_G_C : Transformation) (segment_points_count : Z)
    (acc : scan_state) (point_C : Point) : scan_state :=
  let '(candidate_label_exists, candidates, merge_candidate_labels) := acc in
  let point_G := transform T_G_C point_C in
  match layer !! block_of_point point_G with
  | Some block =>
      let voxel := getVoxelByLinearIndex block (voxel_of_point point_G) in
      if label voxel =? 0 then acc
      else
        let '(candidates, merge_candidate_labels) :=
          increaseLabelCountForSegment cfg segment (label voxel)
            segment_points_count candidates merge_candidate_labels in
        (true, candidates, merge_candidate_labels)
  | None => acc
  end.

(** The loop over the points of the segment. *)
Definition scan_segment (s : LabelTsdfIntegrator) (segment : Z)
    (seg : Segment) (candidates : SMap.t (SMap.t Z)) : scan_state :=
  foldl (scan_point (label_tsdf_config_ s) (label_layer_ s) segment
           (T_G_C_ seg)
           (int_of_size_t (Z.of_nat (length (points_C_ seg)))))
    (false, candidates, ∅) (points_C_ seg).

Definition computeSegmentLabelCandidates (segs : gmap Z Segment)
    (segment : Z) (candidates : SMap.t (SMap.t Z)) (s : LabelTsdfIntegrator)
    : outcome (SMap.t (SMap.t Z) * LabelTsdfIntegrator) :=
  match segs !! segment with
  | None => Undefined
  | Some seg =>
      let '(candidate_label_exists, candidates, merge_candidate_labels) :=
        scan_segment s segment seg candidates in
      do s <-
        (if enable_pairwise_confidence_merging (label_tsdf_config_ s) then
           do pc <- increasePairwiseConfidenceCount
                      (elements merge_candidate_labels)
                      (pairwise_confidence_ s);
           Returns (set_pairwise_confidence pc s)
         else Returns s);
      if candidate_label_exists then Returns (candidates, s)
      else
        do (fresh_label, s) <- getFreshLabel s;
        Returns (SMap.emplace fresh_label
                   (SMap.emplace segment
                      (Z.of_nat (length (points_C_ seg))) [])
                   candidates,
                 s)
  end.

(** *** The greedy resolver

    [getNextSegmentLabelPair]: the running maximum is [max_count] and, once
    a pair was seen, [(max_segment, max_label)]. *)
Definition visit_pair (labelled_segments : gset Z) (lbl : Z)
    (best : Z * option (Z * Z)) (entry : Z * Z) : Z * option (Z * Z) :=
  if (fst best <? snd entry) && bool_decide (fst entry ∉ labelled_segments)
  then (snd entry, Some (fst entry, lbl))
  else best.

Definition visit_label (labelled_segments : gset Z)
    (best : Z * option (Z * Z)) (entry : Z * SMap.t Z)
    : Z * option (Z * Z) :=
  foldl (visit_pair labelled_segments (fst entry)) best (snd entry).

Definition getNextSegmentLabelPair (candidates : SMap.t (SMap.t Z))
    (labelled_segments : gset Z) : option (Z * Z) :=
  let best := foldl (visit_label labelled_segments) (0, None) candidates in
  if fst best =? 0 then None else snd best.

(** [labels_.push_back(lbl)] once per point. *)
Definition push_labels (lbl : Z) (seg : Segment) : Segment :=
  mkSegment (points_C_ seg) (T_G_C_ seg) (colors_ seg)
    (labels_ seg ++ replicate (length (points_C_ seg)) lbl).

(** The [while] loop of [decideLabelPointClouds]. *)
Fixpoint claim_segments (fuel : nat) (segs : gmap Z Segment)
    (candidates : SMap.t (SMap.t Z)) (labelled_segments : gset Z)
    : outcome (gmap Z Segment * SMap.t (SMap.t Z) * gset Z) :=
  match getNextSegmentLabelPair candidates labelled_segments with
  | None => Returns (segs, candidates, labelled_segments)
  | Some (segment, lbl) =>
      match fuel with
      | O => OutOfFuel
      | S fuel =>
          match segs !! segment with
          | None => Undefined
          | Some seg =>
              claim_segments fuel (<[segment := push_labels lbl seg]> segs)
                (SMap.erase lbl candidates)
                ({[segment]} ∪ labelled_segments)
          end
      end
  end.

(** The [for] loop over [segments_to_integrate]. *)
Fixpoint label_unclaimed (segments_to_integrate : list Z)
    (segs : gmap Z Segment) (labelled_segments : gset Z)
    (s : LabelTsdfIntegrator)
    : outcome (gmap Z Segment * gset Z * LabelTsdfIntegrator) :=
  match segments_to_integrate with
  | [] => Returns (segs, labelled_segments, s)
  | segment :: rest =>
      if decide (segment ∈ labelled_segments)
      then label_unclaimed rest segs labelled_segments s
      else
        do (fresh, s) <- getFreshLabel s;
        match segs !! segment with
        | None => Undefined
        | Some seg =>
            label_unclaimed rest (<[segment := push_labels fresh seg]> segs)
              ({[segment]} ∪ labelled_segments) s
        end
  end.

(** Every turn of the [while] loop erases a label of the table, so the
    number of its labels bounds the turns. *)
Definition decideLabelPointClouds (segments_to_integrate : list Z)
    (candidates : SMap.t (SMap.t Z)) (segs : gmap Z Segment)
    (s : LabelTsdfIntegrator)
    : outcome (gmap Z Segment * SMap.t (SMap.t Z) * LabelTsdfIntegrator) :=
  do (segs, candidates, labelled_segments) <-
    claim_segments (length candidates) segs candidates ∅;
  do (segs, _, s) <-
    label_unclaimed segments_to_integrate segs labelled_segments s;
  Returns (segs, candidates, s).

(** *** Reading the ledger

    The entry of the pair [(a, b)] of the ledger, its count (0 when there
    is no entry), and the ledger whose entries all have the smaller label
    first. *)
Definition ledger_entry (pc : SMap.t (SMap.t Z)) (a b : Z) : option Z :=
  match SMap.find a pc with
  | Some pairs => SMap.find b pairs
  | None => None
  end.

Definition ledger_count (pc : SMap.t (SMap.t Z)) (a b : Z) : Z :=
  default 0 (ledger_entry pc a b).

Definition ledger_ordered (pc : SMap.t (SMap.t Z)) : Prop :=
  forall a b, is_Some (ledger_entry pc a b) -> a < b.

(** *** Reading a batch

    The segment pointers of the table point to segments. *)
Definition segments_valid (candidates : SMap.t (SMap.t Z))
    (segs : gmap Z Segment) : Prop :=
  forall lbl segments segment count,
    (lbl, segments) ∈ candidates -> (segment, count) ∈ segments ->
    is_Some (segs !! segment).

(** *** Reading the layer

    Every label of every block of a block map is at most [h]; the bound on
    the layer and on the staged blocks, which the fold-back installs into
    the layer. *)
Definition labels_bounded (m : gmap BlockIndex Block) (h : Z) : Prop :=
  forall idx b v, m !! idx = Some b -> v ∈ voxels b -> label v <= h.

Definition labels_issued (s : LabelTsdfIntegrator) : Prop :=
  labels_bounded (label_layer_ s) (highest_label_ s) /\
  labels_bounded (temp_label_block_map_ s) (highest_label_ s).

(** *** Reading the changes of the ledger

    [pc'] is [pc] with the count of every pair of [B] raised by one; the
    pairs of one label with the labels after it, and the pairs of a list of
    candidates, smaller label first. *)
Definition bumps (B : Z -> Z -> Prop) (pc pc' : SMap.t (SMap.t Z)) : Prop :=
  (forall x y, B x y -> ledger_entry pc' x y = Some (ledger_count pc x y + 1)) /\
  (forall x y, ~ B x y -> ledger_entry pc' x y = ledger_entry pc x y).

Definition paired_with (l : Z) (rest : list Z) (x y : Z) : Prop :=
  x < y /\ ((x = l /\ y ∈ rest) \/ (y = l /\ x ∈ rest)).

Definition paired (cs : list Z) (x y : Z) : Prop :=
  x < y /\ x ∈ cs /\ y ∈ cs.

(** *** Reading the greedy resolver

    The table records a positive overlap of label [l] with segment [p]; a
    pair that can be claimed; what the running maximum of
    [getNextSegmentLabelPair] stands for. *)
Definition overlaps (candidates : SMap.t (SMap.t Z)) (p l : Z) : Prop :=
  exists segments count,
    (l, segments) ∈ candidates /\ (p, count) ∈ segments /\ 0 < count.

Definition claimable (candidates : SMap.t (SMap.t Z)) (labelled : gset Z)
    (pair : Z * Z) : Prop :=
  overlaps candidates pair.1 pair.2 /\ pair.1 ∉ labelled.

Definition maximum_sound (candidates : SMap.t (SMap.t Z)) (labelled : gset Z)
    (best : Z * option (Z * Z)) : Prop :=
  0 <= best.1 /\
  forall pair, best.2 = Some pair -> claimable candidates labelled pair.

(** The segments of a batch during [decideLabelPointClouds]: a segment of
    the batch keeps its points; once it is claimed it carries one label on
    all of them, a label that [Q] admits for it, and no label before. *)
Definition batch_labelled (batch : list Z) (segs0 segs : gmap Z Segment)
    (labelled : gset Z) (Q : Z -> Z -> Prop) : Prop :=
  forall p, p ∈ batch ->
    exists seg0 seg,
      segs0 !! p = Some seg0 /\ segs !! p = Some seg /\
      points_C_ seg = points_C_ seg0 /\
      (p ∈ labelled ->
         exists l, labels_ seg = replicate (length (points_C_ seg)) l /\ Q p l) /\
      (p ∉ labelled -> labels_ seg = []).

(** The label of a segment is one of the table, or was minted above the
    counter [h0] and at most at the counter [h]. *)
Definition claimed_or_minted (candidates : SMap.t (SMap.t Z)) (h0 h : Z)
    (p l : Z) : Prop :=
  overlaps candidates p l \/ h0 < l <= h.

(** The overlap table with exactly the entries (segA, label1) = 5,
    (segA, label2) = 3 and (segB, label1) = 4. *)
Definition precedence_table (segA segB label1 label2 : Z)
    : SMap.t (SMap.t Z) :=
  SMap.emplace label2 (SMap.emplace segA 3 [])
    (SMap.emplace label1 (SMap.emplace segB 4 (SMap.emplace segA 5 [])) []).

(** *** Repeated writes

    [n] calls of [updateLabelVoxel] with one label and one increment on a
    voxel, each on the voxel and counter the call before has left. *)
Definition updateLabelVoxel_times (cfg : LabelTsdfConfig) (lbl confidence : Z)
    (n : nat) (vh : LabelVoxel * Z) : LabelVoxel * Z :=
  Nat.iter n (fun vh => updateLabelVoxel cfg lbl confidence vh.1 vh.2) vh.

(** The label writes of [integrateVoxel] along the voxels of its ray that
    it does not skip: one [updateLabelVoxel] with the merged label and the
    increment 1 per voxel. *)
Fixpoint integrateLabelVoxels (ray : list VoxelIndex) (merged_label : Z)
    (s : LabelTsdfIntegrator) : outcome LabelTsdfIntegrator :=
  match ray with
  | [] => Returns s
  | global_voxel_idx :: ray =>
      do s <- integrateLabelVoxel global_voxel_idx merged_label s;
      integrateLabelVoxels ray merged_label s
  end.

(** The block that holds a coordinate for a reader of the integrator: the
    block of the layer, else the staged block. *)
Definition label_block (s : LabelTsdfIntegrator) (idx : BlockIndex)
    : option Block :=
  match label_layer_ s !! idx with
  | Some b => Some b
  | None => temp_label_block_map_ s !! idx
  end.


(** *** Reading the storage

    The voxel that a write finds at a coordinate and index: the voxel of the
    block that holds the coordinate, an unobserved voxel where no block does
    yet.  [put_block] stores a block where [allocateStorageAndGetLabelVoxelPtr]
    finds the coordinate: in the layer when the layer holds it, else in the
    staging map.  [written] is the state a label write leaves. *)
Definition label_voxel_at (s : LabelTsdfIntegrator) (idx : BlockIndex)
    (i : nat) : LabelVoxel :=
  getVoxelByLinearIndex (default new_block (label_block s idx)) i.

Definition put_block (idx : BlockIndex) (b : Block) (s : LabelTsdfIntegrator)
    : LabelTsdfIntegrator :=
  match label_layer_ s !! idx with
  | Some _ => set_label_layer (<[idx := b]> (label_layer_ s)) s
  | None =>
      set_temp_label_block_map (<[idx := b]> (temp_label_block_map_ s)) s
  end.

Definition written (idx : BlockIndex) (i : nat) (lbl : Z)
    (s : LabelTsdfIntegrator) : LabelTsdfIntegrator :=
  let b := set_updated (default new_block (label_block s idx)) in
  let r := updateLabelVoxel (label_tsdf_config_ s) lbl 1
             (getVoxelByLinearIndex b i) (highest_label_ s) in
  set_highest_label r.2 (put_block idx (setVoxelByLinearIndex b i r.1) s).


(** *** Counting voxels

    The number of voxels of a block that hold a label. *)
Definition count_label (lbl : Z) (b : Block) : nat :=
  length (filter (fun v => label v = lbl) (voxels b)).


(** *** Reading a scan

    The label that the scan finds for a point of a segment: the label of the
    voxel of the layer the point falls into, 0 where the block is not
    allocated; the number of points of a list for which it finds a label. *)
Definition point_label (layer : gmap BlockIndex Block) (T_G_C : Transformation)
    (point_C : Point) : Z :=
  match layer !! block_of_point (transform T_G_C point_C) with
  | Some block =>
      label (getVoxelByLinearIndex block
               (voxel_of_point (transform T_G_C point_C)))
  | None => 0
  end.

Definition hits (layer : gmap BlockIndex Block) (T_G_C : Transformation)
    (points : list Point) (lbl : Z) : nat :=
  length (filter (fun p => point_label layer T_G_C p = lbl) points).


(** *** Reading the overlap table

    The entries [(label, segment, count)] of the table in the order in which
    the two loops of [getNextSegmentLabelPair] visit them. *)
Definition table_entries (candidates : SMap.t (SMap.t Z))
    : list (Z * Z * Z) :=
  flat_map (fun e => map (fun entry => (fst e, fst entry, snd entry)) (snd e))
    candidates.


(** What the running maximum stands for after the entries [visited]. *)
Definition maximum_of (labelled : gset Z) (visited : list (Z * Z * Z))
    (best : Z * option (Z * Z)) : Prop :=
  0 <= best.1 /\
  (best.2 = None -> best.1 = 0) /\
  (forall l p c, (l, p, c) ∈ visited -> p ∉ labelled -> c <= best.1) /\
  (forall p l, best.2 = Some (p, l) ->
     0 < best.1 /\ (p ∉ labelled) /\
     exists pre post,
       visited = pre ++ ((l, p, best.1) :: post) /\
       forall l' p' c', (l', p', c') ∈ pre -> p' ∉ labelled -> c' < best.1).


(** The segments [labelled] of a batch got each one label: a segment [p]
    of [labelled] is its segment of [segs0] with the label [f p] pushed once
    per point; every other segment is as in [segs0]; no two segments of
    [labelled] share a label. *)
Definition assigned (segs0 segs : gmap Z Segment) (labelled : gset Z)
    (f : Z -> Z) : Prop :=
  (forall p, p ∈ labelled ->
     exists seg,
       segs0 !! p = Some seg /\ segs !! p = Some (push_labels (f p) seg)) /\
  (forall p, p ∉ labelled -> segs !! p = segs0 !! p) /\
  (forall p q, p ∈ labelled -> q ∈ labelled -> f p = f q -> p = q).


(** *** [integrateVoxels]

    The voxel maps are hash maps, read here as the lists of their entries in
    iteration order; [integrator_threads] is a field of the configuration of
    the base integrator and [integrateVoxel] works on the TSDF layer of the
    base integrator as well, so both are taken as arguments.  The index [i]
    and [thread_idx] are of type [size_t]; a remainder by 0 is undefined. *)
Fixpoint integrateVoxels_from {Entry S : Type}
    (integrateVoxel : Entry -> S -> outcome S)
    (integrator_threads thread_idx i : Z) (entries : list Entry) (s : S)
    : outcome S :=
  match entries with
  | [] => Returns s
  | kv :: entries =>
      if integrator_threads =? 0 then Undefined
      else
        do s <-
          (if wrap size_t_bits (i + thread_idx + 1) mod integrator_threads =? 0
           then integrateVoxel kv s
           else Returns s);
        integrateVoxels_from integrateVoxel integrator_threads thread_idx
          (i + 1) entries s
  end.

Definition integrateVoxels {Entry S : Type}
    (integrateVoxel : bool -> list Entry -> Entry -> S -> outcome S)
    (integrator_threads : Z) (clearing_ray : bool)
    (voxel_map clear_map : list Entry) (thread_idx : Z) (s : S) : outcome S :=
  integrateVoxels_from (integrateVoxel clearing_ray voxel_map)
    integrator_threads thread_idx 0
    (if clearing_ray then clear_map else voxel_map) s.

(** Calling [integrateVoxel] on the entries of a list, one after another;
    the entries of a voxel map, from position [i] on, whose position [j]
    has [j + thread_idx + 1] divisible by the number of threads. *)
Fixpoint integrate_each {Entry S : Type}
    (integrateVoxel : Entry -> S -> outcome S) (entries : list Entry) (s : S)
    : outcome S :=
  match entries with
  | [] => Returns s
  | kv :: entries =>
      do s <- integrateVoxel kv s; integrate_each integrateVoxel entries s
  end.

Fixpoint thread_share {Entry : Type} (integrator_threads thread_idx i : Z)
    (entries : list Entry) : list Entry :=
  match entries with
  | [] => []
  | kv :: entries =>
      (if (i + thread_idx + 1) mod integrator_threads =? 0 then [kv] else [])
      ++ thread_share integrator_threads thread_idx (i + 1) entries
  end.


(** *** Runs of the integrator

    The operations that reach the state of an integrator; the tables and
    segments of a batch are the caller's and come with the operation. *)
Inductive operation : Type :=
| OpIntegrateLabelVoxel (global_voxel_idx : VoxelIndex) (merged_label : Z)
| OpUpdateLabelVoxel (lbl confidence : Z) (label_voxel : VoxelPtr)
| OpUpdateLabelLayerWithStoredBlocks
| OpSwapLabels (old_label new_label : Z)
| OpMergeLabels
| OpGetFreshLabel
| OpComputeSegmentLabelCandidates (segs : gmap Z Segment) (segment : Z)
    (candidates : SMap.t (SMap.t Z))
| OpDecideLabelPointClouds (segments_to_integrate : list Z)
    (candidates : SMap.t (SMap.t Z)) (segs : gmap Z Segment).

Definition step (op : operation) (s : LabelTsdfIntegrator)
    : outcome LabelTsdfIntegrator :=
  match op with
  | OpIntegrateLabelVoxel v l => integrateLabelVoxel v l s
  | OpUpdateLabelVoxel l c p => updateLabelVoxelAt l c p s
  | OpUpdateLabelLayerWithStoredBlocks =>
      Returns (updateLabelLayerWithStoredBlocks s)
  | OpSwapLabels o n => Returns (swapLabels o n s)
  | OpMergeLabels => mergeLabels s
  | OpGetFreshLabel => do r <- getFreshLabel s; Returns (snd r)
  | OpComputeSegmentLabelCandidates segs segment candidates =>
      do r <- computeSegmentLabelCandidates segs segment candidates s;
      Returns (snd r)
  | OpDecideLabelPointClouds segments candidates segs =>
      do r <- decideLabelPointClouds segments candidates segs s;
      Returns (snd r)
  end.

Fixpoint run (ops : list operation) (s : LabelTsdfIntegrator)
    : outcome LabelTsdfIntegrator :=
  match ops with
  | [] => Returns s
  | op :: ops => do s <- step op s; run ops s
  end.

(** A swap whose new label is at most [h]; any other operation. *)
Definition swaps_within (h : Z) (op : operation) : Prop :=
  match op with
  | OpSwapLabels _ new_label => new_label <= h
  | _ => True
  end.

End Integrator.

(** ** A concrete platform and concrete inputs

    Labels are 32 bits wide and confidences 16; a point and a voxel index name
    their block and their voxel directly; a threshold is a fraction
    [(p, q)], and [n / d > p / q] is decided on integers. *)

Definition grid_platform : Platform := {|
  label_bits := 32;
  confidence_bits := 16;
  label_bits_min := ltac:(discriminate);
  confidence_bits_min := ltac:(discriminate);
  Point := BlockIndex * nat;
  Transformation := unit;
  Color := unit;
  Float := Z * Z;
  TsdfBlock := unit;
  VoxelIndex := BlockIndex * nat;
  transform := fun _ p => p;
  block_of_point := fst;
  voxel_of_point := snd;
  block_of_voxel := fst;
  local_of_voxel := snd;
  voxels_per_side_ := 1;
  ratio_gt := fun n d t => fst t * d <? n * snd t
|}.

(** The same platform with labels of 16 bits. *)
Definition narrow_platform : Platform := {|
  label_bits := 16;
  confidence_bits := 16;
  label_bits_min := ltac:(discriminate);
  confidence_bits_min := ltac:(discriminate);
  Point := BlockIndex * nat;
  Transformation := unit;
  Color := unit;
  Float := Z * Z;
  TsdfBlock := unit;
  VoxelIndex := BlockIndex * nat;
  transform := fun _ p => p;
  block_of_point := fst;
  voxel_of_point := snd;
  block_of_voxel := fst;
  local_of_voxel := snd;
  voxels_per_side_ := 1;
  ratio_gt := fun n d t => fst t * d <? n * snd t
|}.

Module Examples.

#[local] Existing Instance grid_platform.

(** The default configuration of the source, the ratio threshold 0.05 as
    1/20, with pairwise merging enabled. *)
Definition merging_config : LabelTsdfConfig :=
  mkLabelTsdfConfig true (1, 20) 2 false 10.

Definition default_config : LabelTsdfConfig :=
  mkLabelTsdfConfig false (1, 20) 2 false 10.

(** Capping enabled with the cap value 1. *)
Definition cap_one_config : LabelTsdfConfig :=
  mkLabelTsdfConfig false (1, 20) 2 true 1.

Definition origin_block : BlockIndex := (0, 0, 0).
Definition next_block : BlockIndex := (1, 0, 0).

(** A layer of one block whose voxel carries label 7. *)
Definition one_block_layer : gmap BlockIndex Block :=
  {[ origin_block := mkBlock [mkLabelVoxel 7 1] false ]}.

(** A segment of four points, one of which falls into the labelled voxel;
    the other three fall into a block that is not allocated. *)
Definition four_points : Segment :=
  mkSegment [(origin_block, 0%nat); (next_block, 0%nat);
             (next_block, 0%nat); (next_block, 0%nat)]
    tt [tt; tt; tt; tt] [].

Definition scanning_integrator : LabelTsdfIntegrator :=
  construct merging_config one_block_layer 7.

(** An integrator with one staged block. *)
Definition staging_integrator : LabelTsdfIntegrator :=
  mkLabelTsdfIntegrator default_config one_block_layer ∅
    {[ next_block := new_block ]} 7 [] [].

(** An integrator whose ledger holds the pair (1, 2) with count 3, above
    the threshold 2; label 1 is in the layer. *)
Definition merging_integrator : LabelTsdfIntegrator :=
  mkLabelTsdfIntegrator merging_config
    {[ origin_block := mkBlock [mkLabelVoxel 1 4] false ]} ∅ ∅ 7 []
    [(1, [(2, 3)])].

(** Two segments of a batch, at the addresses 100 and 200. *)
Definition two_points : Segment :=
  mkSegment [(origin_block, 0%nat); (next_block, 0%nat)] tt [tt; tt] [].

Definition batch_segments : gmap Z Segment :=
  {[ 100 := four_points; 200 := two_points ]}.

(** An overlap table of the batch: label 10 overlaps both segments, label
    11 the first. *)
Definition batch_table : SMap.t (SMap.t Z) :=
  [(10, [(100, 5); (200, 4)]); (11, [(100, 3)])].

(** A layer of two blocks whose voxels carry the labels 7 and 8, and a
    segment with two points in each. *)
Definition two_label_layer : gmap BlockIndex Block :=
  {[ origin_block := mkBlock [mkLabelVoxel 7 1] false;
     next_block := mkBlock [mkLabelVoxel 8 1] false ]}.

Definition overlapping_segment : Segment :=
  mkSegment [(origin_block, 0%nat); (next_block, 0%nat);
             (origin_block, 0%nat); (next_block, 0%nat)]
    tt [tt; tt; tt; tt] [].

Definition overlapping_integrator : LabelTsdfIntegrator :=
  construct merging_config two_label_layer 8.

(** A segment of four points: one in the voxel of label 7, two in the voxel
    of label 8, one in a block that is not allocated. *)
Definition uneven_segment : Segment :=
  mkSegment [(origin_block, 0%nat); (next_block, 0%nat);
             (next_block, 0%nat); ((2, 0, 0), 0%nat)]
    tt [tt; tt; tt; tt] [].

(** A run: a label write into a block that is not allocated, the fold-back,
    a swap and a minting. *)
Definition short_run : list operation :=
  [OpIntegrateLabelVoxel (next_block, 0%nat) 9;
   OpUpdateLabelLayerWithStoredBlocks;
   OpSwapLabels 9 7;
   OpGetFreshLabel].

End Examples.

(** Inputs on the platform with labels of 16 bits. *)
Module NarrowExamples.

#[local] Existing Instance narrow_platform.


End NarrowExamples.

(** Further concrete inputs. *)
Module FurtherExamples.

#[local] Existing Instance grid_platform.

Import Examples.

(** A segment whose two points fall into a block that is not allocated. *)
Definition unseen_segment : Segment :=
  mkSegment [(next_block, 0%nat); (next_block, 0%nat)] tt [tt; tt] [].

(** An integrator whose counter is above the labels of [batch_table]. *)
Definition resolving_integrator : LabelTsdfIntegrator :=
  construct default_config one_block_layer 11.

(** A voxel at the confidence maximum of 16 bits. *)
Definition saturated_voxel : LabelVoxel := mkLabelVoxel 7 65535.

(** A voxel of a block that is not allocated. *)
Definition unseen_voxel : VoxelIndex := (next_block, 0%nat).

(** A ray through a block that is not allocated and a block of the layer. *)
Definition two_voxel_ray : list VoxelIndex :=
  [(next_block, 0%nat); (origin_block, 0%nat)].

(** A ledger with the pair (7, 8) at count 3. *)
Definition small_ledger : SMap.t (SMap.t Z) := [(7, [(8, 3)])].

(** An [integrateVoxel] that records the keys it is called on. *)
Definition record_entry (clearing_ray : bool) (voxel_map : list Z) (kv : Z)
    (visited : list Z) : outcome (list Z) :=
  Returns (visited ++ [kv]).

End FurtherExamples.


(** * Properties *)

(** ** Lemmas on ordered maps *)

Module SMapFacts.
Import SMap.

Section Facts.

Context {V : Type}.
Implicit Types (m : t V) (k : Z) (v : V).

Lemma find_assign k k' v m :
  find k' (assign k v m) =
  if k' =? k then (fun _ => v) <$> find k m else find k' m.
Proof.
  induction m as [|[j w] m IH]; simpl.
  - by destruct (k' =? k).
  - destruct (Z.eqb_spec j k) as [->|Hjk]; simpl.
    + destruct (Z.eqb_spec k k') as [->|Hkk'].
      * by rewrite Z.eqb_refl.
      * destruct (Z.eqb_spec k' k); [congruence | done].
    + destruct (Z.eqb_spec j k') as [->|Hjk'].
      * destruct (Z.eqb_spec k' k); [congruence | done].
      * apply IH.
Qed.

Lemma find_place k k' v m :
  find k m = None ->
  find k' (place k v m) = if k' =? k then Some v else find k' m.
Proof.
  induction m as [|[j w] m IH]; simpl; intros Hk.
  - rewrite (Z.eqb_sym k k'). by destruct (k' =? k).
  - destruct (Z.eqb_spec j k) as [->|Hjk]; [done|].
    destruct (k <? j); simpl.
    + rewrite (Z.eqb_sym k k').
      destruct (Z.eqb_spec k' k) as [->|Hkk']; [done|].
      done.
    + destruct (Z.eqb_spec j k') as [->|Hjk'].
      * destruct (Z.eqb_spec k' k); [congruence | done].
      * by apply IH.
Qed.

Lemma find_emplace k k' v m :
  find k' (emplace k v m) =
  if k' =? k then Some (default v (find k m)) else find k' m.
Proof.
  unfold emplace. destruct (find k m) as [w|] eqn:Hk; simpl.
  - destruct (Z.eqb_spec k' k) as [->|]; [done | done].
  - by apply find_place.
Qed.

Lemma find_erase k k' m :
  find k' (erase k m) = if k' =? k then None else find k' m.
Proof.
  induction m as [|[j w] m IH]; simpl.
  - by destruct (k' =? k).
  - destruct (Z.eqb_spec j k) as [->|Hjk]; simpl.
    + rewrite IH. rewrite (Z.eqb_sym k k'). by destruct (k' =? k).
    + rewrite IH. destruct (Z.eqb_spec j k') as [->|Hjk']; [|done].
      destruct (Z.eqb_spec k' k); [congruence | done].
Qed.

Lemma length_erase_le k m : (length (erase k m) <= length m)%nat.
Proof.
  induction m as [|[j w] m IH]; simpl; [lia|].
  destruct (j =? k); simpl; lia.
Qed.

Lemma length_erase_lt k v m :
  (k, v) ∈ m -> (length (erase k m) < length m)%nat.
Proof.
  induction m as [|[j w] m IH]; simpl; intros Hin.
  - by apply elem_of_nil in Hin.
  - apply elem_of_cons in Hin as [Heq|Hin].
    + injection Heq as <- <-. rewrite Z.eqb_refl.
      pose proof (length_erase_le k m). lia.
    + specialize (IH Hin). destruct (j =? k); simpl; lia.
Qed.

Lemma elem_of_erase k j v m : (j, v) ∈ erase k m -> (j, v) ∈ m.
Proof.
  induction m as [|[i w] m IH]; simpl; [done|].
  destruct (i =? k).
  - intros H. apply elem_of_cons. right. by apply IH.
  - intros H. apply elem_of_cons in H as [H|H].
    + rewrite H. apply elem_of_cons. by left.
    + apply elem_of_cons. right. by apply IH.
Qed.

End Facts.

End SMapFacts.

(** ** The voxel update rule and label minting *)

Section VoxelProperties.

Context {P : Platform}.

Lemma confidence_range : 256 <= 2 ^ confidence_bits.
Proof.
  pose proof confidence_bits_min. change 256 with (2 ^ 8).
  apply Z.pow_le_mono_r; lia.
Qed.

Lemma label_range : 256 <= 2 ^ label_bits.
Proof.
  pose proof label_bits_min. change 256 with (2 ^ 8).
  apply Z.pow_le_mono_r; lia.
Qed.

Lemma wrap_small bits z : 0 <= z < 2 ^ bits -> wrap bits z = z.
Proof. apply Z.mod_small. Qed.

(** A cap of at least 2 is not exceeded by a confidence of at most 2. *)
Lemma confidence_within_cap c cap :
  0 <= c <= 2 -> 2 <= cap <= int_max -> confidence_exceeds c cap = false.
Proof.
  intros Hc Hcap. unfold confidence_exceeds.
  destruct (Z.ltb_spec confidence_bits 32) as [Hb|Hb].
  - apply Z.ltb_ge. lia.
  - rewrite wrap_small; [apply Z.ltb_ge; lia|].
    split; [lia|]. unfold int_max in Hcap.
    assert (2 ^ 32 <= 2 ^ confidence_bits) by (apply Z.pow_le_mono_r; lia).
    lia.
Qed.

Lemma updateLabelVoxel_same cfg L c v h :
  label v = L ->
  updateLabelVoxel cfg L c v h =
  (mkLabelVoxel L
     (let c' := wrap confidence_bits (label_confidence v + c) in
      if cap_confidence cfg && confidence_exceeds c' (confidence_cap_value cfg)
      then wrap confidence_bits (confidence_cap_value cfg) else c'),
   h).
Proof.
  intros <-. unfold updateLabelVoxel. rewrite Z.eqb_refl. simpl.
  destruct (cap_confidence cfg); simpl; [|done].
  by destruct (confidence_exceeds _ _).
Qed.

Lemma updateLabelVoxel_flip cfg L c v h :
  label v <> L -> label_confidence v = 0 ->
  updateLabelVoxel cfg L c v h = (mkLabelVoxel L c, Z.max h L).
Proof.
  intros Hne Hc. unfold updateLabelVoxel.
  destruct (Z.eqb_spec (label v) L); [done|].
  rewrite Hc. simpl. f_equal.
  destruct (Z.ltb_spec h L); lia.
Qed.

Lemma updateLabelVoxel_contest cfg L c v h :
  label v <> L -> label_confidence v <> 0 ->
  updateLabelVoxel cfg L c v h =
  (mkLabelVoxel (label v) (wrap confidence_bits (label_confidence v - c)), h).
Proof.
  intros Hne Hc. unfold updateLabelVoxel.
  destruct (Z.eqb_spec (label v) L); [done|].
  by destruct (Z.eqb_spec (label_confidence v) 0).
Qed.

(** The counter never decreases, and a voxel within the counter stays
    within it. *)
Lemma updateLabelVoxel_bounded cfg L c v h :
  label v <= h ->
  label (updateLabelVoxel cfg L c v h).1 <= (updateLabelVoxel cfg L c v h).2 /\
  h <= (updateLabelVoxel cfg L c v h).2.
Proof.
  intros Hv.
  destruct (Z.eq_dec (label v) L) as [He|Hne].
  - rewrite updateLabelVoxel_same by done. simpl. lia.
  - destruct (Z.eq_dec (label_confidence v) 0) as [Hc|Hc].
    + rewrite updateLabelVoxel_flip by done. simpl. lia.
    + rewrite updateLabelVoxel_contest by done. simpl. lia.
Qed.

Lemma labels_bounded_mono m h h' :
  h <= h' -> labels_bounded m h -> labels_bounded m h'.
Proof. intros Hle Hm idx b v Hb Hv. specialize (Hm idx b v Hb Hv). lia. Qed.

Lemma labels_bounded_insert m idx b h :
  labels_bounded m h -> (forall v, v ∈ voxels b -> label v <= h) ->
  labels_bounded (<[idx := b]> m) h.
Proof.
  intros Hm Hb idx' b' v Hl Hv.
  destruct (decide (idx = idx')) as [->|Hne].
  - rewrite lookup_insert_eq in Hl. injection Hl as <-. by apply Hb.
  - rewrite lookup_insert_ne in Hl by done. by eapply Hm.
Qed.

Lemma elem_of_set_voxel (b : Block) i v w :
  w ∈ voxels (setVoxelByLinearIndex b i v) -> w = v \/ w ∈ voxels b.
Proof.
  simpl. intros Hw. apply list_elem_of_lookup in Hw as [j Hj].
  destruct (decide (i = j)) as [->|Hne].
  - destruct (decide (j < length (voxels b))%nat) as [Hlt|Hge].
    + rewrite list_lookup_insert_eq in Hj by done. left. congruence.
    + rewrite list_insert_ge in Hj by lia. right.
      apply list_elem_of_lookup. eauto.
  - rewrite list_lookup_insert_ne in Hj by done. right.
    apply list_elem_of_lookup. eauto.
Qed.

Lemma getVoxelByLinearIndex_bounded (b : Block) i h :
  0 <= h -> (forall v, v ∈ voxels b -> label v <= h) ->
  label (getVoxelByLinearIndex b i) <= h.
Proof.
  intros Hh Hb. unfold getVoxelByLinearIndex.
  destruct (voxels b !! i) as [v|] eqn:Hv; simpl; [|done].
  apply Hb. apply list_elem_of_lookup. eauto.
Qed.

Lemma updateLabelVoxelAt_issued L c p s s' :
  0 <= highest_label_ s -> labels_issued s ->
  updateLabelVoxelAt L c p s = Returns s' ->
  labels_issued s' /\ highest_label_ s <= highest_label_ s'.
Proof.
  intros Hh [Hlayer Htemp]. unfold updateLabelVoxelAt.
  destruct (block_at p s) as [b|] eqn:Hb; [|done].
  set (v := getVoxelByLinearIndex b (voxel_idx p)).
  assert (Hbv : forall w, w ∈ voxels b -> label w <= highest_label_ s).
  { intros w Hw. unfold block_at in Hb.
    destruct (staged p); [by eapply Htemp | by eapply Hlayer]. }
  assert (Hv : label v <= highest_label_ s)
    by (by apply getVoxelByLinearIndex_bounded).
  pose proof (updateLabelVoxel_bounded (label_tsdf_config_ s) L c v
                (highest_label_ s) Hv) as [Hnew Hmono].
  destruct (updateLabelVoxel _ L c v _) as [v' h'] eqn:Hupd. simpl in *.
  intros [= <-]. split; [|by destruct (staged p)].
  assert (Hb' : forall w,
    w ∈ voxels (setVoxelByLinearIndex b (voxel_idx p) v') -> label w <= h').
  { intros w Hw. apply elem_of_set_voxel in Hw as [->|Hw]; [done|].
    specialize (Hbv w Hw). lia. }
  unfold labels_issued, store_block. destruct (staged p); simpl; split.
  - by eapply labels_bounded_mono.
  - apply labels_bounded_insert; [by eapply labels_bounded_mono | done].
  - apply labels_bounded_insert; [by eapply labels_bounded_mono | done].
  - by eapply labels_bounded_mono.
Qed.

End VoxelProperties.

Section VoxelClaims.

Context {P : Platform}.

(** C5, amended.  With the confidence cap disabled, or enabled with a cap
    value of at least 2, and for distinct labels [A] and [B]: starting from
    an unobserved voxel, writing [A] once and then [B] three times, each
    with increment 1, gives [(A, 1)], then [(A, 0)], then [(B, 1)], then
    [(B, 2)]. *)
Theorem contest_flip (cfg : LabelTsdfConfig) (A B highest : Z) :
  A <> B ->
  cap_confidence cfg = false \/ 2 <= confidence_cap_value cfg <= int_max ->
  let w1 := updateLabelVoxel cfg A 1 unobserved highest in
  let w2 := updateLabelVoxel cfg B 1 w1.1 w1.2 in
  let w3 := updateLabelVoxel cfg B 1 w2.1 w2.2 in
  let w4 := updateLabelVoxel cfg B 1 w3.1 w3.2 in
  w1.1 = mkLabelVoxel A 1 /\ w2.1 = mkLabelVoxel A 0 /\
  w3.1 = mkLabelVoxel B 1 /\ w4.1 = mkLabelVoxel B 2.
Proof.
  intros Hne Hcap. pose proof confidence_range as Hr.
  assert (Hnocap : forall c, 0 <= c <= 2 ->
    (if cap_confidence cfg && confidence_exceeds c (confidence_cap_value cfg)
     then wrap confidence_bits (confidence_cap_value cfg) else c) = c).
  { intros c Hc. destruct Hcap as [->|Hcap]; [done|].
    rewrite confidence_within_cap by done. by rewrite andb_false_r. }
  assert (H1 : (updateLabelVoxel cfg A 1 unobserved highest).1
               = mkLabelVoxel A 1).
  { destruct (Z.eq_dec 0 A) as [<-|H0].
    - rewrite updateLabelVoxel_same by done. simpl.
      rewrite wrap_small by lia. by rewrite Hnocap by lia.
    - by rewrite updateLabelVoxel_flip. }
  intros w1 w2 w3 w4.
  assert (E1 : w1.1 = mkLabelVoxel A 1) by exact H1.
  assert (E2 : w2.1 = mkLabelVoxel A 0).
  { subst w2. rewrite E1. rewrite updateLabelVoxel_contest by done. simpl.
    by rewrite wrap_small by lia. }
  assert (E3 : w3.1 = mkLabelVoxel B 1).
  { subst w3. rewrite E2. by rewrite updateLabelVoxel_flip. }
  assert (E4 : w4.1 = mkLabelVoxel B 2).
  { subst w4. rewrite E3. rewrite updateLabelVoxel_same by done. simpl.
    rewrite wrap_small by lia. by rewrite Hnocap by lia. }
  done.
Qed.

(** C7, amended.  A call of [updateLabelVoxel] with label [L] and increment
    [c] on a voxel of confidence 0 (an unobserved voxel is one): if the
    voxel's label differs from [L], the voxel becomes [(L, c)] and the
    counter becomes the larger of itself and [L]; if the voxel's label is
    already [L], the voxel keeps [L], its confidence becomes [c], or the cap
    when capping is enabled and [c] exceeds it, and the counter is left as
    it is.  A voxel write that returns keeps every label of the layer and of
    the staged blocks at most the counter, and never lowers the counter. *)
Theorem updateLabelVoxel_open_voxel (cfg : LabelTsdfConfig) (L c : Z)
    (v : LabelVoxel) (highest : Z) :
  label_confidence v = 0 -> 0 <= c <= confidence_max ->
  (label v <> L ->
     updateLabelVoxel cfg L c v highest = (mkLabelVoxel L c, Z.max highest L)) /\
  (label v = L ->
     updateLabelVoxel cfg L c v highest =
     (mkLabelVoxel L
        (if cap_confidence cfg && confidence_exceeds c (confidence_cap_value cfg)
         then wrap confidence_bits (confidence_cap_value cfg) else c),
      highest)) /\
  (forall s p s',
     0 <= highest_label_ s ->
     labels_issued s -> updateLabelVoxelAt L c p s = Returns s' ->
     labels_issued s' /\ highest_label_ s <= highest_label_ s').
Proof.
  intros Hc Hrange. split; [|split].
  - intros Hne. by apply updateLabelVoxel_flip.
  - intros He. rewrite updateLabelVoxel_same by done. simpl. rewrite Hc.
    rewrite Z.add_0_l, wrap_small; [done|].
    unfold confidence_max in Hrange. lia.
  - intros s p s' Hh Hs Hupd. by eapply updateLabelVoxelAt_issued.
Qed.


(** With a label type narrower than [unsigned int] the check never fails:
    at the maximum of the label type the counter wraps to 0. *)
Lemma getFreshLabel_narrow_label (s : LabelTsdfIntegrator) :
  label_bits < 32 -> highest_label_ s = label_max ->
  getFreshLabel s = Returns (0, set_highest_label 0 s).
Proof.
  intros Hbits Hh. unfold getFreshLabel, uint_max. rewrite Hh.
  pose proof label_bits_min.
  assert (2 ^ label_bits < 2 ^ 32) by (apply Z.pow_lt_mono_r; lia).
  unfold label_max.
  destruct (Z.ltb_spec (2 ^ label_bits - 1) (2 ^ 32 - 1)); [|lia].
  unfold wrap. replace (2 ^ label_bits - 1 + 1) with (2 ^ label_bits) by lia.
  rewrite Z.mod_same by lia. done.
Qed.

End VoxelClaims.

(** ** The fold-back of staged blocks *)

Section FoldBack.

Context {P : Platform}.

(** The loop installs the staged blocks at the coordinates the layer does
    not hold yet. *)
Lemma fold_back_layer (layer staging : gmap BlockIndex Block) :
  map_fold insertBlock layer staging = layer ∪ staging.
Proof.
  apply (map_fold_weak_ind (fun r m => r = layer ∪ m)).
  - by rewrite (right_id_L ∅ (∪)).
  - intros idx b m r Hm ->. unfold insertBlock.
    rewrite lookup_union_l by done.
    destruct (layer !! idx) as [b'|] eqn:Hl.
    + apply map_eq. intros j. rewrite !lookup_union.
      destruct (decide (idx = j)) as [<-|Hne].
      * by rewrite Hl, Hm, lookup_insert_eq.
      * by rewrite lookup_insert_ne.
    + by apply insert_union_r.
Qed.

(** What the fold-back clears is the staging map of the TSDF layer; the
    staging map of the label layer is left as it was. *)
Lemma fold_back_keeps_staging (s : LabelTsdfIntegrator) :
  temp_label_block_map_ (updateLabelLayerWithStoredBlocks s) =
  temp_label_block_map_ s /\
  temp_block_map_ (updateLabelLayerWithStoredBlocks s) = ∅.
Proof. done. Qed.

Lemma fold_back_installs (s : LabelTsdfIntegrator) idx b :
  temp_label_block_map_ s !! idx = Some b ->
  is_Some (label_layer_ (updateLabelLayerWithStoredBlocks s) !! idx).
Proof.
  intros Hb. unfold updateLabelLayerWithStoredBlocks. simpl.
  rewrite fold_back_layer, lookup_union, Hb.
  destruct (label_layer_ s !! idx); simpl; eauto.
Qed.

Lemma fold_back_issued (s : LabelTsdfIntegrator) :
  labels_issued s -> labels_issued (updateLabelLayerWithStoredBlocks s).
Proof.
  intros [Hlayer Htemp]. split; [|done].
  unfold updateLabelLayerWithStoredBlocks. simpl. rewrite fold_back_layer.
  intros idx b v Hb Hv. apply lookup_union_Some_raw in Hb as [Hb|[_ Hb]].
  - by eapply Hlayer.
  - by eapply Htemp.
Qed.

End FoldBack.

(** ** Label merging *)

Section Merging.

Context {P : Platform}.

(** The inner loop returns only when no count is above the threshold, and
    then it has changed nothing. *)
Lemma mergeLabels_pairs_returns first entries (s s' : LabelTsdfIntegrator) :
  mergeLabels_pairs first entries s = Returns s' ->
  s' = s /\
  Forall (fun e => e.2 <= pairwise_confidence_threshold (label_tsdf_config_ s))
    entries.
Proof.
  induction entries as [|[second count] entries IH]; simpl.
  - intros [= <-]. by split.
  - destruct (Z.ltb_spec (pairwise_confidence_threshold (label_tsdf_config_ s))
                count) as [Hlt|Hge]; [done|].
    intros H. apply IH in H as [-> Hall]. split; [done|].
    by constructor.
Qed.

Lemma mergeLabels_maps_returns maps (s s' : LabelTsdfIntegrator) :
  mergeLabels_maps maps s = Returns s' ->
  s' = s /\
  Forall (fun m =>
    Forall (fun e => e.2 <= pairwise_confidence_threshold (label_tsdf_config_ s))
      m.2) maps.
Proof.
  induction maps as [|[first pairs] maps IH]; simpl.
  - intros [= <-]. by split.
  - destruct (mergeLabels_pairs first pairs s) as [s1| | |] eqn:Hp; simpl;
      try done.
    apply mergeLabels_pairs_returns in Hp as [-> Hall].
    intros H. apply IH in H as [-> Hrest]. split; [done|].
    by constructor.
Qed.

(** [mergeLabels] returns only when it has nothing to merge. *)
Lemma mergeLabels_returns (s s' : LabelTsdfIntegrator) :
  mergeLabels s = Returns s' -> s' = s.
Proof.
  unfold mergeLabels.
  destruct (enable_pairwise_confidence_merging _).
  - intros H. by apply mergeLabels_maps_returns in H as [-> _].
  - by intros [= <-].
Qed.

Lemma mergeLabels_pairs_outcome first entries (s : LabelTsdfIntegrator) :
  mergeLabels_pairs first entries s = Returns s \/
  mergeLabels_pairs first entries s = Undefined.
Proof.
  induction entries as [|[second count] entries IH]; simpl; [by left|].
  destruct (_ <? count); [by right | done].
Qed.

Lemma mergeLabels_pairs_undefined first entries (s : LabelTsdfIntegrator)
    second count :
  (second, count) ∈ entries ->
  pairwise_confidence_threshold (label_tsdf_config_ s) < count ->
  mergeLabels_pairs first entries s = Undefined.
Proof.
  intros Hin Hcount.
  induction entries as [|[l c] entries IH]; simpl.
  - by apply elem_of_nil in Hin.
  - destruct (Z.ltb_spec (pairwise_confidence_threshold (label_tsdf_config_ s))
                c); [done|].
    apply elem_of_cons in Hin as [[= <- <-]|Hin]; [lia | by apply IH].
Qed.

Lemma mergeLabels_maps_undefined maps (s : LabelTsdfIntegrator) first pairs
    second count :
  (first, pairs) ∈ maps -> (second, count) ∈ pairs ->
  pairwise_confidence_threshold (label_tsdf_config_ s) < count ->
  mergeLabels_maps maps s = Undefined.
Proof.
  intros Hfirst Hsecond Hcount.
  induction maps as [|[l m] maps IH]; simpl.
  - by apply elem_of_nil in Hfirst.
  - apply elem_of_cons in Hfirst as [[= <- <-]|Hfirst].
    + by rewrite (mergeLabels_pairs_undefined first pairs s second count).
    + destruct (mergeLabels_pairs_outcome l m s) as [-> | ->]; simpl;
        [by apply IH | done].
Qed.

(** With merging enabled, a pair above the threshold makes the run of
    [mergeLabels] undefined: the entry is erased under the iterator. *)
Lemma mergeLabels_undefined (s : LabelTsdfIntegrator) first pairs second count :
  enable_pairwise_confidence_merging (label_tsdf_config_ s) = true ->
  (first, pairs) ∈ pairwise_confidence_ s -> (second, count) ∈ pairs ->
  pairwise_confidence_threshold (label_tsdf_config_ s) < count ->
  mergeLabels s = Undefined.
Proof.
  intros Hen Hfirst Hsecond Hcount. unfold mergeLabels. rewrite Hen.
  by eapply mergeLabels_maps_undefined.
Qed.

(** After [swapLabels], when the two labels differ, no voxel of the layer
    holds the old one. *)
Lemma swapLabels_removes (old_label new_label : Z) (s : LabelTsdfIntegrator)
    idx b v :
  old_label <> new_label ->
  label_layer_ (swapLabels old_label new_label s) !! idx = Some b ->
  v ∈ voxels b -> label v <> old_label.
Proof.
  intros Hne Hb Hv. unfold swapLabels in Hb. simpl in Hb.
  rewrite lookup_fmap in Hb.
  destruct (label_layer_ s !! idx) as [b0|]; [|done].
  injection Hb as <-. simpl in Hv.
  apply list_elem_of_fmap in Hv as [v0 [-> _]].
  unfold swapLabels_voxel.
  destruct (Z.eqb_spec (label v0) old_label); simpl; congruence.
Qed.

(** The body of the loop does what a merge asks for: once it has run for a
    pair of distinct labels, no voxel of the layer holds the first label and
    the ledger has no entry for the pair. *)
Lemma merge_pair_effect (first second : Z) (s : LabelTsdfIntegrator) :
  first <> second ->
  (forall idx b v,
     label_layer_ (merge_pair first second s) !! idx = Some b ->
     v ∈ voxels b -> label v <> first) /\
  ledger_entry (pairwise_confidence_ (merge_pair first second s)) first second
    = None.
Proof.
  intros Hne. unfold merge_pair. simpl.
  destruct (SMap.find first (pairwise_confidence_ s)) as [pairs|] eqn:Hf;
    simpl; (split; [intros idx b v; by apply swapLabels_removes|]).
  - unfold ledger_entry.
    rewrite SMapFacts.find_assign, Z.eqb_refl, Hf. simpl.
    by rewrite SMapFacts.find_erase, Z.eqb_refl.
  - unfold ledger_entry. by rewrite Hf.
Qed.

End Merging.

(** ** The observation counts *)

Section LabelCounts.

Context {P : Platform}.

Lemma getFreshLabel_counts (s s' : LabelTsdfIntegrator) fresh :
  getFreshLabel s = Returns (fresh, s') ->
  labels_count_map_ s' = labels_count_map_ s.
Proof.
  unfold getFreshLabel. destruct (_ <? _); [|done]. by intros [= _ <-].
Qed.

Lemma allocate_counts v (s : LabelTsdfIntegrator) :
  labels_count_map_ (allocateStorageAndGetLabelVoxelPtr v s).2 =
  labels_count_map_ s.
Proof.
  unfold allocateStorageAndGetLabelVoxelPtr.
  destruct (label_layer_ s !! _); [done|].
  by destruct (temp_label_block_map_ s !! _).
Qed.

Lemma updateLabelVoxelAt_counts L c p (s s' : LabelTsdfIntegrator) :
  updateLabelVoxelAt L c p s = Returns s' ->
  labels_count_map_ s' = labels_count_map_ s.
Proof.
  unfold updateLabelVoxelAt. destruct (block_at p s); [|done].
  destruct (updateLabelVoxel _ _ _ _ _) as [v h].
  intros [= <-]. unfold store_block. by destruct (staged p).
Qed.

Lemma integrateLabelVoxel_counts v L (s s' : LabelTsdfIntegrator) :
  integrateLabelVoxel v L s = Returns s' ->
  labels_count_map_ s' = labels_count_map_ s.
Proof.
  unfold integrateLabelVoxel.
  pose proof (allocate_counts v s) as Ha.
  destruct (allocateStorageAndGetLabelVoxelPtr v s) as [p s1]. simpl in Ha.
  intros H. apply updateLabelVoxelAt_counts in H. congruence.
Qed.

Lemma computeSegmentLabelCandidates_counts segs segment candidates
    (s s' : LabelTsdfIntegrator) candidates' :
  computeSegmentLabelCandidates segs segment candidates s
    = Returns (candidates', s') ->
  labels_count_map_ s' = labels_count_map_ s.
Proof.
  unfold computeSegmentLabelCandidates.
  destruct (segs !! segment) as [seg|]; [|done].
  destruct (scan_segment s segment seg candidates) as [[ex cands] mcl].
  assert (Hs1 : forall s1,
    (if enable_pairwise_confidence_merging (label_tsdf_config_ s)
     then do pc <- increasePairwiseConfidenceCount (elements mcl)
                     (pairwise_confidence_ s);
          Returns (set_pairwise_confidence pc s)
     else Returns s) = Returns s1 ->
    labels_count_map_ s1 = labels_count_map_ s).
  { intros s1. destruct (enable_pairwise_confidence_merging _).
    - destruct (increasePairwiseConfidenceCount _ _); simpl; try done.
      by intros [= <-].
    - by intros [= <-]. }
  destruct (if enable_pairwise_confidence_merging _ then _ else _)
    as [s1| | |]; simpl; try done.
  specialize (Hs1 s1 eq_refl).
  destruct ex.
  - intros [= _ <-]. done.
  - destruct (getFreshLabel s1) as [[fresh s2]| | |] eqn:Hf; simpl; try done.
    apply getFreshLabel_counts in Hf. intros [= _ <-]. congruence.
Qed.

Lemma label_unclaimed_counts segments segs labelled
    (s s' : LabelTsdfIntegrator) segs' labelled' :
  label_unclaimed segments segs labelled s = Returns (segs', labelled', s') ->
  labels_count_map_ s' = labels_count_map_ s.
Proof.
  revert segs labelled s.
  induction segments as [|segment rest IH]; simpl; intros segs labelled s.
  - by intros [= _ _ <-].
  - destruct (decide (segment ∈ labelled)); [apply IH|].
    destruct (getFreshLabel s) as [[fresh s1]| | |] eqn:Hf; simpl; try done.
    apply getFreshLabel_counts in Hf.
    destruct (segs !! segment); [|done].
    intros H. apply IH in H. congruence.
Qed.

Lemma decideLabelPointClouds_counts segments candidates segs
    (s s' : LabelTsdfIntegrator) segs' candidates' :
  decideLabelPointClouds segments candidates segs s
    = Returns (segs', candidates', s') ->
  labels_count_map_ s' = labels_count_map_ s.
Proof.
  unfold decideLabelPointClouds.
  destruct (claim_segments _ _ _ _) as [[[segs1 cands1] labelled1]| | |];
    simpl; try done.
  destruct (label_unclaimed _ _ _ _) as [[[segs2 labelled2] s2]| | |] eqn:Hl;
    simpl; try done.
  apply label_unclaimed_counts in Hl. by intros [= _ _ <-].
Qed.

Lemma step_counts op (s s' : LabelTsdfIntegrator) :
  step op s = Returns s' -> labels_count_map_ s' = labels_count_map_ s.
Proof.
  destruct op; simpl.
  - apply integrateLabelVoxel_counts.
  - apply updateLabelVoxelAt_counts.
  - by intros [= <-].
  - by intros [= <-].
  - intros H. by apply mergeLabels_returns in H as ->.
  - destruct (getFreshLabel s) as [[fresh s1]| | |] eqn:Hf; simpl; try done.
    intros [= <-]. by eapply getFreshLabel_counts.
  - destruct (computeSegmentLabelCandidates _ _ _ _) as [[c s1]| | |] eqn:Hc;
      simpl; try done.
    intros [= <-]. by eapply computeSegmentLabelCandidates_counts.
  - destruct (decideLabelPointClouds _ _ _ _) as [[[g c] s1]| | |] eqn:Hd;
      simpl; try done.
    intros [= <-]. by eapply decideLabelPointClouds_counts.
Qed.

Lemma run_counts ops (s s' : LabelTsdfIntegrator) :
  run ops s = Returns s' -> labels_count_map_ s' = labels_count_map_ s.
Proof.
  revert s. induction ops as [|op ops IH]; simpl; intros s.
  - by intros [= <-].
  - destruct (step op s) as [s1| | |] eqn:Hstep; simpl; try done.
    apply step_counts in Hstep. intros H. apply IH in H. congruence.
Qed.

(** C10.  From the state the constructor leaves, after every sequence of
    voxel writes, fold-backs, swaps, merges, mintings, candidate scans and
    label decisions that returns, [getLabelsList] is the empty list: no
    operation writes [labels_count_map_]. *)
Theorem getLabelsList_empty (cfg : LabelTsdfConfig)
    (layer : gmap BlockIndex Block) (highest : Z) (ops : list operation)
    (s : LabelTsdfIntegrator) :
  run ops (construct cfg layer highest) = Returns s ->
  labels_count_map_ s = [] /\ getLabelsList s = [].
Proof.
  intros Hrun. apply run_counts in Hrun. simpl in Hrun.
  unfold getLabelsList. by rewrite Hrun.
Qed.

End LabelCounts.

(** ** The pairwise confidence ledger *)

Section Ledger.

Context {P : Platform}.

Implicit Types (pc : SMap.t (SMap.t Z)) (B : Z -> Z -> Prop).

Lemma bumps_nothing B pc : (forall x y, ~ B x y) -> bumps B pc pc.
Proof. intros HB. split; intros x y H; [by apply HB in H | done]. Qed.

Lemma bumps_compose B1 B2 B pc pc1 pc2 :
  bumps B1 pc pc1 -> bumps B2 pc1 pc2 ->
  (forall x y, B1 x y -> B2 x y -> False) ->
  (forall x y, B x y <-> B1 x y \/ B2 x y) ->
  (forall x y, B2 x y \/ ~ B2 x y) ->
  bumps B pc pc2.
Proof.
  intros [H1 H1'] [H2 H2'] Hdisj HB Hdec. split; intros x y Hxy.
  - apply HB in Hxy. destruct (Hdec x y) as [Hb2|Hb2].
    + rewrite (H2 _ _ Hb2). unfold ledger_count at 1.
      rewrite H1'; [done|]. intros Hb1. by eapply Hdisj.
    + destruct Hxy as [Hb1|]; [|done].
      rewrite (H2' _ _ Hb2). by apply H1.
  - assert (~ B1 x y) by (intros ?; apply Hxy, HB; by left).
    assert (~ B2 x y) by (intros ?; apply Hxy, HB; by right).
    rewrite H2' by done. by apply H1'.
Qed.

Lemma ordered_bumps lo hi pc :
  ledger_count pc lo hi < int_max ->
  exists pc', increasePairwiseConfidence_ordered lo hi pc = Returns pc' /\
              bumps (fun x y => x = lo /\ y = hi) pc pc'.
Proof.
  intros Hcount. unfold increasePairwiseConfidence_ordered.
  unfold ledger_count, ledger_entry in Hcount.
  destruct (SMap.find lo pc) as [pairs|] eqn:Hlo.
  - destruct (SMap.find hi pairs) as [confidence|] eqn:Hhi; simpl in Hcount.
    + destruct (Z.ltb_spec confidence int_max); [|lia].
      eexists. split; [done|]. split; intros x y Hxy.
      * destruct Hxy as [-> ->]. unfold ledger_count, ledger_entry.
        rewrite SMapFacts.find_assign, Z.eqb_refl, Hlo. simpl.
        by rewrite SMapFacts.find_assign, Z.eqb_refl, Hhi.
      * unfold ledger_entry. rewrite SMapFacts.find_assign.
        destruct (Z.eqb_spec x lo) as [->|Hx]; [|done].
        rewrite Hlo. simpl. rewrite SMapFacts.find_assign.
        destruct (Z.eqb_spec y hi) as [->|Hy]; [|done].
        by destruct Hxy.
    + eexists. split; [done|]. split; intros x y Hxy.
      * destruct Hxy as [-> ->]. unfold ledger_count, ledger_entry.
        rewrite SMapFacts.find_assign, Z.eqb_refl, Hlo. simpl.
        by rewrite SMapFacts.find_emplace, Z.eqb_refl, Hhi.
      * unfold ledger_entry. rewrite SMapFacts.find_assign.
        destruct (Z.eqb_spec x lo) as [->|Hx]; [|done].
        rewrite Hlo. simpl. rewrite SMapFacts.find_emplace.
        destruct (Z.eqb_spec y hi) as [->|Hy]; [|done].
        by destruct Hxy.
  - eexists. split; [done|]. split; intros x y Hxy.
    + destruct Hxy as [-> ->]. unfold ledger_count, ledger_entry.
      rewrite SMapFacts.find_emplace, Z.eqb_refl, Hlo. simpl.
      by rewrite Z.eqb_refl.
    + unfold ledger_entry. rewrite SMapFacts.find_emplace.
      destruct (Z.eqb_spec x lo) as [->|Hx]; [|done].
      rewrite Hlo. simpl.
      destruct (Z.eqb_spec hi y) as [<-|Hy]; [|done].
      by destruct Hxy.
Qed.

Lemma pair_bumps a b pc :
  a <> b ->
  ledger_count pc (Z.min a b) (Z.max a b) < int_max ->
  exists pc', increasePairwiseConfidence_pair a b pc = Returns pc' /\
              bumps (fun x y => x = Z.min a b /\ y = Z.max a b) pc pc'.
Proof.
  intros Hne Hcount. unfold increasePairwiseConfidence_pair.
  destruct (Z.eqb_spec a b); [done|].
  destruct (Z.ltb_spec b a).
  - rewrite Z.min_r, Z.max_l in * by lia. by apply ordered_bumps.
  - rewrite Z.min_l, Z.max_r in * by lia. by apply ordered_bumps.
Qed.

Lemma paired_with_dec l rest x y :
  paired_with l rest x y \/ ~ paired_with l rest x y.
Proof.
  unfold paired_with.
  destruct (decide (x < y)); [|right; tauto].
  destruct (decide (x = l)), (decide (y = l)),
    (decide (x ∈ rest)), (decide (y ∈ rest)); tauto.
Qed.

Lemma paired_dec cs x y : paired cs x y \/ ~ paired cs x y.
Proof.
  unfold paired.
  destruct (decide (x < y)), (decide (x ∈ cs)), (decide (y ∈ cs)); tauto.
Qed.

Lemma from_bumps l rest pc :
  l ∉ rest -> NoDup rest ->
  (forall x y, paired_with l rest x y -> ledger_count pc x y < int_max) ->
  exists pc', increasePairwiseConfidence_from l rest pc = Returns pc' /\
              bumps (paired_with l rest) pc pc'.
Proof.
  revert pc. induction rest as [|r rest IH]; intros pc Hl Hnd Hcount; simpl.
  - eexists. split; [done|]. apply bumps_nothing.
    intros x y [_ [[_ H]|[_ H]]]; by apply elem_of_nil in H.
  - apply not_elem_of_cons in Hl as [Hlr Hl].
    apply NoDup_cons in Hnd as [Hr Hnd].
    destruct (pair_bumps l r pc) as (pc1 & -> & Hb1); [done| |].
    { apply Hcount. split; [lia|].
      destruct (Z.lt_ge_cases l r).
      - left. rewrite Z.min_l, Z.max_r by lia. split; [done|].
        apply elem_of_cons. by left.
      - right. rewrite Z.min_r, Z.max_l by lia. split; [done|].
        apply elem_of_cons. by left. }
    simpl.
    assert (Hsep : forall x y, x = Z.min l r /\ y = Z.max l r ->
                               paired_with l rest x y -> False).
    { intros x y [-> ->] [_ [[Hx Hy]|[Hy Hx]]].
      - apply Hr. replace r with (Z.max l r) by lia. done.
      - apply Hr. replace r with (Z.min l r) by lia. done. }
    destruct (IH pc1) as (pc2 & -> & Hb2); [done|done| |].
    { intros x y Hxy. unfold ledger_count. rewrite (proj2 Hb1).
      - apply Hcount. destruct Hxy as [Hlt [[? Hy]|[? Hx]]]; (split; [done|]).
        + left. split; [done|]. apply elem_of_cons. by right.
        + right. split; [done|]. apply elem_of_cons. by right.
      - intros H. by eapply Hsep. }
    eexists. split; [done|].
    eapply bumps_compose; [exact Hb1|exact Hb2|exact Hsep| |].
    + intros x y. unfold paired_with. rewrite !elem_of_cons. split.
      * intros [Hlt [[-> [->|Hy]]|[-> [->|Hx]]]].
        -- left. lia.
        -- right. split; [done|]. by left.
        -- left. lia.
        -- right. split; [done|]. by right.
      * intros [[-> ->]|[Hlt [[-> Hy]|[-> Hx]]]].
        -- split; [lia|].
           destruct (Z.lt_ge_cases l r).
           ++ left. split; [lia|]. left. lia.
           ++ right. split; [lia|]. left. lia.
        -- split; [done|]. left. split; [done|]. by right.
        -- split; [done|]. right. split; [done|]. by right.
    + intros x y. apply paired_with_dec.
Qed.

Lemma count_bumps cs pc :
  NoDup cs ->
  (forall x y, paired cs x y -> ledger_count pc x y < int_max) ->
  exists pc', increasePairwiseConfidenceCount cs pc = Returns pc' /\
              bumps (paired cs) pc pc'.
Proof.
  revert pc. induction cs as [|l rest IH]; intros pc Hnd Hcount; simpl.
  - eexists. split; [done|]. apply bumps_nothing.
    intros x y (_ & H & _). by apply elem_of_nil in H.
  - apply NoDup_cons in Hnd as [Hl Hnd].
    assert (Hsep : forall x y, paired_with l rest x y -> paired rest x y -> False).
    { intros x y [_ [[-> _]|[-> _]]] (_ & Hx & Hy); by apply Hl. }
    destruct (from_bumps l rest pc) as (pc1 & -> & Hb1); [done|done| |].
    { intros x y [Hlt Hxy]. apply Hcount. split; [done|].
      rewrite !elem_of_cons. destruct Hxy as [[-> Hy]|[-> Hx]]; tauto. }
    simpl.
    destruct (IH pc1) as (pc2 & -> & Hb2); [done| |].
    { intros x y Hxy. unfold ledger_count. rewrite (proj2 Hb1).
      - apply Hcount. destruct Hxy as (Hlt & Hx & Hy). split; [done|].
        rewrite !elem_of_cons. tauto.
      - intros H. by eapply Hsep. }
    eexists. split; [done|].
    eapply bumps_compose; [exact Hb1|exact Hb2|exact Hsep| |].
    + intros x y. unfold paired, paired_with. rewrite !elem_of_cons. split.
      * intros (Hlt & [->|Hx] & [->|Hy]); [lia| | |]; tauto.
      * intros [[Hlt [[-> Hy]|[-> Hx]]]|(Hlt & Hx & Hy)]; tauto.
    + intros x y. apply paired_dec.
Qed.

(** Raising counts keeps the smaller label first, when no pair of [B] has
    the larger label first. *)
Lemma bumps_ordered B pc pc' :
  bumps B pc pc' -> (forall x y, B x y -> x < y) ->
  ledger_ordered pc -> ledger_ordered pc'.
Proof.
  intros [Hb Hb'] HB Hord a b Hab.
  destruct (decide (a < b)) as [|Hge]; [done|].
  rewrite Hb' in Hab; [by apply Hord|]. intros H. by apply HB in H.
Qed.

End Ledger.

(** ** The candidate scan *)

Section CandidateScan.

Context {P : Platform}.

(** The first overlap unit of a label with a segment creates the entry of
    the table and is not compared with the threshold. *)
Lemma first_overlap_not_checked (cfg : LabelTsdfConfig)
    (segment lbl segment_points_count : Z) (candidates : SMap.t (SMap.t Z))
    (merge_candidate_labels : gset Z) :
  ledger_entry candidates lbl segment = None ->
  (increaseLabelCountForSegment cfg segment lbl segment_points_count
     candidates merge_candidate_labels).2 = merge_candidate_labels.
Proof.
  unfold ledger_entry, increaseLabelCountForSegment.
  destruct (SMap.find lbl candidates) as [segments|]; [|done].
  by intros ->.
Qed.

(** C8.  With pairwise merging enabled, a scan of a segment returns (given
    a valid segment, ledger counts below the maximum of [int] and room to
    mint a label) and raises by exactly one the ledger entry [(a, b)] of
    every two labels [a < b] of the segment's merge-candidate set, creating
    it with count 1 when there was none; every other entry, the entry
    [(b, a)] among them, is left as it was, so a ledger with the smaller
    label first stays so. *)
Theorem pairwise_confidence_raised_once (segs : gmap Z Segment)
    (segment : Z) (seg : Segment) (candidates : SMap.t (SMap.t Z))
    (s : LabelTsdfIntegrator) :
  enable_pairwise_confidence_merging (label_tsdf_config_ s) = true ->
  segs !! segment = Some seg ->
  (forall a b, ledger_count (pairwise_confidence_ s) a b < int_max) ->
  highest_label_ s < uint_max ->
  let merge_candidate_labels := (scan_segment s segment seg candidates).2 in
  exists candidates' s',
    computeSegmentLabelCandidates segs segment candidates s
      = Returns (candidates', s') /\
    (forall a b,
       a ∈ merge_candidate_labels -> b ∈ merge_candidate_labels -> a < b ->
       ledger_entry (pairwise_confidence_ s') a b
         = Some (ledger_count (pairwise_confidence_ s) a b + 1)) /\
    (forall a b,
       ~ (a < b /\ a ∈ merge_candidate_labels /\ b ∈ merge_candidate_labels) ->
       ledger_entry (pairwise_confidence_ s') a b
         = ledger_entry (pairwise_confidence_ s) a b) /\
    (ledger_ordered (pairwise_confidence_ s) ->
     ledger_ordered (pairwise_confidence_ s')).
Proof.
  intros Hen Hseg Hcount Hroom. unfold computeSegmentLabelCandidates.
  rewrite Hseg.
  destruct (scan_segment s segment seg candidates) as [[ex cands] mcl].
  simpl. rewrite Hen.
  destruct (count_bumps (elements mcl) (pairwise_confidence_ s))
    as (pc' & -> & Hb); [apply NoDup_elements | by intros |].
  simpl.
  assert (Hpaired : forall a b,
    paired (elements mcl) a b <-> a < b /\ a ∈ mcl /\ b ∈ mcl).
  { intros a b. unfold paired. by rewrite !elem_of_elements. }
  assert (Hfacts : forall s', pairwise_confidence_ s' = pc' ->
    (forall a b, a ∈ mcl -> b ∈ mcl -> a < b ->
       ledger_entry (pairwise_confidence_ s') a b
         = Some (ledger_count (pairwise_confidence_ s) a b + 1)) /\
    (forall a b, ~ (a < b /\ a ∈ mcl /\ b ∈ mcl) ->
       ledger_entry (pairwise_confidence_ s') a b
         = ledger_entry (pairwise_confidence_ s) a b) /\
    (ledger_ordered (pairwise_confidence_ s) ->
     ledger_ordered (pairwise_confidence_ s'))).
  { intros s' ->. split; [|split].
    - intros a b Ha Hb' Hlt. apply (proj1 Hb). by apply Hpaired.
    - intros a b Hab. apply (proj2 Hb). by rewrite Hpaired.
    - eapply bumps_ordered; [exact Hb|]. by intros x y [? _]. }
  destruct ex.
  - eexists _, _. split; [done|]. by apply Hfacts.
  - unfold getFreshLabel. simpl.
    destruct (Z.ltb_spec (highest_label_ s) uint_max); [|lia]. simpl.
    eexists _, _. split; [done|]. by apply Hfacts.
Qed.

End CandidateScan.

(** ** The greedy resolver *)

Section Greedy.

Context {P : Platform}.

Implicit Types (candidates : SMap.t (SMap.t Z)) (segs : gmap Z Segment)
  (labelled : gset Z) (s : LabelTsdfIntegrator).

Lemma visit_pair_sound candidates labelled lbl segments best entry :
  (lbl, segments) ∈ candidates -> entry ∈ segments ->
  maximum_sound candidates labelled best ->
  maximum_sound candidates labelled (visit_pair labelled lbl best entry).
Proof.
  intros Hlbl Hentry [Hpos Hbest]. unfold visit_pair.
  destruct (Z.ltb_spec best.1 entry.2) as [Hlt|]; simpl; [|by split].
  case_bool_decide as Hfree; simpl; [|by split].
  split; simpl; [lia|]. intros pair [= <-].
  split; [|done]. exists segments, entry.2. simpl.
  split; [done|]. split; [by destruct entry | lia].
Qed.

Lemma visit_pairs_sound candidates labelled lbl segments visited best :
  (lbl, segments) ∈ candidates ->
  (forall e, e ∈ visited -> e ∈ segments) ->
  maximum_sound candidates labelled best ->
  maximum_sound candidates labelled
    (foldl (visit_pair labelled lbl) best visited).
Proof.
  intros Hlbl. revert best.
  induction visited as [|e rest IH]; simpl; intros best Hsub Hbest; [done|].
  apply IH.
  - intros e' He'. apply Hsub. apply elem_of_cons. by right.
  - eapply visit_pair_sound; [done| |done].
    apply Hsub. apply elem_of_cons. by left.
Qed.

Lemma visit_labels_sound candidates labelled visited best :
  (forall e, e ∈ visited -> e ∈ candidates) ->
  maximum_sound candidates labelled best ->
  maximum_sound candidates labelled
    (foldl (visit_label labelled) best visited).
Proof.
  revert best.
  induction visited as [|[lbl segments] rest IH]; simpl; intros best Hsub
    Hbest; [done|].
  apply IH.
  - intros e' He'. apply Hsub. apply elem_of_cons. by right.
  - unfold visit_label. simpl. eapply visit_pairs_sound; [|done|done].
    apply Hsub. apply elem_of_cons. by left.
Qed.

(** A pair that [getNextSegmentLabelPair] returns is a pair of the table
    with a positive count and a segment that is not claimed yet. *)
Lemma getNextSegmentLabelPair_sound candidates labelled pair :
  getNextSegmentLabelPair candidates labelled = Some pair ->
  claimable candidates labelled pair.
Proof.
  unfold getNextSegmentLabelPair.
  assert (Hsound : maximum_sound candidates labelled
                     (foldl (visit_label labelled) (0, None) candidates)).
  { apply visit_labels_sound; [done|]. split; simpl; [lia | done]. }
  destruct (_ =? 0); [done|]. intros Hpair. by apply Hsound.
Qed.

Lemma overlaps_sub candidates candidates0 p l :
  (forall e, e ∈ candidates -> e ∈ candidates0) ->
  overlaps candidates p l -> overlaps candidates0 p l.
Proof.
  intros Hsub (segments & count & Hl & Hp & Hcount).
  exists segments, count. split; [by apply Hsub | done].
Qed.

Lemma batch_labelled_claim batch segs0 segs labelled (Q : Z -> Z -> Prop)
    p seg lbl :
  batch_labelled batch segs0 segs labelled Q ->
  segs !! p = Some seg -> p ∉ labelled -> Q p lbl ->
  batch_labelled batch segs0 (<[p := push_labels lbl seg]> segs)
    ({[p]} ∪ labelled) Q.
Proof.
  intros Hinv Hseg Hfree HQ q Hq.
  destruct (Hinv q Hq) as (seg0 & segq & H0 & Hsegq & Hpts & Hin & Hout).
  destruct (decide (p = q)) as [<-|Hne].
  - exists seg0, (push_labels lbl seg). rewrite lookup_insert_eq.
    assert (segq = seg) as -> by congruence.
    split; [done|]. split; [done|]. split; [done|]. split.
    + intros _. exists lbl. simpl. by rewrite (Hout Hfree).
    + intros Hnot. exfalso. apply Hnot. apply elem_of_union. left.
      by apply elem_of_singleton.
  - exists seg0, segq. rewrite lookup_insert_ne by done.
    split; [done|]. split; [done|]. split; [done|]. split.
    + intros Hin'. apply Hin. apply elem_of_union in Hin' as [Hin'|Hin'];
        [|done]. apply elem_of_singleton in Hin'. congruence.
    + intros Hnot. apply Hout. intros Hin'. apply Hnot.
      apply elem_of_union. by right.
Qed.

Lemma batch_labelled_weaken batch segs0 segs labelled (Q Q' : Z -> Z -> Prop) :
  (forall p l, Q p l -> Q' p l) ->
  batch_labelled batch segs0 segs labelled Q ->
  batch_labelled batch segs0 segs labelled Q'.
Proof.
  intros HQ Hinv p Hp.
  destruct (Hinv p Hp) as (seg0 & seg & H0 & Hseg & Hpts & Hin & Hout).
  exists seg0, seg. split; [done|]. split; [done|]. split; [done|].
  split; [|done]. intros Hl. destruct (Hin Hl) as (l & Hlabels & Hl').
  exists l. split; [done|]. by apply HQ.
Qed.

Lemma segments_valid_step candidates segs lbl p seg :
  segments_valid candidates segs ->
  segments_valid (SMap.erase lbl candidates) (<[p := seg]> segs).
Proof.
  intros Hvalid l segments q count Hl Hq.
  apply SMapFacts.elem_of_erase in Hl.
  destruct (decide (p = q)) as [<-|Hne].
  - rewrite lookup_insert_eq. eauto.
  - rewrite lookup_insert_ne by done. by eapply Hvalid.
Qed.

(** The [while] loop returns within its bound; a segment of the batch that
    it claims carries a label of the table that overlaps it. *)
Lemma claim_segments_returns candidates0 batch segs0 fuel segs candidates
    labelled :
  (length candidates <= fuel)%nat ->
  (forall e, e ∈ candidates -> e ∈ candidates0) ->
  segments_valid candidates segs ->
  batch_labelled batch segs0 segs labelled (overlaps candidates0) ->
  exists segs' candidates' labelled',
    claim_segments fuel segs candidates labelled
      = Returns (segs', candidates', labelled') /\
    batch_labelled batch segs0 segs' labelled' (overlaps candidates0).
Proof.
  revert segs candidates labelled.
  induction fuel as [|fuel IH]; intros segs candidates labelled Hfuel Hsub
    Hvalid Hinv; simpl.
  - destruct candidates; [|simpl in Hfuel; lia].
    eexists _, _, _. by split.
  - destruct (getNextSegmentLabelPair candidates labelled) as [[p lbl]|]
      eqn:Hnext; [|eexists _, _, _; by split].
    apply getNextSegmentLabelPair_sound in Hnext as [Hover Hfree].
    simpl in Hover, Hfree.
    destruct Hover as (segments & count & Hlbl & Hp & Hcount).
    destruct (Hvalid _ _ _ _ Hlbl Hp) as [seg Hseg]. rewrite Hseg.
    apply IH.
    + pose proof (SMapFacts.length_erase_lt _ _ _ Hlbl). lia.
    + intros [l m] He. apply Hsub. by apply SMapFacts.elem_of_erase in He.
    + by apply segments_valid_step.
    + apply batch_labelled_claim; [done|done|done|].
      exists segments, count. split; [by apply Hsub | done].
Qed.

(** The [for] loop returns when the counter has room for one label per
    segment of the batch; it leaves every segment of the batch claimed, and a
    segment that it labels carries a label minted after the entry. *)
Lemma label_unclaimed_returns candidates0 h0 batch segs0 rest segs labelled s :
  (forall p, p ∈ rest -> p ∈ batch) ->
  batch_labelled batch segs0 segs labelled
    (claimed_or_minted candidates0 h0 (highest_label_ s)) ->
  0 <= h0 <= highest_label_ s ->
  highest_label_ s + Z.of_nat (length rest) <= uint_max ->
  highest_label_ s + Z.of_nat (length rest) <= label_max ->
  exists segs' labelled' s',
    label_unclaimed rest segs labelled s = Returns (segs', labelled', s') /\
    batch_labelled batch segs0 segs' labelled'
      (claimed_or_minted candidates0 h0 (highest_label_ s')) /\
    (forall p, p ∈ labelled -> p ∈ labelled') /\
    (forall p, p ∈ rest -> p ∈ labelled').
Proof.
  revert segs labelled s.
  induction rest as [|p rest IH]; intros segs labelled s Hsub Hinv Hpos Hroom
    Hwrap; simpl.
  - eexists _, _, _. split; [done|]. split; [done|]. split; [done|].
    intros p Hp. by apply elem_of_nil in Hp.
  - assert (Hrest : forall q, q ∈ rest -> q ∈ batch).
    { intros q Hq. apply Hsub. apply elem_of_cons. by right. }
    rewrite length_cons in Hroom, Hwrap.
    destruct (decide (p ∈ labelled)) as [Hp|Hp].
    + destruct (IH segs labelled s) as (segs' & labelled' & s' & -> & Hinv'
        & Hmono & Hall); [done|done|done|lia|lia|].
      eexists _, _, _. split; [done|]. split; [done|]. split; [done|].
      intros q Hq. apply elem_of_cons in Hq as [->|Hq]; [|by apply Hall].
      by apply Hmono.
    + unfold getFreshLabel.
      destruct (Z.ltb_spec (highest_label_ s) uint_max); [|lia]. simpl.
      destruct (Hinv p) as (seg0 & seg & H0 & Hseg & _).
      { apply Hsub. apply elem_of_cons. by left. }
      rewrite Hseg.
      rewrite wrap_small by (unfold label_max in Hwrap; lia).
      destruct (IH (<[p := push_labels (highest_label_ s + 1) seg]> segs)
                  ({[p]} ∪ labelled)
                  (set_highest_label (highest_label_ s + 1) s))
        as (segs' & labelled' & s' & -> & Hinv' & Hmono & Hall);
        [done| |simpl; lia|simpl; lia|simpl; lia|].
      { simpl. apply batch_labelled_claim; [|done|done|right; lia].
        eapply batch_labelled_weaken; [|exact Hinv].
        intros q l [Hq|Hq]; [by left | right; lia]. }
      eexists _, _, _. split; [done|]. split; [done|]. split.
      * intros q Hq. apply Hmono. apply elem_of_union. by right.
      * intros q Hq. apply elem_of_cons in Hq as [->|Hq]; [|by apply Hall].
        apply Hmono. apply elem_of_union. left. by apply elem_of_singleton.
Qed.

(** C4.  For a batch whose segments exist and carry no label on entry,
    with a table that points to existing segments and a counter with room
    for one label per segment of the batch, [decideLabelPointClouds] returns,
    and every segment of the batch has kept its points and carries one
    label value on all of them: as many labels as points, all equal.  The
    label is one of the table that overlaps the segment, or it was minted
    by the call: it lies above the counter at entry and at most at the
    counter at return. *)
Theorem decideLabelPointClouds_labels_batch (segments_to_integrate : list Z)
    candidates segs s :
  (forall p, p ∈ segments_to_integrate ->
     exists seg, segs !! p = Some seg /\ labels_ seg = []) ->
  segments_valid candidates segs ->
  0 <= highest_label_ s ->
  highest_label_ s + Z.of_nat (length segments_to_integrate) <= uint_max ->
  highest_label_ s + Z.of_nat (length segments_to_integrate) <= label_max ->
  exists segs' candidates' s',
    decideLabelPointClouds segments_to_integrate candidates segs s
      = Returns (segs', candidates', s') /\
    forall p, p ∈ segments_to_integrate ->
      exists seg seg' l,
        segs !! p = Some seg /\ segs' !! p = Some seg' /\
        points_C_ seg' = points_C_ seg /\
        length (labels_ seg') = length (points_C_ seg') /\
        labels_ seg' = replicate (length (points_C_ seg')) l /\
        (overlaps candidates p l \/
         highest_label_ s < l <= highest_label_ s').
Proof.
  intros Hentry Hvalid Hpos Hroom Hwrap. unfold decideLabelPointClouds.
  assert (Hinit : batch_labelled segments_to_integrate segs segs ∅
                    (overlaps candidates)).
  { intros p Hp. destruct (Hentry p Hp) as (seg & Hseg & Hlabels).
    exists seg, seg. split; [done|]. split; [done|]. split; [done|].
    split; [|done]. intros Hin. by apply not_elem_of_empty in Hin. }
  destruct (claim_segments_returns candidates segments_to_integrate segs
              (length candidates) segs candidates ∅)
    as (segs1 & candidates1 & labelled1 & -> & Hinv1);
    [done|done|done|done|].
  simpl.
  destruct (label_unclaimed_returns candidates (highest_label_ s)
              segments_to_integrate segs segments_to_integrate segs1
              labelled1 s)
    as (segs2 & labelled2 & s2 & -> & Hinv2 & _ & Hall);
    [done| |lia|done|done|].
  { eapply batch_labelled_weaken; [|exact Hinv1]. intros p l Hl. by left. }
  simpl. eexists _, _, _. split; [done|].
  intros p Hp.
  destruct (Hinv2 p Hp) as (seg & seg' & Hseg & Hseg' & Hpts & Hin & _).
  destruct (Hin (Hall p Hp)) as (l & Hl & HQ).
  exists seg, seg', l. split; [done|]. split; [done|]. split; [done|].
  split; [by rewrite Hl, length_replicate|]. by split.
Qed.

End Greedy.

Section GreedyPrecedence.

Context {P : Platform}.

Variables (segA segB label1 label2 : Z).
Hypothesis labels_differ : label1 <> label2.
Hypothesis segments_differ : segA <> segB.

Lemma precedence_table_entries :
  precedence_table segA segB label1 label2 =
  let of_label1 :=
    if segB <? segA then [(segB, 4); (segA, 5)] else [(segA, 5); (segB, 4)] in
  if label2 <? label1
  then [(label2, [(segA, 3)]); (label1, of_label1)]
  else [(label1, of_label1); (label2, [(segA, 3)])].
Proof.
  unfold precedence_table, SMap.emplace. simpl.
  rewrite (proj2 (Z.eqb_neq segA segB)) by done. simpl.
  rewrite (proj2 (Z.eqb_neq label1 label2)) by done. simpl.
  by destruct (label2 <? label1).
Qed.

Lemma free_in_empty (p : Z) : bool_decide (p ∉ (∅ : gset Z)) = true.
Proof. apply bool_decide_eq_true_2. apply not_elem_of_empty. Qed.

Lemma claimed_segA : bool_decide (segA ∉ ({[segA]} ∪ ∅ : gset Z)) = false.
Proof.
  apply bool_decide_eq_false_2. intros H. apply H.
  apply elem_of_union. left. by apply elem_of_singleton.
Qed.

(** The first turn of the loop claims label1 for segA. *)
Lemma first_claim :
  getNextSegmentLabelPair (precedence_table segA segB label1 label2) ∅
    = Some (segA, label1).
Proof.
  rewrite precedence_table_entries. unfold getNextSegmentLabelPair.
  destruct (label2 <? label1), (segB <? segA);
    cbn [foldl visit_label visit_pair fst snd];
    rewrite ?free_in_empty; reflexivity.
Qed.

(** Once label1 is erased and segA is claimed, no pair is left. *)
Lemma no_second_claim :
  getNextSegmentLabelPair
    (SMap.erase label1 (precedence_table segA segB label1 label2))
    ({[segA]} ∪ ∅) = None.
Proof.
  rewrite precedence_table_entries. unfold getNextSegmentLabelPair.
  destruct (label2 <? label1), (segB <? segA); simpl SMap.erase;
    rewrite ?Z.eqb_refl, ?(proj2 (Z.eqb_neq label2 label1)) by done;
    unfold visit_label, visit_pair; cbn [foldl fst snd];
    rewrite ?claimed_segA, ?andb_false_r; reflexivity.
Qed.

Lemma precedence_table_length :
  length (precedence_table segA segB label1 label2) = 2%nat.
Proof.
  rewrite precedence_table_entries. by destruct (label2 <? label1).
Qed.

(** C3.  For the table with exactly the entries (segA, label1) = 5,
    (segA, label2) = 3 and (segB, label1) = 4 and the batch of segA and
    segB, in either order, with a counter below the maximum,
    [decideLabelPointClouds] returns; it has pushed label1 once for every
    point of segA, and for every point of segB the label it has minted, the
    prior counter plus one, which the counter then holds. *)
Theorem greedy_precedence (a b : Segment) (segs : gmap Z Segment)
    (s : LabelTsdfIntegrator) (segments_to_integrate : list Z) :
  segs !! segA = Some a -> segs !! segB = Some b ->
  segments_to_integrate = [segA; segB] \/
    segments_to_integrate = [segB; segA] ->
  0 <= highest_label_ s ->
  highest_label_ s < uint_max -> highest_label_ s < label_max ->
  exists segs' candidates' s' a' b',
    decideLabelPointClouds segments_to_integrate
      (precedence_table segA segB label1 label2) segs s
      = Returns (segs', candidates', s') /\
    segs' !! segA = Some a' /\ points_C_ a' = points_C_ a /\
    labels_ a' = labels_ a ++ replicate (length (points_C_ a)) label1 /\
    segs' !! segB = Some b' /\ points_C_ b' = points_C_ b /\
    labels_ b' =
      labels_ b ++ replicate (length (points_C_ b)) (highest_label_ s + 1) /\
    highest_label_ s < highest_label_ s + 1 /\
    highest_label_ s' = highest_label_ s + 1.
Proof.
  intros Ha Hb Hbatch Hpos Hroom Hmax.
  assert (Hfresh : wrap label_bits (highest_label_ s + 1) = highest_label_ s + 1).
  { apply wrap_small. unfold label_max in Hmax. lia. }
  unfold decideLabelPointClouds. rewrite precedence_table_length.
  cbn [claim_segments]. rewrite first_claim, Ha.
  rewrite no_second_claim. cbn [bind].
  assert (HinA : segA ∈ ({[segA]} ∪ ∅ : gset Z)).
  { apply elem_of_union. left. by apply elem_of_singleton. }
  assert (HoutB : segB ∉ ({[segA]} ∪ ∅ : gset Z)).
  { intros H. apply elem_of_union in H as [H|H].
    - apply elem_of_singleton in H. congruence.
    - by apply not_elem_of_empty in H. }
  assert (HinA' : segA ∈ ({[segB]} ∪ ({[segA]} ∪ ∅) : gset Z)).
  { apply elem_of_union. by right. }
  destruct Hbatch as [-> | ->]; cbn [label_unclaimed].
  - destruct (decide (segA ∈ ({[segA]} ∪ ∅ : gset Z))); [|done].
    destruct (decide (segB ∈ ({[segA]} ∪ ∅ : gset Z))); [done|].
    unfold getFreshLabel.
    destruct (Z.ltb_spec (highest_label_ s) uint_max); [|lia].
    cbn [bind]. rewrite lookup_insert_ne, Hb by done. rewrite Hfresh.
    eexists _, _, _, _, _. split; [reflexivity|].
    rewrite lookup_insert_ne, lookup_insert_eq by done.
    rewrite lookup_insert_eq.
    repeat (split; [reflexivity|]). split; [lia | reflexivity].
  - destruct (decide (segB ∈ ({[segA]} ∪ ∅ : gset Z))); [done|].
    unfold getFreshLabel.
    destruct (Z.ltb_spec (highest_label_ s) uint_max); [|lia].
    cbn [bind]. rewrite lookup_insert_ne, Hb by done. rewrite Hfresh.
    cbn [label_unclaimed].
    destruct (decide (segA ∈ ({[segB]} ∪ ({[segA]} ∪ ∅) : gset Z))); [|done].
    eexists _, _, _, _, _. split; [reflexivity|].
    rewrite lookup_insert_ne, lookup_insert_eq by done.
    rewrite lookup_insert_eq.
    repeat (split; [reflexivity|]). split; [lia | reflexivity].
Qed.

End GreedyPrecedence.

(** * Further properties of the integrator *)

(** ** Repeated writes of one label *)

Section VoxelWrites.

Context {P : Platform}.

Lemma wrap_range bits z : 0 < bits -> 0 <= wrap bits z < 2 ^ bits.
Proof. intros Hb. unfold wrap. apply Z.mod_pos_bound. lia. Qed.

Lemma capped_write cfg L c v h :
  cap_confidence cfg = true ->
  0 <= confidence_cap_value cfg <= confidence_max ->
  label v = L ->
  label (updateLabelVoxel cfg L c v h).1 = L /\
  0 <= label_confidence (updateLabelVoxel cfg L c v h).1
    <= confidence_cap_value cfg /\
  (updateLabelVoxel cfg L c v h).2 = h.
Proof.
  intros Hcap Hrange HL. rewrite updateLabelVoxel_same by done. simpl.
  rewrite Hcap. simpl. pose proof confidence_bits_min as Hb.
  unfold confidence_max in Hrange.
  assert (Hw : 0 <= wrap confidence_bits (label_confidence v + c)
               < 2 ^ confidence_bits) by (apply wrap_range; lia).
  split; [done|]. split; [|done].
  unfold confidence_exceeds.
  destruct (Z.ltb_spec confidence_bits 32).
  - destruct (Z.ltb_spec (confidence_cap_value cfg)
                (wrap confidence_bits (label_confidence v + c))).
    + rewrite wrap_small by lia. lia.
    + lia.
  - rewrite (wrap_small _ (confidence_cap_value cfg)) by lia.
    destruct (Z.ltb_spec (confidence_cap_value cfg)
                (wrap confidence_bits (label_confidence v + c))); lia.
Qed.

(** X1.  With the cap enabled and a cap value within the confidence type,
    any positive number of writes of the label a voxel already holds leaves
    the voxel with that label and a confidence of at most the cap value, and
    leaves the counter as it was. *)
Theorem confidence_stays_capped (cfg : LabelTsdfConfig) (L c : Z) (n : nat)
    (v : LabelVoxel) (h : Z) :
  cap_confidence cfg = true ->
  0 <= confidence_cap_value cfg <= confidence_max ->
  label v = L -> (0 < n)%nat ->
  label (updateLabelVoxel_times cfg L c n (v, h)).1 = L /\
  0 <= label_confidence (updateLabelVoxel_times cfg L c n (v, h)).1
    <= confidence_cap_value cfg /\
  (updateLabelVoxel_times cfg L c n (v, h)).2 = h.
Proof.
  intros Hcap Hrange HL Hn. destruct n as [|n]; [lia|]. clear Hn.
  induction n as [|n IH].
  - simpl. by apply capped_write.
  - destruct IH as (Hl & _ & Hh).
    change (updateLabelVoxel_times cfg L c (S (S n)) (v, h))
      with (updateLabelVoxel cfg L c
              (updateLabelVoxel_times cfg L c (S n) (v, h)).1
              (updateLabelVoxel_times cfg L c (S n) (v, h)).2).
    destruct (capped_write cfg L c
                (updateLabelVoxel_times cfg L c (S n) (v, h)).1
                (updateLabelVoxel_times cfg L c (S n) (v, h)).2)
      as (Hl' & Hc' & Hh'); [done|done|done|].
    split; [done|]. split; [done|]. congruence.
Qed.

(** X2.  With the cap disabled, [n] writes of the label a voxel already
    holds add [n] times the increment to its confidence modulo the size of
    the confidence type: the confidence wraps around, and the label and the
    counter stay. *)
Theorem confidence_accumulates_modulo (cfg : LabelTsdfConfig) (L c : Z)
    (n : nat) (v : LabelVoxel) (h : Z) :
  cap_confidence cfg = false ->
  label v = L -> 0 <= label_confidence v <= confidence_max ->
  updateLabelVoxel_times cfg L c n (v, h) =
  (mkLabelVoxel L ((label_confidence v + Z.of_nat n * c) mod 2 ^ confidence_bits),
   h).
Proof.
  intros Hcap HL Hrange. pose proof confidence_bits_min as Hb.
  unfold confidence_max in Hrange.
  induction n as [|n IH].
  - simpl. rewrite Z.add_0_r, Z.mod_small by lia. destruct v. simpl in *.
    by subst.
  - change (updateLabelVoxel_times cfg L c (S n) (v, h))
      with (updateLabelVoxel cfg L c
              (updateLabelVoxel_times cfg L c n (v, h)).1
              (updateLabelVoxel_times cfg L c n (v, h)).2).
    rewrite IH. simpl. rewrite updateLabelVoxel_same by done. simpl.
    rewrite Hcap. simpl. unfold wrap. rewrite Zplus_mod_idemp_l.
    do 2 f_equal. f_equal. lia.
Qed.

(** X3.  A write of another label on a voxel of positive confidence keeps
    the voxel's label and the counter and subtracts the increment from the
    confidence; an increment above the confidence does not stop at 0: the
    confidence wraps around to the size of the confidence type minus the
    excess. *)
Theorem contest_subtracts_modulo (cfg : LabelTsdfConfig) (L c : Z)
    (v : LabelVoxel) (h : Z) :
  label v <> L ->
  0 < label_confidence v <= confidence_max -> 0 <= c <= confidence_max ->
  updateLabelVoxel cfg L c v h =
  (mkLabelVoxel (label v)
     (if c <=? label_confidence v then label_confidence v - c
      else 2 ^ confidence_bits - (c - label_confidence v)),
   h).
Proof.
  intros Hne Hconf Hc. unfold confidence_max in *.
  rewrite updateLabelVoxel_contest by (done || lia). do 2 f_equal.
  unfold wrap. destruct (Z.leb_spec c (label_confidence v)).
  - apply Z.mod_small. lia.
  - symmetry. apply (Z.mod_unique _ _ (-1)); lia.
Qed.

End VoxelWrites.


(** ** Label writes into the storage *)

Section Storage.

Context {P : Platform}.

Implicit Types (s : LabelTsdfIntegrator) (idx : BlockIndex) (b : Block).

Lemma integrateLabelVoxel_written v L s :
  integrateLabelVoxel v L s
  = Returns (written (block_of_voxel v) (local_of_voxel v) L s).
Proof.
  unfold integrateLabelVoxel, allocateStorageAndGetLabelVoxelPtr, written,
    label_block, put_block, updateLabelVoxelAt, block_at, store_block.
  destruct (label_layer_ s !! block_of_voxel v) as [b|] eqn:Hl; simpl.
  - rewrite lookup_insert_eq.
    destruct (updateLabelVoxel _ _ _ _ _) as [v' h'] eqn:Hu. simpl.
    by rewrite insert_insert_eq.
  - destruct (temp_label_block_map_ s !! block_of_voxel v) as [b|] eqn:Ht;
      simpl; rewrite lookup_insert_eq;
      destruct (updateLabelVoxel _ _ _ _ _) as [v' h'] eqn:Hu; simpl;
      by rewrite insert_insert_eq.
Qed.

Lemma getVoxelByLinearIndex_new_block i :
  getVoxelByLinearIndex new_block i = unobserved.
Proof.
  unfold getVoxelByLinearIndex, new_block. simpl.
  destruct (replicate _ unobserved !! i) as [v|] eqn:Hv; simpl; [|done].
  by apply lookup_replicate in Hv as [-> _].
Qed.

Lemma label_block_put_eq idx b s : label_block (put_block idx b s) idx = Some b.
Proof.
  unfold label_block, put_block.
  destruct (label_layer_ s !! idx) as [b0|] eqn:Hl; simpl.
  - by rewrite lookup_insert_eq.
  - by rewrite Hl, lookup_insert_eq.
Qed.

Lemma label_block_put_ne idx idx' b s :
  idx <> idx' -> label_block (put_block idx b s) idx' = label_block s idx'.
Proof.
  intros Hne. unfold label_block, put_block.
  destruct (label_layer_ s !! idx) as [b0|] eqn:Hl; simpl.
  - by rewrite lookup_insert_ne.
  - by rewrite lookup_insert_ne.
Qed.

Lemma layer_lookup_put idx idx' b s :
  is_Some (label_layer_ (put_block idx b s) !! idx')
  <-> is_Some (label_layer_ s !! idx').
Proof.
  unfold put_block.
  destruct (label_layer_ s !! idx) as [b0|] eqn:Hl; simpl; [|done].
  destruct (decide (idx = idx')) as [<-|Hne].
  - rewrite lookup_insert_eq, Hl. split; eauto.
  - by rewrite lookup_insert_ne.
Qed.

(** X4.  A label write always returns.  It allocates nothing in the layer:
    the layer holds the same coordinates after it; a coordinate the layer
    does not hold gets its block in the staging map.  The block of the
    voxel is flagged as updated, and the counter is not lowered. *)
Theorem integrateLabelVoxel_allocates_in_staging (v : VoxelIndex) (L : Z)
    (s : LabelTsdfIntegrator) :
  exists s',
    integrateLabelVoxel v L s = Returns s' /\
    dom (label_layer_ s') = dom (label_layer_ s) /\
    dom (temp_label_block_map_ s') =
      (if decide (is_Some (label_layer_ s !! block_of_voxel v))
       then dom (temp_label_block_map_ s)
       else {[block_of_voxel v]} ∪ dom (temp_label_block_map_ s)) /\
    (exists b, label_block s' (block_of_voxel v) = Some b /\ updated b = true) /\
    highest_label_ s <= highest_label_ s'.
Proof.
  rewrite integrateLabelVoxel_written. eexists. split; [done|].
  unfold written. set (b := set_updated _). set (r := updateLabelVoxel _ _ _ _ _).
  split; [|split; [|split]].
  - simpl. unfold put_block.
    destruct (label_layer_ s !! block_of_voxel v) as [b0|] eqn:Hl; simpl;
      [|done].
    rewrite dom_insert_L. apply elem_of_dom_2 in Hl.
    apply subseteq_union_1_L. by apply singleton_subseteq_l.
  - simpl. unfold put_block.
    destruct (label_layer_ s !! block_of_voxel v) as [b0|] eqn:Hl; simpl.
    + done.
    + by rewrite dom_insert_L.
  - eexists. split.
    + change (label_block (set_highest_label r.2 ?x)) with (label_block x).
      apply label_block_put_eq.
    + done.
  - simpl. unfold r.
    destruct (Z.eq_dec (label (getVoxelByLinearIndex b (local_of_voxel v))) L).
    + rewrite updateLabelVoxel_same by done. simpl. lia.
    + destruct (Z.eq_dec (label_confidence
                  (getVoxelByLinearIndex b (local_of_voxel v))) 0).
      * rewrite updateLabelVoxel_flip by done. simpl. lia.
      * rewrite updateLabelVoxel_contest by done. simpl. lia.
Qed.

Lemma getVoxel_set_updated b i :
  getVoxelByLinearIndex (set_updated b) i = getVoxelByLinearIndex b i.
Proof. done. Qed.

Lemma getVoxel_set_eq b i v :
  (i < length (voxels b))%nat ->
  getVoxelByLinearIndex (setVoxelByLinearIndex b i v) i = v.
Proof.
  intros Hi. unfold getVoxelByLinearIndex, setVoxelByLinearIndex. simpl.
  by rewrite list_lookup_insert_eq.
Qed.

Lemma getVoxel_set_ne b i j v :
  i <> j ->
  getVoxelByLinearIndex (setVoxelByLinearIndex b i v) j
  = getVoxelByLinearIndex b j.
Proof.
  intros Hne. unfold getVoxelByLinearIndex, setVoxelByLinearIndex. simpl.
  by rewrite list_lookup_insert_ne.
Qed.

(** X5.  After a label write, the voxel at the written position is the
    voxel that [updateLabelVoxel] makes of the voxel found there (an
    unobserved voxel where no block held the coordinate), the counter is
    the counter it returns, and the voxel at every other position is as
    before. *)
Theorem integrateLabelVoxel_read_back (v : VoxelIndex) (L : Z)
    (s : LabelTsdfIntegrator) :
  (local_of_voxel v
   < length (voxels (default new_block (label_block s (block_of_voxel v)))))%nat ->
  let before := label_voxel_at s (block_of_voxel v) (local_of_voxel v) in
  let r := updateLabelVoxel (label_tsdf_config_ s) L 1 before
             (highest_label_ s) in
  exists s',
    integrateLabelVoxel v L s = Returns s' /\
    label_voxel_at s' (block_of_voxel v) (local_of_voxel v) = r.1 /\
    highest_label_ s' = r.2 /\
    forall idx i,
      (idx, i) <> (block_of_voxel v, local_of_voxel v) ->
      label_voxel_at s' idx i = label_voxel_at s idx i.
Proof.
  intros Hi before r. rewrite integrateLabelVoxel_written.
  eexists. split; [done|]. unfold written.
  set (b0 := default new_block (label_block s (block_of_voxel v))) in *.
  split; [|split; [done|]].
  - unfold label_voxel_at.
    change (label_block (set_highest_label ?h ?x)) with (label_block x).
    rewrite label_block_put_eq. simpl. by rewrite getVoxel_set_eq.
  - intros idx i Hne. unfold label_voxel_at.
    change (label_block (set_highest_label ?h ?x)) with (label_block x).
    destruct (decide (block_of_voxel v = idx)) as [<-|Hidx].
    + rewrite label_block_put_eq. simpl.
      rewrite getVoxel_set_ne by congruence. done.
    + by rewrite label_block_put_ne.
Qed.

End Storage.


(** ** The order of label writes *)

Section WriteOrder.

Context {P : Platform}.

Implicit Types (s : LabelTsdfIntegrator) (idx : BlockIndex) (b : Block).

(** The voxel that [updateLabelVoxel] leaves does not depend on the
    counter, and the counter it leaves is the counter or the larger of the
    counter and the label. *)
Lemma updateLabelVoxel_voxel cfg L c v h h' :
  (updateLabelVoxel cfg L c v h).1 = (updateLabelVoxel cfg L c v h').1.
Proof.
  unfold updateLabelVoxel.
  destruct (label v =? L); [done|]. by destruct (label_confidence v =? 0).
Qed.

Lemma updateLabelVoxel_counter cfg L c v h :
  (updateLabelVoxel cfg L c v h).2 =
  if negb (label v =? L) && (label_confidence v =? 0) then Z.max h L else h.
Proof.
  unfold updateLabelVoxel.
  destruct (label v =? L); simpl; [done|].
  destruct (label_confidence v =? 0); simpl; [|done].
  destruct (Z.ltb_spec h L); lia.
Qed.

Lemma counters_commute cfg L c v1 v2 h :
  (updateLabelVoxel cfg L c v2 (updateLabelVoxel cfg L c v1 h).2).2 =
  (updateLabelVoxel cfg L c v1 (updateLabelVoxel cfg L c v2 h).2).2.
Proof.
  rewrite !updateLabelVoxel_counter.
  destruct (negb (label v1 =? L) && (label_confidence v1 =? 0)),
    (negb (label v2 =? L) && (label_confidence v2 =? 0)); lia.
Qed.

Lemma config_put idx b s :
  label_tsdf_config_ (put_block idx b s) = label_tsdf_config_ s.
Proof. unfold put_block. by destruct (label_layer_ s !! idx). Qed.

Lemma highest_put idx b s :
  highest_label_ (put_block idx b s) = highest_label_ s.
Proof. unfold put_block. by destruct (label_layer_ s !! idx). Qed.

Lemma put_set_highest idx b h s :
  put_block idx b (set_highest_label h s)
  = set_highest_label h (put_block idx b s).
Proof. unfold put_block. simpl. by destruct (label_layer_ s !! idx). Qed.

Lemma put_put_eq idx b1 b2 s :
  put_block idx b2 (put_block idx b1 s) = put_block idx b2 s.
Proof.
  unfold put_block.
  destruct (label_layer_ s !! idx) as [b0|] eqn:Hl; simpl.
  - rewrite lookup_insert_eq. unfold set_label_layer. simpl.
    by rewrite insert_insert_eq.
  - rewrite Hl. unfold set_temp_label_block_map. simpl.
    by rewrite insert_insert_eq.
Qed.

Lemma put_put_ne idx1 idx2 b1 b2 s :
  idx1 <> idx2 ->
  put_block idx2 b2 (put_block idx1 b1 s)
  = put_block idx1 b1 (put_block idx2 b2 s).
Proof.
  intros Hne. unfold put_block.
  destruct (label_layer_ s !! idx1) as [c1|] eqn:H1,
    (label_layer_ s !! idx2) as [c2|] eqn:H2; simpl;
    rewrite ?lookup_insert_ne by done; rewrite ?H1, ?H2;
    unfold set_label_layer, set_temp_label_block_map; simpl;
    try done; f_equal; by apply insert_insert_ne.
Qed.

Lemma written_unfold idx i L s :
  written idx i L s =
  let b := set_updated (default new_block (label_block s idx)) in
  let r := updateLabelVoxel (label_tsdf_config_ s) L 1
             (getVoxelByLinearIndex b i) (highest_label_ s) in
  set_highest_label r.2 (put_block idx (setVoxelByLinearIndex b i r.1) s).
Proof. done. Qed.

(** Two label writes of one label give the same state in either order. *)
Lemma written_commute idx1 i1 idx2 i2 L s :
  written idx2 i2 L (written idx1 i1 L s)
  = written idx1 i1 L (written idx2 i2 L s).
Proof.
  destruct (decide (idx1 = idx2)) as [<-|Hidx].
  - destruct (decide (i1 = i2)) as [<-|Hi]; [done|].
    unfold written. cbv zeta.
    change (label_block (set_highest_label ?h ?x)) with (label_block x).
    rewrite !label_block_put_eq.
    change (label_tsdf_config_ (set_highest_label ?h ?x))
      with (label_tsdf_config_ x).
    change (highest_label_ (set_highest_label ?h ?x)) with h.
    rewrite !config_put, !put_set_highest, !put_put_eq.
    set (b0 := default new_block (label_block s idx1)).
    cbn [default from_option id].
    rewrite !getVoxel_set_updated.
    rewrite (getVoxel_set_ne _ i1 i2) by done.
    rewrite (getVoxel_set_ne _ i2 i1) by done.
    rewrite !getVoxel_set_updated.
    set (v1 := getVoxelByLinearIndex b0 i1).
    set (v2 := getVoxelByLinearIndex b0 i2).
    rewrite ?(updateLabelVoxel_voxel _ L 1 v1
                (updateLabelVoxel (label_tsdf_config_ s) L 1 v2
                   (highest_label_ s)).2 (highest_label_ s)).
    rewrite ?(updateLabelVoxel_voxel _ L 1 v2
                (updateLabelVoxel (label_tsdf_config_ s) L 1 v1
                   (highest_label_ s)).2 (highest_label_ s)).
    rewrite (counters_commute _ L 1 v1 v2).
    unfold set_highest_label, setVoxelByLinearIndex, set_updated. simpl.
    by rewrite (list_insert_insert_ne _ i2 i1).
  - unfold written. cbv zeta.
    change (label_block (set_highest_label ?h ?x)) with (label_block x).
    rewrite (label_block_put_ne idx1 idx2) by done.
    rewrite (label_block_put_ne idx2 idx1) by done.
    change (label_tsdf_config_ (set_highest_label ?h ?x))
      with (label_tsdf_config_ x).
    change (highest_label_ (set_highest_label ?h ?x)) with h.
    rewrite !config_put, !put_set_highest.
    set (b1 := set_updated (default new_block (label_block s idx1))).
    set (b2 := set_updated (default new_block (label_block s idx2))).
    set (v1 := getVoxelByLinearIndex b1 i1).
    set (v2 := getVoxelByLinearIndex b2 i2).
    rewrite ?(updateLabelVoxel_voxel _ L 1 v1
                (updateLabelVoxel (label_tsdf_config_ s) L 1 v2
                   (highest_label_ s)).2 (highest_label_ s)).
    rewrite ?(updateLabelVoxel_voxel _ L 1 v2
                (updateLabelVoxel (label_tsdf_config_ s) L 1 v1
                   (highest_label_ s)).2 (highest_label_ s)).
    rewrite (counters_commute _ L 1 v1 v2).
    rewrite (put_put_ne idx1 idx2) by done. done.
Qed.

Lemma integrateLabelVoxels_written ray L s :
  integrateLabelVoxels ray L s =
  Returns (foldl (fun s v => written (block_of_voxel v) (local_of_voxel v) L s)
             s ray).
Proof.
  revert s. induction ray as [|v ray IH]; intros s; simpl; [done|].
  rewrite integrateLabelVoxel_written. simpl. apply IH.
Qed.

(** X6.  Two label writes of one label commute: written in either order,
    two voxels leave the same layer, staging map and counter. *)
Theorem integrateLabelVoxel_commutes (v1 v2 : VoxelIndex) (L : Z)
    (s : LabelTsdfIntegrator) :
  (do s1 <- integrateLabelVoxel v1 L s; integrateLabelVoxel v2 L s1) =
  (do s2 <- integrateLabelVoxel v2 L s; integrateLabelVoxel v1 L s2).
Proof.
  rewrite !integrateLabelVoxel_written. simpl.
  rewrite !integrateLabelVoxel_written. f_equal. apply written_commute.
Qed.

(** X7.  The label writes along a ray return, and the state they leave
    does not depend on the order of the voxels: any rearrangement of the
    ray gives the same state. *)
Theorem integrateLabelVoxels_any_order (ray ray' : list VoxelIndex) (L : Z)
    (s : LabelTsdfIntegrator) :
  ray ≡ₚ ray' ->
  (exists s', integrateLabelVoxels ray L s = Returns s') /\
  integrateLabelVoxels ray L s = integrateLabelVoxels ray' L s.
Proof.
  intros Hperm. rewrite !integrateLabelVoxels_written. split; [eauto|].
  f_equal. revert s.
  induction Hperm as [|v l l' _ IH|v w l|l l' l'' _ IH1 _ IH2]; intros s;
    simpl.
  - done.
  - apply IH.
  - by rewrite written_commute.
  - by rewrite IH1, IH2.
Qed.

End WriteOrder.


(** ** The fold-back and the issued labels *)

Section FoldBackMore.

Context {P : Platform}.

Implicit Types (s : LabelTsdfIntegrator) (idx : BlockIndex) (b : Block).

(** X8.  After the fold-back the layer holds, at every coordinate, the block
    of the layer before when there was one, else the staged block: a staged
    block is installed where the layer had none and never replaces a block
    of the layer.  The counter, the ledger and the configuration are left as
    they were. *)
Theorem fold_back_keeps_layer_blocks (s : LabelTsdfIntegrator)
    (idx : BlockIndex) :
  label_layer_ (updateLabelLayerWithStoredBlocks s) !! idx =
    match label_layer_ s !! idx with
    | Some b => Some b
    | None => temp_label_block_map_ s !! idx
    end /\
  highest_label_ (updateLabelLayerWithStoredBlocks s) = highest_label_ s /\
  pairwise_confidence_ (updateLabelLayerWithStoredBlocks s)
    = pairwise_confidence_ s /\
  label_tsdf_config_ (updateLabelLayerWithStoredBlocks s)
    = label_tsdf_config_ s.
Proof.
  split; [|done]. unfold updateLabelLayerWithStoredBlocks. simpl.
  rewrite fold_back_layer, lookup_union.
  destruct (label_layer_ s !! idx) as [b|]; simpl.
  - by destruct (temp_label_block_map_ s !! idx).
  - by destruct (temp_label_block_map_ s !! idx).
Qed.

(** X9.  The fold-back is idempotent: a second fold-back right after the
    first changes nothing. *)
Theorem fold_back_idempotent (s : LabelTsdfIntegrator) :
  updateLabelLayerWithStoredBlocks (updateLabelLayerWithStoredBlocks s)
  = updateLabelLayerWithStoredBlocks s.
Proof.
  unfold updateLabelLayerWithStoredBlocks, set_temp_block_map, set_label_layer.
  simpl. f_equal. rewrite !fold_back_layer.
  apply map_eq. intros idx. rewrite !lookup_union.
  destruct (label_layer_ s !! idx), (temp_label_block_map_ s !! idx); done.
Qed.

Lemma allocate_issued v s :
  0 <= highest_label_ s -> labels_issued s ->
  labels_issued (allocateStorageAndGetLabelVoxelPtr v s).2 /\
  highest_label_ (allocateStorageAndGetLabelVoxelPtr v s).2 = highest_label_ s.
Proof.
  intros Hh [Hlayer Htemp]. unfold allocateStorageAndGetLabelVoxelPtr.
  destruct (label_layer_ s !! block_of_voxel v) as [b|] eqn:Hl; simpl.
  - split; [|done]. split; simpl; [|done].
    apply labels_bounded_insert; [done|]. intros w Hw. by eapply Hlayer.
  - destruct (temp_label_block_map_ s !! block_of_voxel v) as [b|] eqn:Ht;
      simpl; (split; [|done]); (split; simpl; [done|]);
      (apply labels_bounded_insert; [done|]); intros w Hw.
    + by eapply Htemp.
    + simpl in Hw. apply elem_of_replicate in Hw as [-> _]. done.
Qed.

Lemma integrateLabelVoxel_issued v L s s' :
  0 <= highest_label_ s -> labels_issued s ->
  integrateLabelVoxel v L s = Returns s' ->
  labels_issued s' /\ highest_label_ s <= highest_label_ s'.
Proof.
  intros Hh Hs. unfold integrateLabelVoxel.
  destruct (allocate_issued v s Hh Hs) as [Hs1 Hh1].
  destruct (allocateStorageAndGetLabelVoxelPtr v s) as [p s1]. simpl in *.
  intros Hupd. rewrite <- Hh1.
  eapply updateLabelVoxelAt_issued; [lia|done|done].
Qed.

Lemma swapLabels_issued o n s :
  n <= highest_label_ s -> labels_issued s -> labels_issued (swapLabels o n s).
Proof.
  intros Hn [Hlayer Htemp]. split; [|done]. simpl.
  intros idx b v Hb Hv. rewrite lookup_fmap in Hb.
  destruct (label_layer_ s !! idx) as [b0|] eqn:Hb0; [|done].
  injection Hb as <-. simpl in Hv.
  apply list_elem_of_fmap in Hv as [v0 [-> Hv0]].
  unfold swapLabels_voxel. destruct (label v0 =? o); simpl; [done|].
  by eapply Hlayer.
Qed.

Lemma labels_issued_counter s s' :
  label_layer_ s' = label_layer_ s ->
  temp_label_block_map_ s' = temp_label_block_map_ s ->
  highest_label_ s <= highest_label_ s' ->
  labels_issued s -> labels_issued s'.
Proof.
  intros Hl Ht Hh [Hlayer Htemp]. unfold labels_issued. rewrite Hl, Ht.
  split; by eapply labels_bounded_mono.
Qed.

(** With a label type of at least 32 bits the counter that passes the check
    of [getFreshLabel] does not wrap. *)
Lemma getFreshLabel_grows s fresh s' :
  32 <= label_bits -> 0 <= highest_label_ s ->
  getFreshLabel s = Returns (fresh, s') ->
  fresh = highest_label_ s + 1 /\ s' = set_highest_label fresh s.
Proof.
  intros Hbits Hh. unfold getFreshLabel, uint_max.
  destruct (Z.ltb_spec (highest_label_ s) (2 ^ 32 - 1)); [|done].
  assert (2 ^ 32 <= 2 ^ label_bits) by (apply Z.pow_le_mono_r; lia).
  rewrite wrap_small by lia. by intros [= <- <-].
Qed.

Lemma computeSegmentLabelCandidates_issued segs segment candidates s
    candidates' s' :
  32 <= label_bits -> 0 <= highest_label_ s -> labels_issued s ->
  computeSegmentLabelCandidates segs segment candidates s
    = Returns (candidates', s') ->
  labels_issued s' /\ highest_label_ s <= highest_label_ s'.
Proof.
  intros Hbits Hh Hs. unfold computeSegmentLabelCandidates.
  destruct (segs !! segment) as [seg|]; [|done].
  destruct (scan_segment s segment seg candidates) as [[ex cands] mcl].
  assert (Hs1 : forall s1,
    (if enable_pairwise_confidence_merging (label_tsdf_config_ s)
     then do pc <- increasePairwiseConfidenceCount (elements mcl)
                     (pairwise_confidence_ s);
          Returns (set_pairwise_confidence pc s)
     else Returns s) = Returns s1 ->
    label_layer_ s1 = label_layer_ s /\
    temp_label_block_map_ s1 = temp_label_block_map_ s /\
    highest_label_ s1 = highest_label_ s).
  { intros s1. destruct (enable_pairwise_confidence_merging _).
    - destruct (increasePairwiseConfidenceCount _ _); simpl; try done.
      by intros [= <-].
    - by intros [= <-]. }
  destruct (if enable_pairwise_confidence_merging _ then _ else _)
    as [s1| | |]; simpl; try done.
  destruct (Hs1 s1 eq_refl) as (Hl & Ht & Hh1).
  destruct ex.
  - intros [= _ <-]. split; [|lia].
    eapply labels_issued_counter; [done|done|lia|done].
  - destruct (getFreshLabel s1) as [[fresh s2]| | |] eqn:Hf; simpl; try done.
    apply getFreshLabel_grows in Hf as [-> ->]; [|done|lia].
    intros [= _ <-]. simpl. split; [|lia].
    apply (labels_issued_counter s); [done|done|simpl; lia|done].
Qed.

Lemma label_unclaimed_issued segments segs labelled s segs' labelled' s' :
  32 <= label_bits -> 0 <= highest_label_ s -> labels_issued s ->
  label_unclaimed segments segs labelled s = Returns (segs', labelled', s') ->
  labels_issued s' /\ highest_label_ s <= highest_label_ s'.
Proof.
  intros Hbits. revert segs labelled s.
  induction segments as [|segment rest IH]; simpl; intros segs labelled s Hh Hs.
  - intros [= _ _ <-]. split; [done|lia].
  - destruct (decide (segment ∈ labelled)); [by apply IH|].
    destruct (getFreshLabel s) as [[fresh s1]| | |] eqn:Hf; simpl; try done.
    apply getFreshLabel_grows in Hf as [-> ->]; [|done|done].
    destruct (segs !! segment); [|done].
    intros H. apply IH in H as [Hs' Hh']; simpl in *; [split; [done|lia]|lia|].
    apply (labels_issued_counter s); [done|done|simpl; lia|done].
Qed.

Lemma step_issued op s s' :
  32 <= label_bits -> 0 <= highest_label_ s -> labels_issued s ->
  swaps_within (highest_label_ s) op ->
  step op s = Returns s' ->
  labels_issued s' /\ highest_label_ s <= highest_label_ s'.
Proof.
  intros Hbits Hh Hs Hop. destruct op; simpl in *.
  - by apply integrateLabelVoxel_issued.
  - by apply updateLabelVoxelAt_issued.
  - intros [= <-]. split; [by apply fold_back_issued | done].
  - intros [= <-]. split; [by apply swapLabels_issued | done].
  - intros H. apply mergeLabels_returns in H as ->. split; [done|lia].
  - destruct (getFreshLabel s) as [[fresh s1]| | |] eqn:Hf; simpl; try done.
    apply getFreshLabel_grows in Hf as [-> ->]; [|done|done].
    intros [= <-]. simpl. split; [|lia].
    apply (labels_issued_counter s); [done|done|simpl; lia|done].
  - destruct (computeSegmentLabelCandidates _ _ _ _) as [[c s1]| | |] eqn:Hc;
      simpl; try done.
    intros [= <-]. by eapply computeSegmentLabelCandidates_issued.
  - unfold decideLabelPointClouds.
    destruct (claim_segments _ _ _ _) as [[[segs1 cands1] labelled1]| | |];
      simpl; try done.
    destruct (label_unclaimed _ _ _ _) as [[[segs2 labelled2] s2]| | |] eqn:Hl;
      simpl; try done.
    intros [= <-]. by eapply label_unclaimed_issued.
Qed.

(** X10.  With a label type of at least 32 bits, along every run of
    operations whose swaps write no label above the counter, every label of
    the layer and of the staged blocks stays at most the counter, and the
    counter never decreases. *)
Theorem labels_stay_issued (ops : list operation) (s s' : LabelTsdfIntegrator) :
  32 <= label_bits -> 0 <= highest_label_ s -> labels_issued s ->
  Forall (swaps_within (highest_label_ s)) ops ->
  run ops s = Returns s' ->
  labels_issued s' /\ highest_label_ s <= highest_label_ s'.
Proof.
  intros Hbits. revert s.
  induction ops as [|op ops IH]; simpl; intros s Hh Hs Hops.
  - intros [= <-]. split; [done|lia].
  - apply Forall_cons in Hops as [Hop Hops].
    destruct (step op s) as [s1| | |] eqn:Hstep; simpl; try done.
    apply step_issued in Hstep as [Hs1 Hh1]; [|done..].
    intros Hrun. apply IH in Hrun as [Hs' Hh']; [split; [done|lia]|lia|done|].
    eapply Forall_impl; [exact Hops|]. intros [] Hw; simpl in *; try done. lia.
Qed.

End FoldBackMore.


(** ** Swapping and merging labels *)

Section SwapMerge.

Context {P : Platform}.

Implicit Types (s : LabelTsdfIntegrator) (idx : BlockIndex) (b : Block).

Lemma count_label_swap (o n L : Z) (vs : list LabelVoxel) :
  o <> n ->
  length (filter (fun v => label v = L) (swapLabels_voxel o n <$> vs)) =
  if decide (L = o) then 0%nat
  else if decide (L = n)
       then (length (filter (fun v => label v = n) vs)
             + length (filter (fun v => label v = o) vs))%nat
       else length (filter (fun v => label v = L) vs).
Proof.
  intros Hne. induction vs as [|v vs IH].
  - simpl. by repeat case_decide.
  - rewrite fmap_cons, !filter_cons.
    assert (Hv : swapLabels_voxel o n v =
                 if label v =? o then mkLabelVoxel n (label_confidence v)
                 else v) by done.
    rewrite Hv. clear Hv.
    destruct (Z.eqb_spec (label v) o) as [Ho|Ho]; cbn [label];
      repeat case_decide; cbn [length]; rewrite ?IH;
      repeat case_decide; try lia; congruence.
Qed.

(** X11.  [swapLabels] with two distinct labels keeps the coordinates of
    the layer, the number of voxels of every block and every confidence; in
    every block no voxel holds the old label afterwards, the voxels that
    hold the new label are those that held the new or the old one, and the
    voxels of every other label are as many as before. *)
Theorem swapLabels_moves_voxels (old_label new_label : Z)
    (s : LabelTsdfIntegrator) (idx : BlockIndex) (b : Block) :
  old_label <> new_label ->
  label_layer_ s !! idx = Some b ->
  exists b',
    label_layer_ (swapLabels old_label new_label s) !! idx = Some b' /\
    label_confidence <$> voxels b' = label_confidence <$> voxels b /\
    count_label old_label b' = 0%nat /\
    count_label new_label b'
      = (count_label new_label b + count_label old_label b)%nat /\
    (forall L, L <> old_label -> L <> new_label ->
       count_label L b' = count_label L b) /\
    dom (label_layer_ (swapLabels old_label new_label s)) = dom (label_layer_ s).
Proof.
  intros Hne Hb. exists (swapLabels_block old_label new_label b).
  split; [|split; [|split; [|split; [|split]]]].
  - unfold swapLabels. simpl. by rewrite lookup_fmap, Hb.
  - simpl. rewrite <- list_fmap_compose. apply list_fmap_ext.
    intros i v _. simpl. unfold swapLabels_voxel.
    by destruct (label v =? old_label).
  - unfold count_label. simpl. rewrite count_label_swap by done.
    by rewrite decide_True.
  - unfold count_label. simpl. rewrite count_label_swap by done.
    rewrite decide_False by congruence. by rewrite decide_True.
  - intros L Ho Hn. unfold count_label. simpl.
    rewrite count_label_swap by done.
    rewrite decide_False by done. by rewrite decide_False.
  - unfold swapLabels. simpl. apply dom_fmap_L.
Qed.

(** X12.  [mergeLabels] either returns and has changed nothing, or its run
    is undefined; it returns exactly when pairwise merging is disabled or no
    count of the ledger is above the threshold. *)
Theorem mergeLabels_returns_iff (s : LabelTsdfIntegrator) :
  (mergeLabels s = Returns s \/ mergeLabels s = Undefined) /\
  (mergeLabels s = Returns s <->
   enable_pairwise_confidence_merging (label_tsdf_config_ s) = false \/
   forall first pairs second count,
     (first, pairs) ∈ pairwise_confidence_ s -> (second, count) ∈ pairs ->
     count <= pairwise_confidence_threshold (label_tsdf_config_ s)).
Proof.
  assert (Hmaps : forall maps,
    mergeLabels_maps maps s = Returns s \/ mergeLabels_maps maps s = Undefined).
  { induction maps as [|[l m] maps IH]; simpl; [by left|].
    destruct (mergeLabels_pairs_outcome l m s) as [-> | ->]; simpl;
      [done | by right]. }
  split.
  - unfold mergeLabels. destruct (enable_pairwise_confidence_merging _);
      [apply Hmaps | by left].
  - split.
    + intros Hret.
      destruct (enable_pairwise_confidence_merging (label_tsdf_config_ s))
        eqn:Hen; [right|by left].
      intros first pairs second count Hfirst Hsecond.
      destruct (Z.le_gt_cases count
                  (pairwise_confidence_threshold (label_tsdf_config_ s)))
        as [|Hgt]; [done|].
      rewrite (mergeLabels_undefined s first pairs second count) in Hret;
        [done|done|done|done|lia].
    + intros [Hdis|Hall]; unfold mergeLabels.
      * by rewrite Hdis.
      * destruct (enable_pairwise_confidence_merging _); [|done].
        assert (Hsub : forall e, e ∈ pairwise_confidence_ s
                                 -> e ∈ pairwise_confidence_ s) by done.
        revert Hsub. generalize (pairwise_confidence_ s) at 1 3.
        intros maps. induction maps as [|[l m] maps IH]; simpl; intros Hsub;
          [done|].
        assert (Hm : mergeLabels_pairs l m s = Returns s).
        { assert (Hin : (l, m) ∈ pairwise_confidence_ s).
          { apply Hsub. apply elem_of_cons. by left. }
          assert (Hsubm : forall e, e ∈ m -> e ∈ m) by done.
          revert Hsubm. generalize m at 1 3. intros entries.
          induction entries as [|[l2 c2] entries IHe]; simpl; intros Hsubm;
            [done|].
          destruct (Z.ltb_spec
                      (pairwise_confidence_threshold (label_tsdf_config_ s)) c2)
            as [Hlt|].
          - assert (c2 <= pairwise_confidence_threshold (label_tsdf_config_ s)).
            { eapply (Hall l m l2 c2); [done|]. apply Hsubm.
              apply elem_of_cons. by left. }
            lia.
          - apply IHe. intros e He. apply Hsubm. apply elem_of_cons.
            by right. }
        rewrite Hm. simpl. apply IH. intros e He. apply Hsub.
        apply elem_of_cons. by right.
Qed.

(** X13.  The body of the merge loop for a pair of distinct labels: after
    it no voxel of the layer holds the first label of the pair, the ledger
    has no entry for the pair, and every other entry of the ledger is as it
    was. *)
Theorem merge_pair_removes_pair (first second : Z) (s : LabelTsdfIntegrator) :
  first <> second ->
  (forall idx b v,
     label_layer_ (merge_pair first second s) !! idx = Some b ->
     v ∈ voxels b -> label v <> first) /\
  ledger_entry (pairwise_confidence_ (merge_pair first second s)) first second
    = None /\
  (forall x y : Z, (x, y) <> (first, second) ->
     ledger_entry (pairwise_confidence_ (merge_pair first second s)) x y
     = ledger_entry (pairwise_confidence_ s) x y).
Proof.
  intros Hne. destruct (merge_pair_effect first second s Hne) as [Hv He].
  split; [done|]. split; [done|].
  intros x y Hab. unfold merge_pair. simpl.
  destruct (SMap.find first (pairwise_confidence_ s)) as [pairs|] eqn:Hf;
    simpl; [|done].
  unfold ledger_entry. rewrite SMapFacts.find_assign.
  destruct (Z.eqb_spec x first) as [->|Ha]; [|done].
  rewrite Hf. simpl. rewrite SMapFacts.find_erase.
  destruct (Z.eqb_spec y second) as [->|Hb]; [done | done].
Qed.

End SwapMerge.


(** ** What a scan records *)

Section ScanCounts.

Context {P : Platform}.

Implicit Types (candidates : SMap.t (SMap.t Z)) (mcl : gset Z).

Lemma scan_point_label cfg layer segment T n ex candidates mcl p :
  scan_point cfg layer segment T n (ex, candidates, mcl) p =
  if point_label layer T p =? 0 then (ex, candidates, mcl)
  else
    let r := increaseLabelCountForSegment cfg segment (point_label layer T p)
               n candidates mcl in
    (true, r.1, r.2).
Proof.
  unfold scan_point, point_label.
  destruct (layer !! block_of_point (transform T p)) as [b|]; [|done].
  destruct (_ =? 0); [done|].
  by destruct (increaseLabelCountForSegment _ _ _ _ _ _).
Qed.

(** One overlap unit raises the count of its label and segment by one, from
    0 where there was no entry, and leaves every other entry. *)
Lemma increase_entry cfg segment lbl n candidates mcl l p :
  ledger_entry
    (increaseLabelCountForSegment cfg segment lbl n candidates mcl).1 l p =
  if (l =? lbl) && (p =? segment)
  then Some (wrap size_t_bits (ledger_count candidates lbl segment + 1))
  else ledger_entry candidates l p.
Proof.
  unfold increaseLabelCountForSegment, ledger_count, ledger_entry.
  destruct (SMap.find lbl candidates) as [segments|] eqn:Hl.
  - destruct (SMap.find segment segments) as [count|] eqn:Hs; simpl.
    + rewrite SMapFacts.find_assign.
      destruct (Z.eqb_spec l lbl) as [->|Hne]; simpl; [|done].
      rewrite Hl. simpl. rewrite SMapFacts.find_assign.
      destruct (Z.eqb_spec p segment) as [->|Hne]; simpl; [|done].
      by rewrite Hs.
    + rewrite SMapFacts.find_assign.
      destruct (Z.eqb_spec l lbl) as [->|Hne]; simpl; [|done].
      rewrite Hl. simpl. rewrite SMapFacts.find_emplace.
      destruct (Z.eqb_spec p segment) as [->|Hne]; simpl; [|done].
      by rewrite Hs.
  - simpl. rewrite SMapFacts.find_emplace.
    destruct (Z.eqb_spec l lbl) as [->|Hne]; simpl.
    + rewrite Hl. simpl.
      destruct (Z.eqb_spec segment p) as [->|Hne].
      * by rewrite Z.eqb_refl.
      * destruct (Z.eqb_spec p segment); [congruence | done].
    + done.
Qed.

(** The overlap unit is compared with the threshold only when the entry was
    there before. *)
Lemma increase_merge_candidates cfg segment lbl n candidates mcl :
  (increaseLabelCountForSegment cfg segment lbl n candidates mcl).2 =
  if enable_pairwise_confidence_merging cfg
     && bool_decide (is_Some (ledger_entry candidates lbl segment))
     && ratio_gt
          (int_of_size_t
             (wrap size_t_bits (ledger_count candidates lbl segment + 1)))
          n (pairwise_confidence_ratio_threshold cfg)
  then {[lbl]} ∪ mcl else mcl.
Proof.
  unfold increaseLabelCountForSegment, ledger_count, ledger_entry,
    checkForSegmentLabelMergeCandidate.
  destruct (SMap.find lbl candidates) as [segments|] eqn:Hl; simpl.
  - destruct (SMap.find segment segments) as [count|] eqn:Hs; simpl.
    + rewrite ?bool_decide_eq_true_2 by eauto.
      by destruct (enable_pairwise_confidence_merging cfg).
    + rewrite ?bool_decide_eq_false_2 by (intros [? ?]; done).
      by rewrite ?andb_false_r.
  - rewrite ?bool_decide_eq_false_2 by (intros [? ?]; done).
    by rewrite ?andb_false_r.
Qed.

Lemma scan_entry cfg layer segment T n L points ex candidates mcl :
  L <> 0 ->
  0 <= ledger_count candidates L segment ->
  ledger_count candidates L segment + Z.of_nat (length points)
    < 2 ^ size_t_bits ->
  ledger_entry
    (foldl (scan_point cfg layer segment T n) (ex, candidates, mcl) points).1.2
    L segment =
  if decide (hits layer T points L = 0%nat)
  then ledger_entry candidates L segment
  else Some (ledger_count candidates L segment
             + Z.of_nat (hits layer T points L)).
Proof.
  intros HL. revert ex candidates mcl.
  induction points as [|p points IH]; intros ex candidates mcl Hpos Hroom.
  - done.
  - cbn [foldl]. rewrite scan_point_label. unfold hits in *.
    rewrite filter_cons. rewrite length_cons in Hroom.
    destruct (decide (point_label layer T p = L)) as [Hp|Hp].
    + destruct (Z.eqb_spec (point_label layer T p) 0) as [H0|H0];
        [congruence|].
      cbv zeta.
      set (r := increaseLabelCountForSegment cfg segment (point_label layer T p)
                  n candidates mcl).
      pose proof (increase_entry cfg segment (point_label layer T p) n
                    candidates mcl L segment) as He. fold r in He.
      rewrite Hp, !Z.eqb_refl in He. simpl in He.
      rewrite wrap_small in He by lia.
      assert (Hc : ledger_count r.1 L segment
                   = ledger_count candidates L segment + 1).
      { unfold ledger_count at 1. by rewrite He. }
      rewrite IH by (rewrite Hc; lia). rewrite Hc, He. cbn [length].
      rewrite (decide_False (P := S _ = 0%nat)) by done.
      case_decide as Hz; [rewrite Hz|]; f_equal; lia.
    + destruct (Z.eqb_spec (point_label layer T p) 0) as [H0|H0];
        [apply IH; [done|lia]|].
      cbv zeta.
      set (r := increaseLabelCountForSegment cfg segment (point_label layer T p)
                  n candidates mcl).
      pose proof (increase_entry cfg segment (point_label layer T p) n
                    candidates mcl L segment) as He. fold r in He.
      destruct (Z.eqb_spec L (point_label layer T p)) as [|_];
        [congruence|]. simpl in He.
      assert (Hc : ledger_count r.1 L segment
                   = ledger_count candidates L segment).
      { unfold ledger_count. by rewrite He. }
      rewrite IH by (rewrite Hc; lia). by rewrite Hc, He.
Qed.

Lemma scan_other_segment cfg layer segment T n points ex candidates mcl l p :
  p <> segment ->
  ledger_entry
    (foldl (scan_point cfg layer segment T n) (ex, candidates, mcl) points).1.2
    l p = ledger_entry candidates l p.
Proof.
  intros Hp. revert ex candidates mcl.
  induction points as [|q points IH]; intros ex candidates mcl; [done|].
  cbn [foldl]. rewrite scan_point_label.
  destruct (point_label layer T q =? 0); [apply IH|].
  cbv zeta. rewrite IH, increase_entry.
  destruct (Z.eqb_spec p segment); [done|]. by rewrite andb_false_r.
Qed.

(** X14.  A scan counts the points of the segment per label: for a label
    other than 0, the count that the table holds for the label and the
    segment grows by the number of points that fall into voxels of that
    label, an entry being created when there was none and at least one
    point falls into such a voxel; the entries of other segments are left
    as they were. *)
Theorem scan_counts_points (s : LabelTsdfIntegrator) (segment : Z)
    (seg : Segment) (candidates : SMap.t (SMap.t Z)) (L : Z) :
  L <> 0 ->
  0 <= ledger_count candidates L segment ->
  ledger_count candidates L segment + Z.of_nat (length (points_C_ seg))
    < 2 ^ size_t_bits ->
  let table := (scan_segment s segment seg candidates).1.2 in
  let n := hits (label_layer_ s) (T_G_C_ seg) (points_C_ seg) L in
  ledger_entry table L segment =
    (if decide (n = 0%nat) then ledger_entry candidates L segment
     else Some (ledger_count candidates L segment + Z.of_nat n)) /\
  (forall l p, p <> segment ->
     ledger_entry table l p = ledger_entry candidates l p).
Proof.
  intros HL Hpos Hroom. unfold scan_segment. split.
  - by apply scan_entry.
  - intros l p Hp. by apply scan_other_segment.
Qed.

End ScanCounts.


(** ** The merge candidates of a scan *)

Section ScanMergeCandidates.

Context {P : Platform}.

Implicit Types (candidates : SMap.t (SMap.t Z)) (mcl : gset Z).

Lemma scan_merge_set cfg layer segment T n L points ex candidates mcl c :
  L <> 0 ->
  (ledger_entry candidates L segment = None /\ c = 0) \/
    (ledger_entry candidates L segment = Some c /\ 1 <= c) ->
  c + Z.of_nat (length points) < 2 ^ size_t_bits ->
  L ∈ (foldl (scan_point cfg layer segment T n) (ex, candidates, mcl) points).2
  <->
  L ∈ mcl \/
  (enable_pairwise_confidence_merging cfg = true /\
   exists j, c < j <= c + Z.of_nat (hits layer T points L) /\ 2 <= j /\
     ratio_gt (int_of_size_t j) n (pairwise_confidence_ratio_threshold cfg)
       = true).
Proof.
  intros HL. revert ex candidates mcl c.
  induction points as [|p points IH]; intros ex candidates mcl c Hentry Hroom.
  - simpl. split; [by left|]. intros [H|(_ & j & Hj & _)]; [done|].
    unfold hits in Hj. simpl in Hj. lia.
  - cbn [foldl]. rewrite scan_point_label. unfold hits in *.
    rewrite filter_cons. rewrite length_cons in Hroom.
    assert (Hcount : ledger_count candidates L segment = c).
    { unfold ledger_count. destruct Hentry as [[-> ->]|[-> _]]; done. }
    destruct (decide (point_label layer T p = L)) as [Hp|Hp].
    + destruct (Z.eqb_spec (point_label layer T p) 0) as [H0|H0];
        [congruence|].
      cbv zeta. rewrite Hp.
      set (r := increaseLabelCountForSegment cfg segment L n candidates mcl).
      pose proof (increase_entry cfg segment L n candidates mcl L segment)
        as He. fold r in He. rewrite !Z.eqb_refl in He. simpl in He.
      rewrite Hcount, wrap_small in He by (destruct Hentry; lia).
      pose proof (increase_merge_candidates cfg segment L n candidates mcl)
        as Hm. fold r in Hm.
      rewrite Hcount, wrap_small in Hm by (destruct Hentry; lia).
      rewrite (IH true r.1 r.2 (c + 1)); [|right; split; [done|]|];
        [|destruct Hentry; lia|lia].
      cbn [length]. rewrite Hm. clear IH He Hm.
      destruct (enable_pairwise_confidence_merging cfg) eqn:Hen; simpl.
      * case_bool_decide as Hsome; simpl.
        -- assert (1 <= c).
           { destruct Hentry as [[Hn _]|[_ ?]]; [|done].
             rewrite Hn in Hsome. by destruct Hsome. }
           destruct (ratio_gt (int_of_size_t (c + 1)) n _) eqn:Hr.
           ++ rewrite elem_of_union, elem_of_singleton. split.
              ** intros [[_|H']|(_ & j & Hj & H2 & Hrj)].
                 --- right. split; [done|]. exists (c + 1).
                     split; [lia|]. split; [lia|done].
                 --- by left.
                 --- right. split; [done|]. exists j.
                     split; [lia|]. by split.
              ** intros [H'|(_ & j & Hj & H2 & Hrj)];
                   [left; by right | left; by left].
           ++ split.
              ** intros [H'|(_ & j & Hj & H2 & Hrj)]; [by left|].
                 right. split; [done|]. exists j. split; [lia|]. by split.
              ** intros [H'|(_ & j & Hj & H2 & Hrj)]; [by left|].
                 right. split; [done|]. exists j.
                 split; [|by split].
                 destruct (Z.eq_dec j (c + 1)) as [->|]; [congruence|lia].
        -- assert (c = 0).
           { destruct Hentry as [[_ ?]|[Hs _]]; [done|].
             exfalso. apply Hsome. rewrite Hs. eauto. }
           subst c. split.
           ++ intros [H'|(_ & j & Hj & H2 & Hrj)]; [by left|].
              right. split; [done|]. exists j. split; [lia|]. by split.
           ++ intros [H'|(_ & j & Hj & H2 & Hrj)]; [by left|].
              right. split; [done|]. exists j. split; [lia|]. by split.
      * split; (intros [H'|(Hf & _)]; [by left | done]).
    + destruct (Z.eqb_spec (point_label layer T p) 0) as [H0|H0];
        [by apply IH; [|lia]|].
      cbv zeta.
      set (r := increaseLabelCountForSegment cfg segment (point_label layer T p)
                  n candidates mcl).
      pose proof (increase_entry cfg segment (point_label layer T p) n
                    candidates mcl L segment) as He. fold r in He.
      destruct (Z.eqb_spec L (point_label layer T p)) as [|_];
        [congruence|]. simpl in He.
      pose proof (increase_merge_candidates cfg segment
                    (point_label layer T p) n candidates mcl) as Hm.
      fold r in Hm.
      rewrite (IH true r.1 r.2 c); [|by rewrite He|lia].
      assert (Hmem : L ∈ r.2 <-> L ∈ mcl).
      { rewrite Hm. destruct (_ && _); [|done].
        rewrite elem_of_union, elem_of_singleton. split; [|by right].
        intros [?|?]; [congruence | done]. }
      by rewrite Hmem.
Qed.

(** X15.  With pairwise merging enabled, a label other than 0 that the
    table did not hold for the segment is a merge candidate after the scan
    exactly when one of its overlap units from the second on brought its
    count above the ratio threshold: the first unit is never compared.
    With pairwise merging disabled the set stays empty. *)
Theorem scan_merge_candidates (s : LabelTsdfIntegrator) (segment : Z)
    (seg : Segment) (candidates : SMap.t (SMap.t Z)) (L : Z) :
  L <> 0 ->
  ledger_entry candidates L segment = None ->
  Z.of_nat (length (points_C_ seg)) < 2 ^ size_t_bits ->
  L ∈ (scan_segment s segment seg candidates).2
  <->
  enable_pairwise_confidence_merging (label_tsdf_config_ s) = true /\
  exists j,
    2 <= j <= Z.of_nat (hits (label_layer_ s) (T_G_C_ seg) (points_C_ seg) L) /\
    ratio_gt (int_of_size_t j)
      (int_of_size_t (Z.of_nat (length (points_C_ seg))))
      (pairwise_confidence_ratio_threshold (label_tsdf_config_ s)) = true.
Proof.
  intros HL Hnone Hroom. unfold scan_segment.
  rewrite (scan_merge_set _ _ _ _ _ L _ _ _ _ 0); [|done|by left|lia].
  split.
  - intros [H|(Hen & j & Hj & H2 & Hr)]; [by apply not_elem_of_empty in H|].
    split; [done|]. exists j. split; [lia|done].
  - intros (Hen & j & Hj & Hr). right. split; [done|]. exists j.
    split; [lia|]. split; [lia|done].
Qed.

End ScanMergeCandidates.


(** ** The maximum of the greedy resolver *)

Section GreedyMaximum.

Context {P : Platform}.

Implicit Types (candidates : SMap.t (SMap.t Z)) (labelled : gset Z).

Lemma elem_of_table_entries candidates l p c :
  (l, p, c) ∈ table_entries candidates <->
  exists segments, (l, segments) ∈ candidates /\ (p, c) ∈ segments.
Proof.
  unfold table_entries. rewrite list_elem_of_In, in_flat_map. split.
  - intros ([l' segments] & Hl & Hp). apply in_map_iff in Hp as ([p' c'] & Heq & Hp).
    simpl in Heq. injection Heq as -> -> ->.
    exists segments. by rewrite !list_elem_of_In.
  - intros (segments & Hl & Hp). exists (l, segments).
    split; [by apply list_elem_of_In|]. apply in_map_iff.
    exists (p, c). split; [done|]. by apply list_elem_of_In.
Qed.

(** One step of the two loops on an entry of the table. *)
Lemma visit_table_entries labelled candidates best :
  foldl (visit_label labelled) best candidates
  = foldl (fun best e => visit_pair labelled e.1.1 best (e.1.2, e.2)) best
      (table_entries candidates).
Proof.
  revert best. induction candidates as [|[l segments] rest IH]; intros best;
    [done|].
  unfold table_entries in *. cbn [foldl flat_map]. rewrite foldl_app, IH.
  f_equal. unfold visit_label. cbn [fst snd]. clear IH. revert best.
  induction segments as [|[p c] segments IH]; intros best; [done|].
  cbn [foldl map]. by rewrite IH.
Qed.

Lemma maximum_of_step labelled visited best l p c :
  maximum_of labelled visited best ->
  maximum_of labelled (visited ++ [(l, p, c)])
    (visit_pair labelled l best (p, c)).
Proof.
  intros (Hpos & Hnone & Hmax & Hsome). unfold maximum_of, visit_pair.
  cbn [fst snd].
  destruct (Z.ltb_spec best.1 c) as [Hlt|Hge]; simpl.
  - case_bool_decide as Hfree; simpl.
    + split; [lia|]. split; [done|]. split.
      * intros l' p' c' Hin Hp'. apply elem_of_app in Hin as [Hin|Hin].
        -- specialize (Hmax _ _ _ Hin Hp'). lia.
        -- apply list_elem_of_singleton in Hin. injection Hin as -> -> ->. lia.
      * intros p' l' [= <- <-]. split; [lia|]. split; [done|].
        exists visited, []. split; [done|].
        intros l' p' c' Hin Hp'. specialize (Hmax _ _ _ Hin Hp'). lia.
    + split; [done|]. split; [done|]. split.
      * intros l' p' c' Hin Hp'. apply elem_of_app in Hin as [Hin|Hin].
        -- by apply (Hmax l' p').
        -- apply list_elem_of_singleton in Hin. injection Hin as -> -> ->.
           done.
      * intros p' l' Hbest.
        destruct (Hsome _ _ Hbest) as (H0 & Hp' & pre & post & -> & Hpre).
        split; [done|]. split; [done|].
        exists pre, (post ++ [(l, p, c)]). split; [|done].
        by rewrite <- app_assoc.
  - split; [done|]. split; [done|]. split.
    + intros l' p' c' Hin Hp'. apply elem_of_app in Hin as [Hin|Hin].
      * by apply (Hmax l' p').
      * apply list_elem_of_singleton in Hin. injection Hin as -> -> ->. lia.
    + intros p' l' Hbest.
      destruct (Hsome _ _ Hbest) as (H0 & Hp' & pre & post & -> & Hpre).
      split; [done|]. split; [done|].
      exists pre, (post ++ [(l, p, c)]). split; [|done].
      by rewrite <- app_assoc.
Qed.

Lemma maximum_of_entries labelled visited rest best :
  maximum_of labelled visited best ->
  maximum_of labelled (visited ++ rest)
    (foldl (fun best e => visit_pair labelled e.1.1 best (e.1.2, e.2)) best
       rest).
Proof.
  revert visited best.
  induction rest as [|[[l p] c] rest IH]; intros visited best Hbest.
  - by rewrite app_nil_r.
  - cbn [foldl fst snd].
    replace (visited ++ (l, p, c) :: rest)
      with ((visited ++ [(l, p, c)]) ++ rest) by by rewrite <- app_assoc.
    apply IH. by apply maximum_of_step.
Qed.

Lemma maximum_of_table labelled candidates :
  maximum_of labelled (table_entries candidates)
    (foldl (visit_label labelled) (0, None) candidates).
Proof.
  rewrite visit_table_entries.
  apply (maximum_of_entries labelled [] (table_entries candidates) (0, None)).
  split; [done|]. split; [done|]. split.
  - intros l p c Hin. by apply elem_of_nil in Hin.
  - by intros p l.
Qed.

(** X16.  The pair that [getNextSegmentLabelPair] returns has a positive
    count, its segment is not claimed, no entry of an unclaimed segment has a
    larger count, and among the entries with that count it is the first in
    the order of the table: labels in increasing order, the segments of a
    label in increasing order. *)
Theorem getNextSegmentLabelPair_maximum candidates labelled (p l : Z) :
  getNextSegmentLabelPair candidates labelled = Some (p, l) ->
  exists count pre post,
    table_entries candidates = pre ++ ((l, p, count) :: post) /\
    0 < count /\ (p ∉ labelled) /\
    (forall l' p' c', (l', p', c') ∈ pre -> p' ∉ labelled -> c' < count) /\
    (forall l' p' c', (l', p', c') ∈ post -> p' ∉ labelled -> c' <= count).
Proof.
  unfold getNextSegmentLabelPair.
  pose proof (maximum_of_table labelled candidates) as Hbest.
  destruct (foldl (visit_label labelled) (0, None) candidates) as [m o].
  destruct Hbest as (Hpos & Hnone & Hmax & Hsome). simpl in *.
  destruct (Z.eqb_spec m 0); [done|]. intros ->.
  destruct (Hsome p l eq_refl) as (H0 & Hp & pre & post & Heq & Hpre).
  exists m, pre, post. split; [done|]. split; [done|]. split; [done|].
  split; [done|]. intros l' p' c' Hin. apply (Hmax l' p').
  rewrite Heq. apply elem_of_app. right. apply elem_of_cons. by right.
Qed.

(** X17.  [getNextSegmentLabelPair] returns no pair exactly when every
    entry of the table belongs to a claimed segment or has count 0: an
    entry with count 0 is never claimed. *)
Theorem getNextSegmentLabelPair_none candidates labelled :
  getNextSegmentLabelPair candidates labelled = None <->
  forall l segments p c,
    (l, segments) ∈ candidates -> (p, c) ∈ segments -> p ∉ labelled -> c <= 0.
Proof.
  unfold getNextSegmentLabelPair.
  pose proof (maximum_of_table labelled candidates) as Hbest.
  destruct (foldl (visit_label labelled) (0, None) candidates) as [m o].
  destruct Hbest as (Hpos & Hnone & Hmax & Hsome). simpl in *.
  split.
  - intros Hret l segments p c Hl Hp Hfree.
    assert (m = 0) as ->.
    { destruct (Z.eqb_spec m 0); [done|]. by apply Hnone. }
    apply (Hmax l p); [|done]. apply elem_of_table_entries. eauto.
  - intros Hall. destruct (Z.eqb_spec m 0); [done|].
    destruct o as [[p l]|]; [|done]. exfalso.
    destruct (Hsome p l eq_refl) as (H0 & Hp & pre & post & Heq & _).
    assert (Hin : (l, p, m) ∈ table_entries candidates).
    { rewrite Heq. apply elem_of_app. right. apply elem_of_cons. by left. }
    apply elem_of_table_entries in Hin as (segments & Hl & Hin).
    specialize (Hall _ _ _ _ Hl Hin Hp). lia.
Qed.

End GreedyMaximum.


(** ** A segment on unobserved ground *)

Section UnobservedSegment.

Context {P : Platform}.

Implicit Types (s : LabelTsdfIntegrator) (segs : gmap Z Segment).

(** A point on a voxel without label leaves the scan as it was. *)
Lemma scan_no_hits cfg layer segment T n points (acc : scan_state) :
  (forall p, p ∈ points -> point_label layer T p = 0) ->
  foldl (scan_point cfg layer segment T n) acc points = acc.
Proof.
  revert acc. induction points as [|p points IH]; intros acc Hnone; [done|].
  cbn [foldl]. destruct acc as [[ex candidates] mcl].
  rewrite scan_point_label, Hnone by (apply elem_of_cons; by left).
  simpl. apply IH. intros q Hq. apply Hnone. apply elem_of_cons. by right.
Qed.

Lemma fresh_label s :
  0 <= highest_label_ s -> highest_label_ s < uint_max ->
  highest_label_ s < label_max ->
  getFreshLabel s
  = Returns (highest_label_ s + 1, set_highest_label (highest_label_ s + 1) s).
Proof.
  intros Hpos Hroom Hwrap. unfold getFreshLabel.
  destruct (Z.ltb_spec (highest_label_ s) uint_max); [|lia].
  by rewrite wrap_small by (unfold label_max in Hwrap; lia).
Qed.

Lemma getNextSegmentLabelPair_zero_entry (l p : Z) (labelled : gset Z) :
  getNextSegmentLabelPair [(l, [(p, 0)])] labelled = None.
Proof. reflexivity. Qed.

Lemma getNextSegmentLabelPair_one_entry (l p c : Z) (labelled : gset Z) :
  0 < c -> p ∉ labelled ->
  getNextSegmentLabelPair [(l, [(p, c)])] labelled = Some (p, l).
Proof.
  intros Hc Hp. unfold getNextSegmentLabelPair, visit_label, visit_pair.
  cbn [foldl fst snd].
  destruct (Z.ltb_spec 0 c); [|lia].
  rewrite bool_decide_eq_true_2 by done. cbn [andb fst snd].
  by destruct (Z.eqb_spec c 0); [lia|].
Qed.

Lemma claim_segments_zero_entry fuel segs (l p : Z) (labelled : gset Z) :
  claim_segments fuel segs [(l, [(p, 0)])] labelled
  = Returns (segs, [(l, [(p, 0)])], labelled).
Proof.
  destruct fuel; cbn [claim_segments];
    by rewrite getNextSegmentLabelPair_zero_entry.
Qed.

Lemma claim_segments_one_entry segs (l p c : Z) (seg : Segment) :
  0 < c -> segs !! p = Some seg ->
  claim_segments 1 segs [(l, [(p, c)])] ∅
  = Returns (<[p := push_labels l seg]> segs, [], {[p]} ∪ ∅).
Proof.
  intros Hc Hseg. cbn [claim_segments].
  rewrite getNextSegmentLabelPair_one_entry, Hseg
    by (done || apply not_elem_of_empty).
  cbn [SMap.erase]. by rewrite Z.eqb_refl.
Qed.

(** X18.  A segment none of whose points falls on a labelled voxel, scanned
    into an empty table and resolved alone: both calls return, and the
    segment has got the value of the counter at return once per point.  A
    segment with points moves the counter by one.  A segment without points
    moves it by two: the scan mints a label for an entry of count 0, which
    the resolver never claims, and the resolver mints a second one. *)
Theorem unobserved_segment_labelled segs (segment : Z) (seg : Segment) s :
  segs !! segment = Some seg ->
  (forall p, p ∈ points_C_ seg ->
     point_label (label_layer_ s) (T_G_C_ seg) p = 0) ->
  0 <= highest_label_ s ->
  highest_label_ s + 2 <= uint_max ->
  highest_label_ s + 2 <= label_max ->
  exists candidates1 s1 segs' candidates' s',
    computeSegmentLabelCandidates segs segment [] s
      = Returns (candidates1, s1) /\
    decideLabelPointClouds [segment] candidates1 segs s1
      = Returns (segs', candidates', s') /\
    segs' !! segment = Some (push_labels (highest_label_ s') seg) /\
    highest_label_ s'
      = highest_label_ s + (if decide (points_C_ seg = []) then 2 else 1).
Proof.
  intros Hseg Hnone Hpos Hroom Hwrap.
  unfold computeSegmentLabelCandidates. rewrite Hseg.
  unfold scan_segment. rewrite scan_no_hits by done. cbv zeta.
  assert (Hledger : exists s0,
    (if enable_pairwise_confidence_merging (label_tsdf_config_ s)
     then do pc <- increasePairwiseConfidenceCount (elements (∅ : gset Z))
                     (pairwise_confidence_ s);
          Returns (set_pairwise_confidence pc s)
     else Returns s) = Returns s0 /\ highest_label_ s0 = highest_label_ s).
  { destruct (enable_pairwise_confidence_merging _); [|by exists s].
    rewrite elements_empty. simpl. by eexists. }
  destruct Hledger as (s0 & -> & Hh0). cbn [bind].
  rewrite fresh_label by lia. cbn [bind]. rewrite Hh0.
  set (h := highest_label_ s) in *.
  set (s1 := set_highest_label (h + 1) s0).
  assert (Hh1 : highest_label_ s1 = h + 1) by done.
  unfold decideLabelPointClouds.
  unfold SMap.emplace at 1 2. cbn [SMap.find SMap.place].
  destruct (points_C_ seg) as [|p points] eqn:Hpoints.
  - (* no points: the entry has count 0 *)
    eexists _, s1, _, _, _. split; [reflexivity|].
    change (Z.of_nat (length [])) with 0.
    rewrite claim_segments_zero_entry. cbn [bind label_unclaimed].
    destruct (decide (segment ∈ (∅ : gset Z))) as [Hin|_];
      [by apply not_elem_of_empty in Hin|].
    rewrite fresh_label by (rewrite Hh1; lia). cbn [bind]. rewrite Hseg, Hh1.
    split; [reflexivity|].
    rewrite lookup_insert_eq. split; [done|].
    rewrite decide_True by done. simpl. lia.
  - eexists _, s1, _, _, _. split; [reflexivity|].
    change (length [(h + 1, [(segment, Z.of_nat (length (p :: points)))])])
      with 1%nat.
    rewrite (claim_segments_one_entry _ _ _ _ seg) by (simpl; lia || done).
    cbn [bind label_unclaimed].
    destruct (decide (segment ∈ ({[segment]} ∪ ∅ : gset Z))) as [_|Hout].
    + split; [reflexivity|].
      rewrite lookup_insert_eq, Hh1. split; [done|].
      rewrite decide_False by done. lia.
    + exfalso. apply Hout. apply elem_of_union. left.
      by apply elem_of_singleton.
Qed.

End UnobservedSegment.


(** ** One label per segment of a batch *)

Section GreedyDistinct.

Context {P : Platform}.

Implicit Types (candidates : SMap.t (SMap.t Z)) (segs : gmap Z Segment)
  (labelled : gset Z) (s : LabelTsdfIntegrator) (f : Z -> Z).

Lemma find_elem_of {V : Type} (k : Z) (v : V) (m : SMap.t V) :
  (k, v) ∈ m -> is_Some (SMap.find k m).
Proof.
  induction m as [|[j w] m IH]; intros Hin; [by apply elem_of_nil in Hin|].
  simpl. destruct (Z.eqb_spec j k); [eauto|].
  apply elem_of_cons in Hin as [Hin|Hin]; [congruence | by apply IH].
Qed.

Lemma assigned_claim segs0 segs labelled f p seg l :
  assigned segs0 segs labelled f ->
  segs !! p = Some seg -> p ∉ labelled ->
  (forall q, q ∈ labelled -> f q <> l) ->
  assigned segs0 (<[p := push_labels l seg]> segs) ({[p]} ∪ labelled)
    (fun q => if decide (q = p) then l else f q).
Proof.
  intros (Hin & Hout & Hinj) Hseg Hfree Hnew.
  assert (Hmem : forall q, q ∈ {[p]} ∪ labelled <-> q = p \/ q ∈ labelled).
  { intros q. by rewrite elem_of_union, elem_of_singleton. }
  split; [|split].
  - intros q Hq. apply Hmem in Hq. destruct (decide (q = p)) as [->|Hne].
    + exists seg. rewrite lookup_insert_eq. split; [|done].
      by rewrite <- (Hout p Hfree).
    + destruct Hq as [|Hq]; [done|]. rewrite lookup_insert_ne by done.
      by apply Hin.
  - intros q Hq. rewrite Hmem in Hq.
    rewrite lookup_insert_ne by (intros ->; tauto). apply Hout. tauto.
  - intros q1 q2 Hq1 Hq2. apply Hmem in Hq1, Hq2.
    destruct (decide (q1 = p)) as [->|H1], (decide (q2 = p)) as [->|H2];
      [done| | |].
    + intros Heq. destruct Hq2 as [|Hq2]; [done|]. by destruct (Hnew q2 Hq2).
    + intros Heq. destruct Hq1 as [|Hq1]; [done|]. by destruct (Hnew q1 Hq1).
    + destruct Hq1 as [|Hq1]; [done|]. destruct Hq2 as [|Hq2]; [done|].
      by apply Hinj.
Qed.

(** The [while] loop: a label that is claimed leaves the table, so no
    later turn claims it again. *)
Lemma claim_segments_assigned (h : Z) segs0 fuel segs candidates labelled f :
  (length candidates <= fuel)%nat ->
  segments_valid candidates segs ->
  assigned segs0 segs labelled f ->
  (forall p, p ∈ labelled -> f p <= h /\ SMap.find (f p) candidates = None) ->
  (forall l m, (l, m) ∈ candidates -> l <= h) ->
  exists segs' candidates' labelled' f',
    claim_segments fuel segs candidates labelled
      = Returns (segs', candidates', labelled') /\
    assigned segs0 segs' labelled' f' /\
    (forall p, p ∈ labelled' -> f' p <= h).
Proof.
  revert segs candidates labelled f.
  induction fuel as [|fuel IH]; intros segs candidates labelled f Hfuel
    Hvalid Hinv Hgone Hkeys; simpl.
  - destruct candidates; [|simpl in Hfuel; lia].
    eexists _, _, _, f. split; [done|]. split; [done|].
    intros p Hp. by apply Hgone.
  - destruct (getNextSegmentLabelPair candidates labelled) as [[p l]|]
      eqn:Hnext.
    2:{ eexists _, _, _, f. split; [done|]. split; [done|].
        intros p Hp. by apply Hgone. }
    apply getNextSegmentLabelPair_sound in Hnext as [Hover Hfree].
    simpl in Hover, Hfree.
    destruct Hover as (segments & count & Hl & Hp & Hcount).
    destruct (Hvalid _ _ _ _ Hl Hp) as [seg Hseg]. rewrite Hseg.
    apply (IH _ _ _ (fun q => if decide (q = p) then l else f q)).
    + pose proof (SMapFacts.length_erase_lt _ _ _ Hl). lia.
    + by apply segments_valid_step.
    + apply assigned_claim; [done|done|done|].
      intros q Hq Heq. destruct (Hgone q Hq) as [_ Hnone].
      apply find_elem_of in Hl as [m Hm]. congruence.
    + intros q Hq. rewrite SMapFacts.find_erase.
      apply elem_of_union in Hq as [Hq|Hq].
      * apply elem_of_singleton in Hq as ->. rewrite decide_True by done.
        rewrite Z.eqb_refl. split; [by eapply Hkeys | done].
      * destruct (decide (q = p)) as [->|_]; [done|].
        destruct (Hgone q Hq) as [Hle Hnone]. split; [done|].
        by destruct (f q =? l).
    + intros l' m Hin. apply SMapFacts.elem_of_erase in Hin.
      by eapply Hkeys.
Qed.

(** The [for] loop: a minted label lies above every label given so far. *)
Lemma label_unclaimed_assigned segs0 rest segs labelled s f :
  (forall p, p ∈ rest -> is_Some (segs0 !! p)) ->
  assigned segs0 segs labelled f ->
  (forall p, p ∈ labelled -> f p <= highest_label_ s) ->
  0 <= highest_label_ s ->
  highest_label_ s + Z.of_nat (length rest) <= uint_max ->
  highest_label_ s + Z.of_nat (length rest) <= label_max ->
  exists segs' labelled' s' f',
    label_unclaimed rest segs labelled s = Returns (segs', labelled', s') /\
    assigned segs0 segs' labelled' f' /\
    (forall p, p ∈ labelled -> p ∈ labelled') /\
    (forall p, p ∈ rest -> p ∈ labelled').
Proof.
  revert segs labelled s f.
  induction rest as [|p rest IH]; intros segs labelled s f Hexist Hinv Hle
    Hpos Hroom Hwrap; simpl.
  - eexists _, _, _, f. split; [done|]. split; [done|]. split; [done|].
    intros p Hp. by apply elem_of_nil in Hp.
  - assert (Hrest : forall q, q ∈ rest -> is_Some (segs0 !! q)).
    { intros q Hq. apply Hexist. apply elem_of_cons. by right. }
    rewrite length_cons in Hroom, Hwrap.
    destruct (decide (p ∈ labelled)) as [Hp|Hp].
    + destruct (IH segs labelled s f) as (segs' & labelled' & s' & f' & ->
        & Hinv' & Hmono & Hall); [done|done|done|done|lia|lia|].
      eexists _, _, _, f'. split; [done|]. split; [done|]. split; [done|].
      intros q Hq. apply elem_of_cons in Hq as [->|Hq]; [|by apply Hall].
      by apply Hmono.
    + unfold getFreshLabel.
      destruct (Z.ltb_spec (highest_label_ s) uint_max); [|lia]. simpl.
      destruct (Hexist p) as [seg Hseg]; [apply elem_of_cons; by left|].
      rewrite (proj1 (proj2 Hinv) p Hp), Hseg.
      rewrite wrap_small by (unfold label_max in Hwrap; lia).
      destruct (IH (<[p := push_labels (highest_label_ s + 1) seg]> segs)
                  ({[p]} ∪ labelled)
                  (set_highest_label (highest_label_ s + 1) s)
                  (fun q => if decide (q = p) then highest_label_ s + 1
                            else f q))
        as (segs' & labelled' & s' & f' & -> & Hinv' & Hmono & Hall);
        [done| | |simpl; lia|simpl; lia|simpl; lia|].
      { apply assigned_claim; [done| |done|].
        - by rewrite (proj1 (proj2 Hinv) p Hp).
        - intros q Hq. specialize (Hle q Hq). lia. }
      { intros q Hq. simpl. destruct (decide (q = p)); [lia|].
        apply elem_of_union in Hq as [Hq|Hq].
        - by apply elem_of_singleton in Hq.
        - specialize (Hle q Hq). lia. }
      eexists _, _, _, f'. split; [done|]. split; [done|]. split.
      * intros q Hq. apply Hmono. apply elem_of_union. by right.
      * intros q Hq. apply elem_of_cons in Hq as [->|Hq]; [|by apply Hall].
        apply Hmono. apply elem_of_union. left. by apply elem_of_singleton.
Qed.

(** X19.  For a batch of existing segments, a table that points to
    existing segments and holds no label above the counter, and a counter
    with room for one label per segment of the batch,
    [decideLabelPointClouds] returns and has pushed on every segment of the
    batch one label, once per point; two different segments of the batch
    got two different labels. *)
Theorem decideLabelPointClouds_distinct_labels
    (segments_to_integrate : list Z) candidates segs s :
  (forall p, p ∈ segments_to_integrate -> is_Some (segs !! p)) ->
  segments_valid candidates segs ->
  (forall l m, (l, m) ∈ candidates -> l <= highest_label_ s) ->
  0 <= highest_label_ s ->
  highest_label_ s + Z.of_nat (length segments_to_integrate) <= uint_max ->
  highest_label_ s + Z.of_nat (length segments_to_integrate) <= label_max ->
  exists segs' candidates' s',
    decideLabelPointClouds segments_to_integrate candidates segs s
      = Returns (segs', candidates', s') /\
    forall p q,
      p ∈ segments_to_integrate -> q ∈ segments_to_integrate -> p <> q ->
      exists seg_p seg_q label_p label_q,
        segs !! p = Some seg_p /\ segs !! q = Some seg_q /\
        segs' !! p = Some (push_labels label_p seg_p) /\
        segs' !! q = Some (push_labels label_q seg_q) /\
        label_p <> label_q.
Proof.
  intros Hexist Hvalid Hkeys Hpos Hroom Hwrap. unfold decideLabelPointClouds.
  assert (Hinit : assigned segs segs ∅ (fun _ => 0)).
  { split; [|split]; [|done|].
    - intros p Hp. by apply not_elem_of_empty in Hp.
    - intros p q Hp. by apply not_elem_of_empty in Hp. }
  destruct (claim_segments_assigned (highest_label_ s) segs
              (length candidates) segs candidates ∅ (fun _ => 0))
    as (segs1 & candidates1 & labelled1 & f1 & -> & Hinv1 & Hle1);
    [done|done|done| |done|].
  { intros p Hp. by apply not_elem_of_empty in Hp. }
  simpl.
  destruct (label_unclaimed_assigned segs segments_to_integrate segs1
              labelled1 s f1)
    as (segs2 & labelled2 & s2 & f2 & -> & Hinv2 & _ & Hall);
    [done|done|done|done|done|done|].
  simpl. eexists _, _, _. split; [done|].
  intros p q Hp Hq Hne. destruct Hinv2 as (Hin & _ & Hinj).
  destruct (Hin p (Hall p Hp)) as (seg_p & Hp0 & Hp2).
  destruct (Hin q (Hall q Hq)) as (seg_q & Hq0 & Hq2).
  exists seg_p, seg_q, (f2 p), (f2 q).
  split; [done|]. split; [done|]. split; [done|]. split; [done|].
  intros Heq. apply Hne. by apply Hinj; [apply Hall | apply Hall |].
Qed.

End GreedyDistinct.


(** ** The ledger and the order of the merge candidates *)

Section LedgerOrder.

Context {P : Platform}.

(** X20.  The merge candidates reach [increasePairwiseConfidenceCount] in
    the iteration order of an unordered set.  For candidates without
    repetition and ledger counts below the maximum of [int], the call returns
    for every order, and two orders of the same candidates leave the same
    count in every entry of the ledger. *)
Theorem increasePairwiseConfidenceCount_any_order
    (merge_candidates merge_candidates' : list Z) (pc : SMap.t (SMap.t Z)) :
  NoDup merge_candidates ->
  merge_candidates ≡ₚ merge_candidates' ->
  (forall x y, paired merge_candidates x y -> ledger_count pc x y < int_max) ->
  exists pc1 pc2,
    increasePairwiseConfidenceCount merge_candidates pc = Returns pc1 /\
    increasePairwiseConfidenceCount merge_candidates' pc = Returns pc2 /\
    forall a b, ledger_entry pc1 a b = ledger_entry pc2 a b.
Proof.
  intros Hnd Hperm Hcount.
  assert (Hsame : forall x y,
    paired merge_candidates' x y <-> paired merge_candidates x y).
  { intros x y. unfold paired. by rewrite Hperm. }
  destruct (count_bumps merge_candidates pc) as (pc1 & Hpc1 & Hb1 & Hb1');
    [done|done|].
  destruct (count_bumps merge_candidates' pc) as (pc2 & Hpc2 & Hb2 & Hb2').
  { by rewrite <- Hperm. }
  { intros x y Hxy. apply Hcount. by apply Hsame. }
  exists pc1, pc2. split; [done|]. split; [done|]. intros a b.
  destruct (paired_dec merge_candidates a b) as [Hab|Hab].
  - rewrite Hb1 by done. rewrite Hb2; [done|]. by apply Hsame.
  - rewrite Hb1' by done. rewrite Hb2'; [done|]. by rewrite Hsame.
Qed.

End LedgerOrder.

(** ** The shares of the integrator threads *)

Section Threads.

Context {Entry S : Type}.

Implicit Types (entries : list Entry) (s : S).

(** X21.  With one integrator thread, the path of [integrateRays] without
    threads, [integrateVoxels] calls [integrateVoxel] on every entry of the
    voxel map, in its order: of the clear map for clearing rays, of the
    voxel map otherwise. *)
Theorem integrateVoxels_single_thread
    (integrateVoxel : bool -> list Entry -> Entry -> S -> outcome S)
    (clearing_ray : bool) (voxel_map clear_map : list Entry) s :
  integrateVoxels integrateVoxel 1 clearing_ray voxel_map clear_map 0 s
  = integrate_each (integrateVoxel clearing_ray voxel_map)
      (if clearing_ray then clear_map else voxel_map) s.
Proof.
  unfold integrateVoxels. generalize 0 at 2 as i.
  generalize (if clearing_ray then clear_map else voxel_map) as entries.
  intros entries. revert s.
  induction entries as [|kv entries IH]; intros s i; [done|].
  cbn [integrateVoxels_from integrate_each].
  change (1 =? 0) with false. cbv iota. rewrite Z.mod_1_r. cbn [Z.eqb].
  destruct (integrateVoxel clearing_ray voxel_map kv s); simpl; [|done..].
  apply IH.
Qed.

Lemma integrateVoxels_from_share (integrateVoxel : Entry -> S -> outcome S)
    (threads thread_idx i : Z) entries s :
  0 < threads -> 0 <= thread_idx -> 0 <= i ->
  i + Z.of_nat (length entries) + thread_idx < 2 ^ size_t_bits ->
  integrateVoxels_from integrateVoxel threads thread_idx i entries s
  = integrate_each integrateVoxel (thread_share threads thread_idx i entries) s.
Proof.
  intros HT Ht. revert i s.
  induction entries as [|kv entries IH]; intros i s Hi Hroom; [done|].
  rewrite length_cons in Hroom.
  cbn [integrateVoxels_from thread_share].
  destruct (Z.eqb_spec threads 0); [lia|].
  rewrite wrap_small by lia.
  destruct (Z.eqb_spec ((i + thread_idx + 1) mod threads) 0) as [Hm|Hm].
  - cbn [app integrate_each].
    destruct (integrateVoxel kv s); simpl; [|done..].
    apply IH; lia.
  - cbn [app bind]. apply IH; lia.
Qed.

(** Exactly one thread takes the entry at position [i]. *)
Lemma one_thread_takes (threads i : Z) (kv : Entry) :
  0 < threads -> 0 <= i ->
  concat (map (fun t => if (i + t + 1) mod threads =? 0 then [kv] else [])
            (seqZ 0 threads)) = [kv].
Proof.
  intros HT Hi.
  set (t0 := threads - 1 - i mod threads).
  pose proof (Z.mod_pos_bound i threads HT) as Hr.
  assert (Htakes : forall t, 0 <= t < threads ->
            ((i + t + 1) mod threads = 0 <-> t = t0)).
  { intros t Ht. unfold t0. rewrite Z.mod_divide by lia. split.
    - intros [k Hk]. pose proof (Z.div_mod i threads ltac:(lia)) as Hdm.
      assert (k - i / threads = 1) by nia. nia.
    - intros ->. exists (i / threads + 1).
      pose proof (Z.div_mod i threads ltac:(lia)) as Hdm. nia. }
  assert (Hnone : forall ts, (forall t, t ∈ ts -> 0 <= t < threads /\ t <> t0) ->
    concat (map (fun t => if (i + t + 1) mod threads =? 0 then [kv] else [])
              ts) = []).
  { induction ts as [|t ts IH]; intros Hts; [done|]. cbn [map concat].
    destruct (Hts t) as [Ht Hne]; [apply elem_of_cons; by left|].
    destruct (Z.eqb_spec ((i + t + 1) mod threads) 0) as [Hd|_];
      [by apply Htakes in Hd|].
    apply IH. intros t' Ht'. apply Hts. apply elem_of_cons. by right. }
  assert (Hsplit : seqZ 0 threads
            = seqZ 0 t0 ++ t0 :: seqZ (Z.succ t0) (Z.pred (threads - t0))).
  { replace threads with (t0 + (threads - t0)) at 1 by lia.
    rewrite seqZ_app by (unfold t0; lia).
    by rewrite (seqZ_cons (0 + t0)) by (unfold t0; lia). }
  rewrite Hsplit, map_app, concat_app. cbn [map concat].
  rewrite !Hnone.
  - destruct (Z.eqb_spec ((i + t0 + 1) mod threads) 0) as [_|Hd]; [done|].
    destruct Hd. apply Htakes; unfold t0; lia.
  - intros t Ht. apply elem_of_seqZ in Ht. unfold t0 in *. lia.
  - intros t Ht. apply elem_of_seqZ in Ht. unfold t0 in *. lia.
Qed.

Lemma concat_map_app {A : Type} (f g : Z -> list A) (ts : list Z) :
  concat (map (fun t => f t ++ g t) ts)
  ≡ₚ concat (map f ts) ++ concat (map g ts).
Proof.
  induction ts as [|t ts IH]; [done|]. cbn [map concat].
  rewrite IH, <- !app_assoc. apply Permutation_app_head.
  rewrite !app_assoc. apply Permutation_app_tail. apply Permutation_app_comm.
Qed.

Lemma thread_shares_partition (threads i : Z) entries :
  0 < threads -> 0 <= i ->
  concat (map (fun t => thread_share threads t i entries) (seqZ 0 threads))
  ≡ₚ entries.
Proof.
  intros HT. revert i.
  induction entries as [|kv entries IH]; intros i Hi.
  - cbn [thread_share]. induction (seqZ 0 threads) as [|t ts IHts]; [done|].
    done.
  - cbn [thread_share].
    rewrite (concat_map_app
               (fun t => if (i + t + 1) mod threads =? 0 then [kv] else [])
               (fun t => thread_share threads t (i + 1) entries)).
    rewrite one_thread_takes by done. rewrite IH by lia. done.
Qed.

(** X22.  With [integrator_threads] threads, the call of [integrateVoxels]
    of a thread calls [integrateVoxel] on its share of the voxel map and on
    nothing else, and the shares of the threads [0] to
    [integrator_threads - 1] together hold every entry of the map exactly
    once. *)
Theorem integrateVoxels_shares
    (integrateVoxel : bool -> list Entry -> Entry -> S -> outcome S)
    (integrator_threads : Z) (clearing_ray : bool)
    (voxel_map clear_map : list Entry) :
  0 < integrator_threads ->
  Z.of_nat (length voxel_map) + integrator_threads <= 2 ^ size_t_bits ->
  Z.of_nat (length clear_map) + integrator_threads <= 2 ^ size_t_bits ->
  let entries := if clearing_ray then clear_map else voxel_map in
  (forall thread_idx s, 0 <= thread_idx < integrator_threads ->
     integrateVoxels integrateVoxel integrator_threads clearing_ray voxel_map
       clear_map thread_idx s
     = integrate_each (integrateVoxel clearing_ray voxel_map)
         (thread_share integrator_threads thread_idx 0 entries) s) /\
  concat (map (fun thread_idx =>
                 thread_share integrator_threads thread_idx 0 entries)
            (seqZ 0 integrator_threads))
  ≡ₚ entries.
Proof.
  intros HT Hvoxel Hclear entries. split.
  - intros thread_idx s Ht. unfold integrateVoxels.
    apply integrateVoxels_from_share; [lia..|].
    fold entries. unfold entries. destruct clearing_ray; lia.
  - by apply thread_shares_partition.
Qed.

(** With no integrator thread configured, a call on a map with an entry
    computes a remainder by 0. *)
Lemma integrateVoxels_no_thread
    (integrateVoxel : bool -> list Entry -> Entry -> S -> outcome S)
    (clearing_ray : bool) (voxel_map clear_map : list Entry)
    (thread_idx : Z) s :
  (if clearing_ray then clear_map else voxel_map) <> [] ->
  integrateVoxels integrateVoxel 0 clearing_ray voxel_map clear_map
    thread_idx s = Undefined.
Proof.
  unfold integrateVoxels.
  by destruct (if clearing_ray then clear_map else voxel_map).
Qed.

End Threads.


(** * The properties on the concrete platform *)

Section Concrete.

Import Examples.

#[local] Existing Instance grid_platform.

(** C1.  The fold-back installs the staged label block into the layer and
    leaves it in the staging map of the label layer: what it clears is
    [temp_block_map_].  After it, the coordinate (1, 0, 0) has a block in
    both. *)
Theorem fold_back_leaves_label_staging :
  let s := updateLabelLayerWithStoredBlocks staging_integrator in
  temp_label_block_map_ s !! next_block = Some new_block /\
  label_layer_ s !! next_block = Some new_block /\
  temp_label_block_map_ s = temp_label_block_map_ staging_integrator.
Proof. split; [|split]; vm_compute; reflexivity. Qed.

(** C2.  A segment of four points, one of which overlaps label 7 and two of
    which overlap label 8: both ratios, 1/4 and 2/4, are above the threshold
    1/20 and the table records the counts 1 and 2, but the merge-candidate
    set holds label 8 only, and the scan leaves the ledger without an entry
    for the pair (7, 8). *)
Theorem single_overlap_is_no_merge_candidate :
  let scan := scan_segment overlapping_integrator 100 uneven_segment [] in
  scan.1.2 = [(7, [(100, 1)]); (8, [(100, 2)])] /\
  ratio_gt (int_of_size_t 1) (int_of_size_t 4)
    (pairwise_confidence_ratio_threshold merging_config) = true /\
  ratio_gt (int_of_size_t 2) (int_of_size_t 4)
    (pairwise_confidence_ratio_threshold merging_config) = true /\
  elements scan.2 = [8] /\
  computeSegmentLabelCandidates {[100 := uneven_segment]} 100 []
    overlapping_integrator
    = Returns ([(7, [(100, 1)]); (8, [(100, 2)])], overlapping_integrator).
Proof. repeat split; vm_compute; reflexivity. Qed.

(** C6.  The pair (1, 2) has count 3, above the threshold 2.  The body of
    the loop rewrites label 1 to label 2 and erases the entry; the loop then
    increments the iterator of the erased entry, and the run of
    [mergeLabels] is undefined. *)
Theorem mergeLabels_erases_under_iterator :
  label_layer_ (merge_pair 1 2 merging_integrator) !! origin_block
    = Some (mkBlock [mkLabelVoxel 2 4] true) /\
  pairwise_confidence_ (merge_pair 1 2 merging_integrator) = [(1, [])] /\
  mergeLabels merging_integrator = Undefined.
Proof. split; [|split]; vm_compute; reflexivity. Qed.

(** C5 as stated fails with the cap enabled at 1: the third write of label
    2 is capped, and the voxel ends as (2, 1). *)
Lemma contest_flip_capped_at_one :
  let w1 := updateLabelVoxel cap_one_config 1 1 unobserved 0 in
  let w2 := updateLabelVoxel cap_one_config 2 1 w1.1 w1.2 in
  let w3 := updateLabelVoxel cap_one_config 2 1 w2.1 w2.2 in
  let w4 := updateLabelVoxel cap_one_config 2 1 w3.1 w3.2 in
  w4.1 = mkLabelVoxel 2 1 /\ w4.1 <> mkLabelVoxel 2 2.
Proof. split; [vm_compute; reflexivity | vm_compute; discriminate]. Qed.

(** C7 as stated fails on a voxel (5, 0) written with label 5 while the
    counter is 3: the label exceeds the counter, and the counter stays 3.
    It also fails, with the counter at 7, for the increment 20 under the cap
    10: the voxel ends as (5, 10). *)
Lemma counter_kept_on_same_label :
  label_confidence (mkLabelVoxel 5 0) = 0 /\ 3 < 5 /\
  updateLabelVoxel default_config 5 1 (mkLabelVoxel 5 0) 3
    = (mkLabelVoxel 5 1, 3) /\
  (updateLabelVoxel default_config 5 1 (mkLabelVoxel 5 0) 3).2 <> 5 /\
  (updateLabelVoxel (mkLabelTsdfConfig false (1, 20) 2 true 10) 5 20
     (mkLabelVoxel 5 0) 7).1 = mkLabelVoxel 5 10.
Proof.
  split; [reflexivity|]. split; [reflexivity|].
  split; [vm_compute; reflexivity|].
  split; [vm_compute; discriminate | vm_compute; reflexivity].
Qed.

(** The theorems with hypotheses, at concrete inputs. *)

Lemma greedy_precedence_witness :
  10 <> 11 /\ 100 <> 200 /\
  batch_segments !! 100 = Some four_points /\
  batch_segments !! 200 = Some two_points /\
  highest_label_ scanning_integrator = 7 /\
  exists segs' candidates' s' a' b',
    decideLabelPointClouds [100; 200] (precedence_table 100 200 10 11)
      batch_segments scanning_integrator
      = Returns (segs', candidates', s') /\
    segs' !! 100 = Some a' /\ points_C_ a' = points_C_ four_points /\
    labels_ a' = [10; 10; 10; 10] /\
    segs' !! 200 = Some b' /\ points_C_ b' = points_C_ two_points /\
    labels_ b' = [8; 8] /\
    7 < 8 /\ highest_label_ s' = 8.
Proof.
  split; [discriminate|]. split; [discriminate|].
  split; [reflexivity|]. split; [reflexivity|]. split; [reflexivity|].
  apply (greedy_precedence 100 200 10 11 ltac:(discriminate)
           ltac:(discriminate) four_points two_points batch_segments
           scanning_integrator [100; 200]).
  - reflexivity.
  - reflexivity.
  - left. reflexivity.
  - discriminate.
  - reflexivity.
  - reflexivity.
Defined.

Lemma decideLabelPointClouds_labels_batch_witness :
  segments_valid batch_table batch_segments /\
  exists segs' candidates' s',
    decideLabelPointClouds [100; 200] batch_table batch_segments
      scanning_integrator
      = Returns (segs', candidates', s') /\
    forall p, p ∈ [100; 200] ->
      exists seg seg' l,
        batch_segments !! p = Some seg /\ segs' !! p = Some seg' /\
        points_C_ seg' = points_C_ seg /\
        length (labels_ seg') = length (points_C_ seg') /\
        labels_ seg' = replicate (length (points_C_ seg')) l /\
        (overlaps batch_table p l \/
         highest_label_ scanning_integrator < l <= highest_label_ s').
Proof.
  assert (Hvalid : segments_valid batch_table batch_segments).
  { intros lbl segments segment count Hl Hs. unfold batch_table in Hl.
    apply elem_of_cons in Hl as [[= -> ->]|Hl].
    - apply elem_of_cons in Hs as [[= -> ->]|Hs]; [by eexists|].
      apply elem_of_cons in Hs as [[= -> ->]|Hs]; [by eexists|].
      by apply elem_of_nil in Hs.
    - apply elem_of_cons in Hl as [[= -> ->]|Hl];
        [|by apply elem_of_nil in Hl].
      apply elem_of_cons in Hs as [[= -> ->]|Hs]; [by eexists|].
      by apply elem_of_nil in Hs. }
  split; [exact Hvalid|].
  apply (decideLabelPointClouds_labels_batch [100; 200] batch_table
           batch_segments scanning_integrator).
  - intros p Hp.
    apply elem_of_cons in Hp as [->|Hp]; [by eexists|].
    apply elem_of_cons in Hp as [->|Hp]; [by eexists|].
    by apply elem_of_nil in Hp.
  - exact Hvalid.
  - discriminate.
  - discriminate.
  - discriminate.
Defined.

Lemma contest_flip_witness :
  let w1 := updateLabelVoxel default_config 1 1 unobserved 0 in
  let w2 := updateLabelVoxel default_config 2 1 w1.1 w1.2 in
  let w3 := updateLabelVoxel default_config 2 1 w2.1 w2.2 in
  let w4 := updateLabelVoxel default_config 2 1 w3.1 w3.2 in
  1 <> 2 /\ cap_confidence default_config = false /\
  w1.1 = mkLabelVoxel 1 1 /\ w2.1 = mkLabelVoxel 1 0 /\
  w3.1 = mkLabelVoxel 2 1 /\ w4.1 = mkLabelVoxel 2 2.
Proof.
  split; [discriminate|]. split; [reflexivity|].
  apply (contest_flip default_config 1 2 0).
  - discriminate.
  - left. reflexivity.
Defined.

Lemma updateLabelVoxel_open_voxel_witness :
  label_confidence (mkLabelVoxel 5 0) = 0 /\ 0 <= 1 <= confidence_max /\
  (5 <> 9 ->
     updateLabelVoxel default_config 9 1 (mkLabelVoxel 5 0) 7
       = (mkLabelVoxel 9 1, Z.max 7 9)) /\
  (5 = 9 ->
     updateLabelVoxel default_config 9 1 (mkLabelVoxel 5 0) 7 =
     (mkLabelVoxel 9
        (if cap_confidence default_config
            && confidence_exceeds 1 (confidence_cap_value default_config)
         then wrap confidence_bits (confidence_cap_value default_config)
         else 1),
      7)) /\
  (forall s p s',
     0 <= highest_label_ s ->
     labels_issued s -> updateLabelVoxelAt 9 1 p s = Returns s' ->
     labels_issued s' /\ highest_label_ s <= highest_label_ s').
Proof.
  split; [reflexivity|]. split; [split; discriminate|].
  apply (updateLabelVoxel_open_voxel default_config 9 1 (mkLabelVoxel 5 0) 7).
  - reflexivity.
  - split; discriminate.
Defined.

Lemma pairwise_confidence_raised_once_witness :
  enable_pairwise_confidence_merging
    (label_tsdf_config_ overlapping_integrator) = true /\
  elements (scan_segment overlapping_integrator 100 overlapping_segment []).2
    = [7; 8] /\
  exists candidates' s',
    computeSegmentLabelCandidates {[100 := overlapping_segment]} 100 []
      overlapping_integrator = Returns (candidates', s') /\
    ledger_entry (pairwise_confidence_ s') 7 8 = Some 1 /\
    ledger_entry (pairwise_confidence_ s') 8 7 = None.
Proof.
  split; [reflexivity|]. split; [vm_compute; reflexivity|].
  destruct (pairwise_confidence_raised_once {[100 := overlapping_segment]}
              100 overlapping_segment [] overlapping_integrator)
    as (candidates' & s' & Hret & Hraised & Hkept & _).
  - reflexivity.
  - reflexivity.
  - intros a b. reflexivity.
  - reflexivity.
  - exists candidates', s'. split; [exact Hret|]. split.
    + apply (Hraised 7 8).
      * apply elem_of_elements. vm_compute elements.
        apply elem_of_cons. by left.
      * apply elem_of_elements. vm_compute elements.
        apply elem_of_cons. right. apply elem_of_cons. by left.
      * reflexivity.
    + apply (Hkept 8 7). intros [Hlt _]. discriminate Hlt.
Defined.


Lemma getLabelsList_empty_witness :
  exists s,
    run short_run (construct default_config one_block_layer 7) = Returns s /\
    label_layer_ s !! next_block = Some (mkBlock [mkLabelVoxel 7 1] true) /\
    labels_count_map_ s = [] /\ getLabelsList s = [].
Proof.
  eexists. split; [vm_compute; reflexivity|].
  split; [vm_compute; reflexivity|].
  apply (getLabelsList_empty default_config one_block_layer 7 short_run).
  vm_compute. reflexivity.
Defined.

End Concrete.

(** * The label counter on a platform with labels of 16 bits *)

Section ConcreteNarrow.

Import NarrowExamples.
#[local] Existing Instance narrow_platform.


End ConcreteNarrow.

(** * The further properties on the concrete platform *)

Section ConcreteFurther.

Import Examples FurtherExamples.
#[local] Existing Instance grid_platform.

Lemma batch_table_valid : segments_valid batch_table batch_segments.
Proof.
  intros lbl segments segment count Hl Hs. unfold batch_table in Hl.
  apply elem_of_cons in Hl as [[= -> ->]|Hl].
  - apply elem_of_cons in Hs as [[= -> ->]|Hs]; [by eexists|].
    apply elem_of_cons in Hs as [[= -> ->]|Hs]; [by eexists|].
    by apply elem_of_nil in Hs.
  - apply elem_of_cons in Hl as [[= -> ->]|Hl];
      [|by apply elem_of_nil in Hl].
    apply elem_of_cons in Hs as [[= -> ->]|Hs]; [by eexists|].
    by apply elem_of_nil in Hs.
Qed.

Lemma scanning_integrator_issued : labels_issued scanning_integrator.
Proof.
  split; intros idx b v Hb Hv.
  - change (label_layer_ scanning_integrator) with one_block_layer in Hb.
    unfold one_block_layer in Hb.
    apply lookup_singleton_Some in Hb as [_ <-].
    apply list_elem_of_singleton in Hv as ->. done.
  - change (temp_label_block_map_ scanning_integrator)
      with (∅ : gmap BlockIndex Block) in Hb.
    by rewrite lookup_empty in Hb.
Qed.

Lemma confidence_stays_capped_witness :
  let r := updateLabelVoxel_times cap_one_config 7 1 3 (mkLabelVoxel 7 1, 7) in
  label r.1 = 7 /\
  0 <= label_confidence r.1 <= confidence_cap_value cap_one_config /\
  r.2 = 7.
Proof.
  apply (confidence_stays_capped cap_one_config 7 1 3 (mkLabelVoxel 7 1) 7).
  - reflexivity.
  - split; discriminate.
  - reflexivity.
  - lia.
Defined.

Lemma confidence_accumulates_modulo_witness :
  updateLabelVoxel_times default_config 7 1 3 (saturated_voxel, 7)
  = (mkLabelVoxel 7 2, 7).
Proof.
  apply (confidence_accumulates_modulo default_config 7 1 3 saturated_voxel 7).
  - reflexivity.
  - reflexivity.
  - split; discriminate.
Defined.

Lemma contest_subtracts_modulo_witness :
  updateLabelVoxel default_config 2 3 (mkLabelVoxel 1 1) 7
  = (mkLabelVoxel 1 65534, 7).
Proof.
  apply (contest_subtracts_modulo default_config 2 3 (mkLabelVoxel 1 1) 7).
  - discriminate.
  - split; [reflexivity | discriminate].
  - split; discriminate.
Defined.

Lemma integrateLabelVoxel_read_back_witness :
  exists s',
    integrateLabelVoxel unseen_voxel 9 scanning_integrator = Returns s' /\
    label_voxel_at s' next_block 0 = mkLabelVoxel 9 1 /\
    highest_label_ s' = 9 /\
    forall idx i,
      (idx, i) <> (next_block, 0%nat) ->
      label_voxel_at s' idx i = label_voxel_at scanning_integrator idx i.
Proof.
  apply (integrateLabelVoxel_read_back unseen_voxel 9 scanning_integrator).
  vm_compute. lia.
Defined.

Lemma integrateLabelVoxels_any_order_witness :
  (exists s',
     integrateLabelVoxels two_voxel_ray 9 scanning_integrator = Returns s') /\
  integrateLabelVoxels two_voxel_ray 9 scanning_integrator
  = integrateLabelVoxels (reverse two_voxel_ray) 9 scanning_integrator.
Proof.
  apply (integrateLabelVoxels_any_order two_voxel_ray (reverse two_voxel_ray) 9
           scanning_integrator).
  apply perm_swap.
Defined.

Lemma labels_stay_issued_witness :
  exists s',
    run short_run scanning_integrator = Returns s' /\
    labels_issued s' /\
    highest_label_ scanning_integrator <= highest_label_ s'.
Proof.
  destruct (run short_run scanning_integrator) as [s'| | |] eqn:Hrun;
    [|vm_compute in Hrun; discriminate Hrun..].
  exists s'. split; [reflexivity|].
  apply (labels_stay_issued short_run scanning_integrator s').
  - discriminate.
  - discriminate.
  - exact scanning_integrator_issued.
  - repeat constructor. discriminate.
  - exact Hrun.
Defined.

Lemma swapLabels_moves_voxels_witness :
  exists b',
    label_layer_ (swapLabels 7 8 overlapping_integrator) !! origin_block
      = Some b' /\
    label_confidence <$> voxels b' = [1] /\
    count_label 7 b' = 0%nat /\
    count_label 8 b' = 1%nat /\
    (forall L, L <> 7 -> L <> 8 ->
       count_label L b' = count_label L (mkBlock [mkLabelVoxel 7 1] false)) /\
    dom (label_layer_ (swapLabels 7 8 overlapping_integrator))
      = dom (label_layer_ overlapping_integrator).
Proof.
  apply (swapLabels_moves_voxels 7 8 overlapping_integrator origin_block
           (mkBlock [mkLabelVoxel 7 1] false)).
  - discriminate.
  - vm_compute. reflexivity.
Defined.

Lemma merge_pair_removes_pair_witness :
  (forall idx b v,
     label_layer_ (merge_pair 1 2 merging_integrator) !! idx = Some b ->
     v ∈ voxels b -> label v <> 1) /\
  ledger_entry (pairwise_confidence_ (merge_pair 1 2 merging_integrator)) 1 2
    = None /\
  (forall x y : Z, (x, y) <> (1, 2) ->
     ledger_entry (pairwise_confidence_ (merge_pair 1 2 merging_integrator))
       x y
     = ledger_entry (pairwise_confidence_ merging_integrator) x y).
Proof.
  apply (merge_pair_removes_pair 1 2 merging_integrator). discriminate.
Defined.

Lemma scan_counts_points_witness :
  let table := (scan_segment overlapping_integrator 100 uneven_segment []).1.2 in
  ledger_entry table 8 100 = Some 2 /\
  (forall l p, p <> 100 -> ledger_entry table l p = None).
Proof.
  apply (scan_counts_points overlapping_integrator 100 uneven_segment [] 8).
  - discriminate.
  - discriminate.
  - reflexivity.
Defined.

Lemma scan_merge_candidates_witness :
  8 ∈ (scan_segment overlapping_integrator 100 uneven_segment []).2
  <->
  enable_pairwise_confidence_merging
    (label_tsdf_config_ overlapping_integrator) = true /\
  exists j,
    2 <= j <= Z.of_nat (hits (label_layer_ overlapping_integrator)
                          (T_G_C_ uneven_segment) (points_C_ uneven_segment) 8)
    /\
    ratio_gt (int_of_size_t j)
      (int_of_size_t (Z.of_nat (length (points_C_ uneven_segment))))
      (pairwise_confidence_ratio_threshold
         (label_tsdf_config_ overlapping_integrator)) = true.
Proof.
  apply (scan_merge_candidates overlapping_integrator 100 uneven_segment [] 8).
  - discriminate.
  - reflexivity.
  - reflexivity.
Defined.

Lemma getNextSegmentLabelPair_maximum_witness :
  exists count pre post,
    table_entries batch_table = pre ++ ((10, 100, count) :: post) /\
    0 < count /\ (100 ∉ (∅ : gset Z)) /\
    (forall l' p' c', (l', p', c') ∈ pre -> p' ∉ (∅ : gset Z) -> c' < count) /\
    (forall l' p' c', (l', p', c') ∈ post -> p' ∉ (∅ : gset Z) -> c' <= count).
Proof.
  apply (getNextSegmentLabelPair_maximum batch_table ∅ 100 10).
  vm_compute. reflexivity.
Defined.

Lemma unobserved_segment_labelled_witness :
  exists candidates1 s1 segs' candidates' s',
    computeSegmentLabelCandidates {[100 := unseen_segment]} 100 []
      scanning_integrator = Returns (candidates1, s1) /\
    decideLabelPointClouds [100] candidates1 {[100 := unseen_segment]} s1
      = Returns (segs', candidates', s') /\
    segs' !! 100 = Some (push_labels (highest_label_ s') unseen_segment) /\
    highest_label_ s' = 8.
Proof.
  apply (unobserved_segment_labelled {[100 := unseen_segment]} 100
           unseen_segment scanning_integrator).
  - reflexivity.
  - intros p Hp.
    apply elem_of_cons in Hp as [->|Hp]; [reflexivity|].
    apply elem_of_cons in Hp as [->|Hp]; [reflexivity|].
    by apply elem_of_nil in Hp.
  - discriminate.
  - discriminate.
  - discriminate.
Defined.

Lemma decideLabelPointClouds_distinct_labels_witness :
  exists segs' candidates' s',
    decideLabelPointClouds [100; 200] batch_table batch_segments
      resolving_integrator = Returns (segs', candidates', s') /\
    forall p q,
      p ∈ [100; 200] -> q ∈ [100; 200] -> p <> q ->
      exists seg_p seg_q label_p label_q,
        batch_segments !! p = Some seg_p /\ batch_segments !! q = Some seg_q /\
        segs' !! p = Some (push_labels label_p seg_p) /\
        segs' !! q = Some (push_labels label_q seg_q) /\
        label_p <> label_q.
Proof.
  apply (decideLabelPointClouds_distinct_labels [100; 200] batch_table
           batch_segments resolving_integrator).
  - intros p Hp.
    apply elem_of_cons in Hp as [->|Hp]; [by eexists|].
    apply elem_of_cons in Hp as [->|Hp]; [by eexists|].
    by apply elem_of_nil in Hp.
  - exact batch_table_valid.
  - intros l m Hl. unfold batch_table in Hl.
    apply elem_of_cons in Hl as [[= -> ->]|Hl]; [discriminate|].
    apply elem_of_cons in Hl as [[= -> ->]|Hl]; [discriminate|].
    by apply elem_of_nil in Hl.
  - discriminate.
  - discriminate.
  - discriminate.
Defined.

Lemma increasePairwiseConfidenceCount_any_order_witness :
  exists pc1 pc2,
    increasePairwiseConfidenceCount [7; 8; 9] small_ledger = Returns pc1 /\
    increasePairwiseConfidenceCount [9; 7; 8] small_ledger = Returns pc2 /\
    forall a b, ledger_entry pc1 a b = ledger_entry pc2 a b.
Proof.
  apply (increasePairwiseConfidenceCount_any_order [7; 8; 9] [9; 7; 8]
           small_ledger).
  - apply (bool_decide_unpack _). vm_compute. exact I.
  - apply (Permutation_app_comm [7; 8] [9]).
  - intros x y _. unfold ledger_count, ledger_entry, small_ledger.
    cbn [SMap.find]. destruct (7 =? x); [|reflexivity].
    cbn [SMap.find]. destruct (8 =? y); reflexivity.
Defined.

Lemma integrateVoxels_shares_witness :
  (forall thread_idx visited, 0 <= thread_idx < 2 ->
     integrateVoxels record_entry 2 false [10; 11; 12] [] thread_idx visited
     = integrate_each (record_entry false [10; 11; 12])
         (thread_share 2 thread_idx 0 [10; 11; 12]) visited) /\
  concat (map (fun thread_idx => thread_share 2 thread_idx 0 [10; 11; 12])
            (seqZ 0 2))
  ≡ₚ [10; 11; 12].
Proof.
  apply (integrateVoxels_shares record_entry 2 false [10; 11; 12] []).
  - reflexivity.
  - discriminate.
  - discriminate.
Defined.

End ConcreteFurther.
